(** * Progressive image loading: a shallow embedding of [image-loader.js]

    The [ImageLoader] class of [assets/js/image-loader.js] is embedded as
    explicit state passing over a record [loader] that holds the class's
    fields together with the part of the browser the class talks to: the
    DOM nodes it reads and mutates, the detached [Image] probes whose
    [onload]/[onerror] callbacks are pending, the pending [setTimeout]
    callbacks, and the targets of the lazy [IntersectionObserver].
    Asynchronous callbacks are reified as data ([probe], [timer]) and the
    browser's event loop as a list of [event]s. *)

From stdpp Require Import gmap strings list fin_maps.
From Stdlib Require Import Lia.

Local Open Scope string_scope.
Local Open Scope list_scope.

(** ** DOM nodes *)

(** A DOM node, with the attributes the loader reads or writes.  Nodes are
    identified by their index in the document's node arena, so that
    [document.createElement] allocates the next index. *)
Record element := Element {
  tagName : string;
  classList : list string;          (* DOMTokenList, in insertion order *)
  parentElement : option nat;       (* None is JS null *)
  src : string;                     (* the empty string when unset *)
  alt : string;
  complete : bool;
  dataset : gmap string string      (* data-* attributes; absent is undefined *)
}.

Definition set_classList (f : list string → list string) (el : element) : element :=
  Element (tagName el) (f (classList el)) (parentElement el) (src el) (alt el)
          (complete el) (dataset el).
Definition set_parentElement (p : option nat) (el : element) : element :=
  Element (tagName el) (classList el) p (src el) (alt el) (complete el) (dataset el).
Definition set_src (u : string) (el : element) : element :=
  Element (tagName el) (classList el) (parentElement el) u (alt el) (complete el)
          (dataset el).
Definition set_alt (a : string) (el : element) : element :=
  Element (tagName el) (classList el) (parentElement el) (src el) a (complete el)
          (dataset el).
Definition set_dataset (f : gmap string string → gmap string string) (el : element)
  : element :=
  Element (tagName el) (classList el) (parentElement el) (src el) (alt el)
          (complete el) (f (dataset el)).

(** [classList.contains], [classList.add], [classList.remove]. *)
Definition class_contains (c : string) (l : list string) : bool := bool_decide (c ∈ l).
Definition class_add (c : string) (l : list string) : list string :=
  if class_contains c l then l else l ++ [c].
Definition class_remove (c : string) (l : list string) : list string :=
  filter (λ d, d ≠ c) l.

(** JS truthiness of a possibly-undefined string: [undefined] and the empty
    string are falsy. *)
Definition truthy (v : option string) : option string :=
  match v with
  | Some u => if bool_decide (u = "") then None else Some u
  | None => None
  end.

(** [a || b] on strings, [a] possibly undefined. *)
Definition js_or (a : option string) (b : string) : string :=
  match truthy a with Some u => u | None => b end.

(** The chain [el, el.parentElement, ...] that [Element.closest] walks.
    The fuel bounds the walk by the size of the arena, which is enough in
    a tree. *)
Fixpoint inclusiveAncestors (fuel : nat) (ns : list element) (i : nat) : list nat :=
  match fuel with
  | 0 => []
  | S fuel' =>
      match ns !! i with
      | None => []
      | Some el =>
          i :: match parentElement el with
               | None => []
               | Some p => inclusiveAncestors fuel' ns p
               end
      end
  end.

Definition has_class (ns : list element) (c : string) (i : nat) : bool :=
  match ns !! i with
  | Some el => class_contains c (classList el)
  | None => false
  end.

(** [img.closest('.' + c)]. *)
Definition closest (ns : list element) (i : nat) (c : string) : option nat :=
  List.find (has_class ns c) (inclusiveAncestors (length ns) ns i).

(** ** Loader state *)

(** A detached [Image] whose [src] has been set and whose [onload] and
    [onerror] closures are pending.  The constructor arguments are the
    variables the closures capture. *)
Inductive probe :=
| ProbeFormats (img container : nat) (formats : list string) (index : nat)
    (currentFormat : string)
| ProbePrimary (img container : nat) (primarySrc : string) (fallbackSrc : option string)
| ProbeFallback (img container : nat) (fallbackSrc : string).

(** A pending [setTimeout] callback, with its delay in milliseconds. *)
Inductive timer :=
| TimerRetry (img : nat) (delay : nat)
| TimerFadeIn (img : nat) (delay : nat).

(** Observable actions, in program order. *)
Inductive effect :=
| Fetch (url : string)                 (* a detached Image's src is set *)
| SetSrc (img : nat) (url : string)    (* the live element's src is set *)
| Schedule (img : nat) (delay : nat)   (* a retry is scheduled *)
| LazyTrigger (img : nat)              (* the observer callback starts a load *)
| Warn (originalSrc : string).         (* console.warn of the final failure *)

Global Instance timer_eq_dec : EqDecision timer.
Proof. solve_decision. Defined.
Global Instance effect_eq_dec : EqDecision effect.
Proof. solve_decision. Defined.

Record loader := Loader {
  nodes : list element;
  loadingImages : gset nat;
  failedImages : gset string;
  loadedImages : gset nat;
  retryAttempts : gmap string nat;
  observed : gset nat;                 (* targets of observers.get('lazy') *)
  probes : list probe;
  timers : list timer;
  log : list effect
}.

Definition maxRetries : nat := 3.

(** The fields as the constructor leaves them, over a given document. *)
Definition new_loader (ns : list element) : loader :=
  Loader ns ∅ ∅ ∅ ∅ ∅ [] [] [].

(** ** A state-and-exception monad

    A JS call either returns or throws; the mutations made before a throw
    stay. *)
Inductive outcome (A : Type) :=
| Ret (a : A) (s : loader)
| Throw (s : loader).
Arguments Ret {A} a s.
Arguments Throw {A} s.

Definition M (A : Type) : Type := loader → outcome A.

Definition final {A} (o : outcome A) : loader :=
  match o with Ret _ s => s | Throw s => s end.
Definition throws {A} (o : outcome A) : bool :=
  match o with Ret _ _ => false | Throw _ => true end.

Definition ret {A} (a : A) : M A := λ s, Ret a s.
Definition throw {A} : M A := λ s, Throw s.
Definition bind {A B} (m : M A) (k : A → M B) : M B :=
  λ s, match m s with
       | Ret a s' => k a s'
       | Throw s' => Throw s'
       end.
Definition gets {A} (f : loader → A) : M A := λ s, Ret (f s) s.
Definition modify (f : loader → loader) : M unit := λ s, Ret tt (f s).

Declare Scope js_scope.
Delimit Scope js_scope with js.
Notation "x <- m ;; k" := (bind m (λ x, k))
  (at level 100, m at next level, right associativity) : js_scope.
Notation "m ;; k" := (bind m (λ _, k))
  (at level 100, right associativity) : js_scope.
Local Open Scope js_scope.

(** [arr.forEach(f)]: an exception ends the loop. *)
Fixpoint forEach {A} (f : A → M unit) (l : list A) : M unit :=
  match l with
  | [] => ret tt
  | x :: l' => f x ;; forEach f l'
  end.

(** *** Field updates *)

Definition with_nodes (f : list element → list element) (s : loader) : loader :=
  Loader (f (nodes s)) (loadingImages s) (failedImages s) (loadedImages s)
         (retryAttempts s) (observed s) (probes s) (timers s) (log s).
Definition with_loadingImages (f : gset nat → gset nat) (s : loader) : loader :=
  Loader (nodes s) (f (loadingImages s)) (failedImages s) (loadedImages s)
         (retryAttempts s) (observed s) (probes s) (timers s) (log s).
Definition with_failedImages (f : gset string → gset string) (s : loader) : loader :=
  Loader (nodes s) (loadingImages s) (f (failedImages s)) (loadedImages s)
         (retryAttempts s) (observed s) (probes s) (timers s) (log s).
Definition with_loadedImages (f : gset nat → gset nat) (s : loader) : loader :=
  Loader (nodes s) (loadingImages s) (failedImages s) (f (loadedImages s))
         (retryAttempts s) (observed s) (probes s) (timers s) (log s).
Definition with_retryAttempts (f : gmap string nat → gmap string nat) (s : loader)
  : loader :=
  Loader (nodes s) (loadingImages s) (failedImages s) (loadedImages s)
         (f (retryAttempts s)) (observed s) (probes s) (timers s) (log s).
Definition with_observed (f : gset nat → gset nat) (s : loader) : loader :=
  Loader (nodes s) (loadingImages s) (failedImages s) (loadedImages s)
         (retryAttempts s) (f (observed s)) (probes s) (timers s) (log s).
Definition with_probes (f : list probe → list probe) (s : loader) : loader :=
  Loader (nodes s) (loadingImages s) (failedImages s) (loadedImages s)
         (retryAttempts s) (observed s) (f (probes s)) (timers s) (log s).
Definition with_timers (f : list timer → list timer) (s : loader) : loader :=
  Loader (nodes s) (loadingImages s) (failedImages s) (loadedImages s)
         (retryAttempts s) (observed s) (probes s) (f (timers s)) (log s).
Definition with_log (f : list effect → list effect) (s : loader) : loader :=
  Loader (nodes s) (loadingImages s) (failedImages s) (loadedImages s)
         (retryAttempts s) (observed s) (probes s) (timers s) (f (log s)).

(** Mutation of the node [i] in place. *)
Definition updNode (i : nat) (f : element → element) : M unit :=
  modify (with_nodes (alter f i)).
(** Reading a node.  Every identifier held by real code denotes an object;
    a dangling one is treated as a TypeError. *)
Definition getNode (i : nat) : M element :=
  λ s, match nodes s !! i with
       | Some el => Ret el s
       | None => Throw s
       end.
Definition emit (e : effect) : M unit := modify (with_log (λ l, l ++ [e])).
Definition setTimeout (t : timer) : M unit := modify (with_timers (λ l, l ++ [t])).
(** The [src] given to a probe. *)
Definition probe_url (p : probe) : string :=
  match p with
  | ProbeFormats _ _ _ _ currentFormat => currentFormat
  | ProbePrimary _ _ primarySrc _ => primarySrc
  | ProbeFallback _ _ fallbackSrc => fallbackSrc
  end.
(** The live element a probe stands in for. *)
Definition probe_img (p : probe) : nat :=
  match p with
  | ProbeFormats img _ _ _ _ => img
  | ProbePrimary img _ _ _ => img
  | ProbeFallback img _ _ => img
  end.
(** [new Image()] with both callbacks installed and its [src] then set. *)
Definition startProbe (p : probe) : M unit :=
  modify (with_probes (λ l, l ++ [p])) ;; emit (Fetch (probe_url p)).

(** ** The methods of [ImageLoader] *)

(** [ensureImageContainer(img)]: the parent when it is an image container,
    else a new [div.image-container.loading] wrapped around [img].
    [img.parentElement.classList] throws when the parent is null. *)
Definition new_container (p : nat) : element :=
  Element "DIV" ["image-container"; "loading"] (Some p) "" "" false ∅.

Definition ensureImageContainer (img : nat) : M nat :=
  el <- getNode img ;;
  match parentElement el with
  | None => throw
  | Some p =>
      pel <- getNode p ;;
      if class_contains "image-container" (classList pel) then ret p
      else
        c <- gets (λ s, length (nodes s)) ;;
        modify (with_nodes (λ ns, ns ++ [new_container p])) ;;
        updNode img (set_parentElement (Some c)) ;;
        ret c
  end.

Definition placeholder_collection := "assets/images/placeholders/collection-placeholder.svg".
Definition placeholder_artwork := "assets/images/placeholders/artwork-placeholder.svg".
Definition placeholder_avatar := "assets/images/placeholders/avatar-placeholder.svg".
Definition placeholder_generic := "assets/images/placeholders/image-error.svg".

(** [getContextualPlaceholder(img)], on the document [ns]. *)
Definition getContextualPlaceholder (ns : list element) (img : nat) : string :=
  if closest ns img "collection-card" is Some _ then placeholder_collection
  else if closest ns img "artwork-card" is Some _ then placeholder_artwork
  else if closest ns img "about" is Some _ then placeholder_avatar
  else placeholder_generic.

(** [markImageLoaded(img, container)]. *)
Definition markImageLoaded (img container : nat) : M unit :=
  updNode img (set_classList (class_remove "loading")) ;;
  updNode img (set_classList (class_add "loaded")) ;;
  updNode container
    (set_classList (λ l, class_remove "image-loading" (class_remove "loading" l))) ;;
  updNode container (set_classList (class_add "loaded")) ;;
  setTimeout (TimerFadeIn img 50).

(** [img.dataset.src || img.src], the key of the retry counter. *)
Definition originalSrc (el : element) : string :=
  js_or (dataset el !! "src") (src el).

(** [this.retryAttempts.get(key) || 0]. *)
Definition retryCount (s : loader) (key : string) : nat :=
  default 0 (retryAttempts s !! key).

(** [handleImageError(img)]. *)
Definition handleImageError (img : nat) : M unit :=
  container <- ensureImageContainer img ;;
  el <- getNode img ;;
  let key := originalSrc el in
  modify (with_failedImages (λ f, {[key]} ∪ f)) ;;
  n <- gets (λ s, retryCount s key) ;;
  if bool_decide (n < maxRetries) then
    modify (with_retryAttempts <[key := n + 1]>) ;;
    setTimeout (TimerRetry img (2 ^ n * 1000)) ;;
    emit (Schedule img (2 ^ n * 1000))
  else
    updNode img (set_classList (class_remove "loading")) ;;
    updNode img (set_classList (class_add "error")) ;;
    updNode container
      (set_classList (λ l, class_remove "image-loading" (class_remove "loading" l))) ;;
    updNode container (set_classList (class_add "error")) ;;
    placeholderSrc <- gets (λ s, getContextualPlaceholder (nodes s) img) ;;
    updNode img (set_src placeholderSrc) ;;
    emit (SetSrc img placeholderSrc) ;;
    updNode img (set_alt "Image temporarily unavailable") ;;
    modify (with_loadingImages (λ l, l ∖ {[img]})) ;;
    emit (Warn key).

(** [tryLoadFormats(img, container, formats, index)], up to the point where
    the probe's callbacks are installed and its [src] is set. *)
Definition tryLoadFormats (img container : nat) (formats : list string) (index : nat)
  : M unit :=
  match formats !! index with
  | None => handleImageError img               (* index >= formats.length *)
  | Some currentFormat =>
      startProbe (ProbeFormats img container formats index currentFormat)
  end.

(** The candidate list
    [[dataset.webp, dataset.jpg, dataset.fallback, dataset.src, src].filter(Boolean)]. *)
Definition candidates (el : element) : list string :=
  omap truthy [dataset el !! "webp"; dataset el !! "jpg"; dataset el !! "fallback";
               dataset el !! "src"; Some (src el)].

(** [loadImageProgressive(img)]. *)
Definition loadImageProgressive (img : nat) : M unit :=
  busy <- gets (λ s, bool_decide (img ∈ loadingImages s)) ;;
  if busy : bool then ret tt
  else
    modify (with_loadingImages (λ l, {[img]} ∪ l)) ;;
    container <- ensureImageContainer img ;;
    el <- getNode img ;;
    tryLoadFormats img container (candidates el) 0.

(** [loadImage(img)], the backwards-compatible entry point. *)
Definition loadImage (img : nat) : M unit := loadImageProgressive img.

(** The second argument of [replaceImageWithProgressive]: an entry of the
    image map, or a single legacy path. *)
Inductive formats_arg :=
| FormatTriple (webp jpg fallback : string)
| FormatLegacy (path : string).

(** [replaceImageWithProgressive(img, formats)]. *)
Definition replaceImageWithProgressive (img : nat) (formats : formats_arg) : M unit :=
  container <- ensureImageContainer img ;;
  match formats with
  | FormatTriple w j f =>
      if bool_decide (w = "") then updNode img (set_dataset <["fallback" := "[object Object]"]>)
      else
        updNode img (set_dataset <["webp" := w]>) ;;
        updNode img (set_dataset <["jpg" := j]>) ;;
        updNode img (set_dataset <["fallback" := f]>)
  | FormatLegacy path => updNode img (set_dataset <["fallback" := path]>)
  end ;;
  updNode container (set_classList (λ l, class_add "image-loading" (class_add "loading" l))) ;;
  updNode img (set_classList (class_add "loading")) ;;
  loadImageProgressive img.

(** [loadImageWithFallback(img, primarySrc, fallbackSrc)], up to the first
    probe. *)
Definition loadImageWithFallback (img : nat) (primarySrc : string)
    (fallbackSrc : option string) : M unit :=
  container <- ensureImageContainer img ;;
  updNode container (set_classList (class_add "loading")) ;;
  startProbe (ProbePrimary img container primarySrc fallbackSrc).

(** The [onload] callback of a probe. *)
Definition probe_onload (p : probe) : M unit :=
  match p with
  | ProbeFormats img container _ _ currentFormat =>
      updNode img (set_src currentFormat) ;;
      emit (SetSrc img currentFormat) ;;
      markImageLoaded img container ;;
      modify (with_loadingImages (λ l, l ∖ {[img]})) ;;
      modify (with_loadedImages (λ l, {[img]} ∪ l))
  | ProbePrimary img container primarySrc _ =>
      updNode img (set_src primarySrc) ;;
      emit (SetSrc img primarySrc) ;;
      markImageLoaded img container
  | ProbeFallback img container fallbackSrc =>
      updNode img (set_src fallbackSrc) ;;
      emit (SetSrc img fallbackSrc) ;;
      markImageLoaded img container
  end.

(** The [onerror] callback of a probe. *)
Definition probe_onerror (p : probe) : M unit :=
  match p with
  | ProbeFormats img container formats index _ =>
      tryLoadFormats img container formats (index + 1)
  | ProbePrimary img container _ fallbackSrc =>
      match truthy fallbackSrc with
      | Some f => startProbe (ProbeFallback img container f)
      | None => handleImageError img
      end
  | ProbeFallback img _ _ => handleImageError img
  end.

(** The callback of a timer. *)
Definition timer_callback (t : timer) : M unit :=
  match t with
  | TimerRetry img _ => loadImageProgressive img
  | TimerFadeIn img _ => updNode img (set_classList (class_add "fade-in"))
  end.

(** The capturing [error] listener that [setupErrorHandling] installs on
    the document. *)
Definition onDocumentError (target : nat) : M unit :=
  el <- getNode target ;;
  if bool_decide (tagName el = "IMG") then handleImageError target else ret tt.

(** ** The lazy visibility detector *)

(** The options [setupLazyLoading] passes to [new IntersectionObserver]:
    [rootMargin] as written, [threshold] as a fraction. *)
Record observer_options := ObserverOptions {
  rootMargin : string;
  threshold : nat * nat
}.
Definition lazyObserverOptions : observer_options :=
  ObserverOptions "100px 0px" (1, 100).

(** An [IntersectionObserverEntry]: [target] and [isIntersecting]. *)
Definition entry : Type := nat * bool.

(** The body of the observer's callback for one entry. *)
Definition onIntersection (e : entry) : M unit :=
  if e.2 then
    let img := e.1 in
    container <- ensureImageContainer img ;;
    updNode container (set_classList (class_add "image-loading")) ;;
    emit (LazyTrigger img) ;;
    loadImageProgressive img ;;
    modify (with_observed (λ o, o ∖ {[img]}))          (* imageObserver.unobserve(img) *)
  else ret tt.

(** The observer's callback: [entries.forEach(...)]. *)
Definition intersectionCallback (entries : list entry) : M unit :=
  forEach onIntersection entries.

(** Membership in the document: the ancestor chain ends at the root. *)
Definition in_document (ns : list element) (i : nat) : bool :=
  match last (inclusiveAncestors (length ns) ns i) with
  | Some r => match ns !! r with
              | Some el => bool_decide (tagName el = "HTML")
              | None => false
              end
  | None => false
  end.

Definition is_img (ns : list element) (i : nat) : bool :=
  match ns !! i with
  | Some el => bool_decide (tagName el = "IMG")
  | None => false
  end.

(** [document.querySelectorAll(sel)] for the two selectors of
    [setupLazyLoading].  The loops over the results commute, so the order
    of the result is immaterial. *)
Definition query_lazy (ns : list element) : list nat :=
  filter (λ i, in_document ns i && is_img ns i &&
               match ns !! i with
               | Some el => bool_decide (is_Some (dataset el !! "src"))
                            || class_contains "lazy-load" (classList el)
               | None => false
               end)
         (seq 0 (length ns)).

Definition query_cards (ns : list element) : list nat :=
  filter (λ i, in_document ns i && is_img ns i &&
               existsb (λ a, has_class ns "artwork-card" a
                             || has_class ns "collection-card" a
                             || has_class ns "about" a)
                       (tail (inclusiveAncestors (length ns) ns i)))
         (seq 0 (length ns)).

Definition observe (img : nat) : M unit := modify (with_observed (λ o, {[img]} ∪ o)).

(** [setupLazyLoading()], the registrations. *)
Definition setupLazyLoading : M unit :=
  lazy <- gets (λ s, query_lazy (nodes s)) ;;
  forEach observe lazy ;;
  cards <- gets (λ s, query_cards (nodes s)) ;;
  forEach (λ img,
    el <- getNode img ;;
    if negb (complete el) && negb (bool_decide (is_Some (truthy (dataset el !! "observed"))))
    then updNode img (set_dataset <["observed" := "true"]>) ;; observe img
    else ret tt) cards.

(** ** The event loop *)

(** What the browser and the page can do to the loader. *)
Inductive event :=
| LoadImage (img : nat)
| Replace (img : nat) (formats : formats_arg)
| LoadWithFallback (img : nat) (primarySrc : string) (fallbackSrc : option string)
| ProbeLoad (i : nat)                  (* the [i]-th pending probe decodes *)
| ProbeError (i : nat)                 (* the [i]-th pending probe fails *)
| TimerFire (i : nat)                  (* the [i]-th pending timer is due *)
| ImgError (target : nat)              (* an [error] event reaches the document *)
| Intersect (entries : list entry).    (* the lazy observer is notified *)

Definition step (e : event) : M unit :=
  match e with
  | LoadImage img => loadImage img
  | Replace img formats => replaceImageWithProgressive img formats
  | LoadWithFallback img p f => loadImageWithFallback img p f
  | ProbeLoad i =>
      ps <- gets probes ;;
      match ps !! i with
      | Some p => modify (with_probes (delete i)) ;; probe_onload p
      | None => ret tt
      end
  | ProbeError i =>
      ps <- gets probes ;;
      match ps !! i with
      | Some p => modify (with_probes (delete i)) ;; probe_onerror p
      | None => ret tt
      end
  | TimerFire i =>
      ts <- gets timers ;;
      match ts !! i with
      | Some t => modify (with_timers (delete i)) ;; timer_callback t
      | None => ret tt
      end
  | ImgError target => onDocumentError target
  | Intersect entries => intersectionCallback entries
  end.

(** A run of the event loop.  An exception that escapes a callback is
    reported by the browser and the loop goes on; [run] returns the final
    state and whether any callback threw. *)
Fixpoint run (es : list event) (s : loader) : loader * bool :=
  match es with
  | [] => (s, false)
  | e :: es' =>
      let o := step e s in
      let r := run es' (final o) in
      (r.1, throws o || r.2)
  end.

Definition exec (es : list event) (s : loader) : loader := (run es s).1.

(** ** Predicates and relations used in the statements *)

(** A relation between the state before a call and the state after it,
    whether the call returns or throws. *)
Definition respects (R : relation loader) {A} (m : M A) : Prop :=
  ∀ s, R s (final (m s)).

(** The retry counter of every key is within the budget. *)
Definition retry_bounded (s : loader) : Prop :=
  ∀ key, (retryCount s key ≤ maxRetries)%nat.

Definition keeps_retry_bounded : relation loader :=
  λ s s', retry_bounded s → retry_bounded s'.

(** The element [img] exists and has a parent element that exists: the
    situation of every image that is in the document. *)
Definition attached (ns : list element) (img : nat) : Prop :=
  ∃ el p pel, ns !! img = Some el ∧ parentElement el = Some p ∧ ns !! p = Some pel.

(** The element [img] sits directly inside the image container [c]. *)
Definition contained (ns : list element) (img c : nat) : Prop :=
  ∃ el cel, ns !! img = Some el ∧ parentElement el = Some c ∧ ns !! c = Some cel ∧
            class_contains "image-container" (classList cel) = true.

(** The two terminal states of a slot, as the loader records them: the
    element is in [loadedImages]; the element carries the [error] class. *)
Definition is_loaded (s : loader) (img : nat) : bool :=
  bool_decide (img ∈ loadedImages s).
Definition is_error_terminal (s : loader) (img : nat) : bool :=
  has_class (nodes s) "error" img.

(** An environment in which nothing ever decodes: every pending probe
    fails, and when no probe is pending the next timer fires, until
    nothing is pending. *)
Fixpoint fail_everything (fuel : nat) (s : loader) : loader :=
  match fuel with
  | 0 => s
  | S fuel' =>
      match probes s, timers s with
      | _ :: _, _ => fail_everything fuel' (final (step (ProbeError 0) s))
      | [], _ :: _ => fail_everything fuel' (final (step (TimerFire 0) s))
      | [], [] => s
      end
  end.

(** Some element of the chain [img, img.parentElement, ...] carries the
    class [c]. *)
Definition in_context (ns : list element) (img : nat) (c : string) : bool :=
  existsb (has_class ns c) (inclusiveAncestors (length ns) ns img).

(** *** Placeholder selection as the specification words it

    The specification selects by the innermost recognized container of the
    element: collection card, artwork card, about region, else generic. *)
Inductive region := CollectionCard | ArtworkCard | AboutRegion | GenericRegion.

Definition region_of_node (ns : list element) (i : nat) : option region :=
  if has_class ns "collection-card" i then Some CollectionCard
  else if has_class ns "artwork-card" i then Some ArtworkCard
  else if has_class ns "about" i then Some AboutRegion
  else None.

Fixpoint first_region (ns : list element) (chain : list nat) : region :=
  match chain with
  | [] => GenericRegion
  | i :: chain' =>
      match region_of_node ns i with
      | Some r => r
      | None => first_region ns chain'
      end
  end.

Definition innermost_region (ns : list element) (img : nat) : region :=
  first_region ns (inclusiveAncestors (length ns) ns img).

Definition placeholder_of_region (r : region) : string :=
  match r with
  | CollectionCard => placeholder_collection
  | ArtworkCard => placeholder_artwork
  | AboutRegion => placeholder_avatar
  | GenericRegion => placeholder_generic
  end.

Definition innermost_placeholder (ns : list element) (img : nat) : string :=
  placeholder_of_region (innermost_region ns img).

(** A pass of [tryLoadFormats] in flight on top of the state [b]: the
    candidates [formats[0..j]] have been requested, and the probe of
    [formats[j]] is the last pending one. *)
Definition pass_state (b : loader) (img c : nat) (formats : list string) (j : nat)
    (u : string) : loader :=
  with_log (λ l, l ++ (Fetch <$> take (S j) formats))
    (with_probes (λ l, l ++ [ProbeFormats img c formats j u]) b).

(** A relation [Q] holds between every node before and the same node
    after; nodes may be added but not removed. *)
Definition nodes_rel (Q : nat → element → element → Prop) : relation loader :=
  λ s s', ∀ i el, nodes s !! i = Some el → ∃ el', nodes s' !! i = Some el' ∧ Q i el el'.

(** The marks of the two terminal states are kept on a node. *)
Definition marks_kept (i : nat) (el el' : element) : Prop :=
  ("loaded" ∈ classList el → "loaded" ∈ classList el') ∧
  ("error" ∈ classList el → "error" ∈ classList el').

Definition loaded_kept : relation loader :=
  λ s s', loadedImages s ⊆ loadedImages s'.

(** The four terminal placeholder URIs. *)
Definition is_placeholder (u : string) : bool :=
  bool_decide (u ∈ [placeholder_collection; placeholder_artwork; placeholder_avatar;
                    placeholder_generic]).

(** What may happen to the [src] of node [i] when the only candidate that
    may be committed is [commit]: it is kept, or set to a placeholder, or
    set to the committed candidate on the element it was probed for. *)
Definition src_written (commit : option (nat * string)) (i : nat) (el el' : element)
  : Prop :=
  src el' = src el ∨ is_placeholder (src el') = true ∨ commit = Some (i, src el').

(** How often the observer callback has started a load for [img]. *)
Definition triggers (img : nat) (l : list effect) : nat :=
  length (filter (λ e, e = LazyTrigger img) l).

(** The browser's side of the observer contract: a notification carries
    at most one entry per target, and only for targets that are observed
    when it is delivered. *)
Definition valid_batch (s : loader) (entries : list entry) : Prop :=
  NoDup entries.*1 ∧ ∀ e, e ∈ entries → e.1 ∈ observed s.

Fixpoint valid_run (es : list event) (s : loader) : Prop :=
  match es with
  | [] => True
  | e :: es' =>
      match e with
      | Intersect entries => valid_batch s entries
      | _ => True
      end ∧ valid_run es' (final (step e s))
  end.

(** The element is reported as intersecting somewhere in the run. *)
Definition reported (img : nat) (es : list event) : Prop :=
  ∃ entries, Intersect entries ∈ es ∧ (img, true) ∈ entries.

(** The registrations and the trigger counts are as before. *)
Definition lazy_kept : relation loader :=
  λ s s', observed s' = observed s ∧ ∀ img, triggers img (log s') = triggers img (log s).

(** Triggers so far, plus the one still possible while registered. *)
Definition trigger_potential (img : nat) (s : loader) : nat :=
  triggers img (log s) + (if bool_decide (img ∈ observed s) then 1 else 0).

(** No element loses its parent. *)
Definition attached_kept : relation loader :=
  λ s s', ∀ i, attached (nodes s) i → attached (nodes s') i.

(** Every pending probe and retry timer was pending before or stands for
    an element in [A]. *)
Definition pending_from (A : nat → Prop) : relation loader :=
  λ s s',
    (∀ p, p ∈ probes s' → p ∈ probes s ∨ A (probe_img p)) ∧
    (∀ i d, TimerRetry i d ∈ timers s' → TimerRetry i d ∈ timers s ∨ A i).

(** The elements with a pending probe or retry timer are attached. *)
Definition slots_attached (s : loader) : Prop :=
  (∀ p, p ∈ probes s → attached (nodes s) (probe_img p)) ∧
  (∀ i d, TimerRetry i d ∈ timers s → attached (nodes s) i).

(** The elements an event names. *)
Definition event_subjects (e : event) : list nat :=
  match e with
  | LoadImage i | Replace i _ | LoadWithFallback i _ _ | ImgError i => [i]
  | Intersect entries => entries.*1
  | ProbeLoad _ | ProbeError _ | TimerFire _ => []
  end.

(** A call returns normally from every state that satisfies [P]. *)
Definition returns (P : loader → Prop) {A} (m : M A) : Prop :=
  ∀ s, P s → throws (m s) = false.

(** ** Example documents *)

Definition div (classes : list string) (parent : option nat) : element :=
  Element "DIV" classes parent "" "" false ∅.
Definition img (parent : nat) (source : string) (data : list (string * string))
  : element :=
  Element "IMG" [] (Some parent) source "" false (list_to_map data).

Definition legacy_url := "https://images.example/photo-1".

(** A gallery card: [html > body > div.artwork-card > img], the image
    carrying the three local formats. *)
Definition doc_gallery : list element :=
  [ Element "HTML" [] None "" "" false ∅;
    Element "BODY" [] (Some 0) "" "" false ∅;
    div ["artwork-card"] (Some 1);
    img 2 legacy_url [("webp", "art.webp"); ("jpg", "art.jpg"); ("fallback", "art.svg")] ].

(** A bare image with a single candidate, its own [src]. *)
Definition doc_single : list element :=
  [ Element "HTML" [] None "" "" false ∅;
    Element "BODY" [] (Some 0) "" "" false ∅;
    img 1 "bad.png" [] ].

(** An artwork card nested in a collection card:
    [html > body > div.collection-card > div.artwork-card > img]. *)
Definition doc_nested : list element :=
  [ Element "HTML" [] None "" "" false ∅;
    Element "BODY" [] (Some 0) "" "" false ∅;
    div ["collection-card"] (Some 1);
    div ["artwork-card"] (Some 2);
    img 3 legacy_url [] ].

(** The gallery slot after three [error] events on the live element: the
    retry budget of its source is spent. *)
Definition spent_gallery : loader :=
  exec [ImgError 3; ImgError 3; ImgError 3] (new_loader doc_gallery).

(** The gallery slot once its preferred format has decoded. *)
Definition loaded_gallery : loader :=
  exec [LoadImage 3; ProbeLoad 0] (new_loader doc_gallery).

(** The gallery slot in the error state: a fourth [error] event after the
    budget is spent. *)
Definition failed_gallery : loader :=
  exec [ImgError 3] spent_gallery.

(** The gallery slot with its first probe in flight. *)
Definition loading_gallery : loader :=
  exec [LoadImage 3] (new_loader doc_gallery).

(** Two images with the same legacy source in different cards:
    [div.artwork-card > img] and [div.collection-card > img]. *)
Definition doc_pair : list element :=
  [ Element "HTML" [] None "" "" false ∅;
    Element "BODY" [] (Some 0) "" "" false ∅;
    div ["artwork-card"] (Some 1);
    div ["collection-card"] (Some 1);
    img 2 legacy_url [];
    img 3 legacy_url [] ].

(** The gallery document after [setupLazyLoading]: its image sits in an
    artwork card and is registered with the observer. *)
Definition watched_gallery : loader :=
  final (setupLazyLoading (new_loader doc_gallery)).

(** ** The image map and the document scan *)

(** [s.split('?')[0]]: the part before the first question mark. *)
Fixpoint before_query (s : string) : string :=
  match s with
  | EmptyString => EmptyString
  | String c r =>
      if bool_decide (String c EmptyString = "?") then EmptyString
      else String c (before_query r)
  end.

(** [hay.includes(needle)]. *)
Fixpoint includes (hay needle : string) : bool :=
  String.prefix needle hay ||
  match hay with
  | EmptyString => false
  | String _ r => includes r needle
  end.

(** The constant [imageMap] of [replaceExternalImages], as
    [Object.entries] enumerates it: in insertion order. *)
Definition imageMap : list (string * formats_arg) :=
  [ ("https://images.unsplash.com/photo-1441974231531-c6227db76b6e",
     FormatTriple "assets/images/gallery/webp/artwork-001.webp"
                  "assets/images/gallery/jpg/artwork-001.jpg"
                  "assets/images/gallery/svg/artwork-001.svg");
    ("https://images.unsplash.com/photo-1518709268805-4e9042af2176",
     FormatTriple "assets/images/gallery/webp/artwork-002.webp"
                  "assets/images/gallery/jpg/artwork-002.jpg"
                  "assets/images/gallery/svg/artwork-002.svg");
    ("https://images.unsplash.com/photo-1578662996442-48f60103fc96",
     FormatTriple "assets/images/gallery/webp/artwork-003.webp"
                  "assets/images/gallery/jpg/artwork-003.jpg"
                  "assets/images/gallery/svg/artwork-003.svg");
    ("https://images.unsplash.com/photo-1520637836862-4d197d17c86a",
     FormatTriple "assets/images/gallery/webp/artwork-001.webp"
                  "assets/images/gallery/jpg/artwork-001.jpg"
                  "assets/images/gallery/svg/artwork-001.svg");
    ("https://images.unsplash.com/photo-1551550029-12c7dd043ba8",
     FormatTriple "assets/images/gallery/webp/artwork-003.webp"
                  "assets/images/gallery/jpg/artwork-003.jpg"
                  "assets/images/gallery/svg/artwork-003.svg");
    ("https://images.unsplash.com/photo-1446776877081-d282a0f896e2",
     FormatTriple "assets/images/gallery/webp/artwork-002.webp"
                  "assets/images/gallery/jpg/artwork-002.jpg"
                  "assets/images/gallery/svg/artwork-002.svg");
    ("https://images.unsplash.com/photo-1578662996442-48f60103fc96?w=400&h=300&fit=crop&crop=center",
     FormatTriple "assets/images/collections/fantasy-cover.webp"
                  "assets/images/collections/fantasy-cover.jpg"
                  "assets/images/collections/fantasy-cover.svg");
    ("https://images.unsplash.com/photo-1518709268805-4e9042af2176?w=400&h=300&fit=crop&crop=center",
     FormatTriple "assets/images/collections/scifi-cover.webp"
                  "assets/images/collections/scifi-cover.jpg"
                  "assets/images/collections/scifi-cover.svg");
    ("https://images.unsplash.com/photo-1551550029-12c7dd043ba8?w=400&h=300&fit=crop&crop=center",
     FormatTriple "assets/images/collections/character-cover.webp"
                  "assets/images/collections/character-cover.jpg"
                  "assets/images/collections/character-cover.svg");
    ("https://images.unsplash.com/photo-1494790108755-2616b612b786?w=400&h=400&fit=crop&crop=face",
     FormatTriple "assets/images/about/maya-portrait.webp"
                  "assets/images/about/maya-portrait.jpg"
                  "assets/images/about/maya-portrait.svg") ].

(** The function-valued properties every object literal inherits from
    [Object.prototype]. *)
Definition objectPrototypeFunctions : list string :=
  [ "constructor"; "hasOwnProperty"; "isPrototypeOf"; "propertyIsEnumerable";
    "toLocaleString"; "toString"; "valueOf"; "__defineGetter__"; "__defineSetter__";
    "__lookupGetter__"; "__lookupSetter__" ].

(** [imageMap[key]] when it is truthy, as the argument it makes for
    [replaceImageWithProgressive].  An own entry is its format triple.  An
    inherited function is not an object with a [webp] field, so it ends up
    as the text [nativeText name] the engine prints for it; [__proto__] is
    an object without [webp].  The key [undefined] names no property. *)
Definition imageMap_get (nativeText : string → string) (key : option string)
  : option formats_arg :=
  match key with
  | None => None
  | Some k =>
      match List.find (λ e, bool_decide (e.1 = k)) imageMap with
      | Some e => Some e.2
      | None =>
          if bool_decide (k = "__proto__") then Some (FormatLegacy "[object Object]")
          else if bool_decide (k ∈ objectPrototypeFunctions)
               then Some (FormatLegacy (nativeText k))
               else None
      end
  end.

(** The first entry whose URL without its query string occurs in [src]:
    the loop over [Object.entries(imageMap)], with its [src &&] guard. *)
Definition imageMap_partial (src : option string) : option formats_arg :=
  match truthy src with
  | None => None
  | Some u => snd <$> List.find (λ e, includes u (before_query e.1)) imageMap
  end.

(** The formats [replaceExternalImages] picks for a source, if any. *)
Definition resolveFormats (nativeText : string → string) (src : option string)
  : option formats_arg :=
  match imageMap_get nativeText src with
  | Some formats => Some formats
  | None => imageMap_partial src
  end.

(** [img.src || img.dataset.src]. *)
Definition srcOrData (el : element) : option string :=
  if bool_decide (src el = "") then dataset el !! "src" else Some (src el).

(** [document.querySelectorAll('img')]; the arena lists the images in
    document order. *)
Definition query_img (ns : list element) : list nat :=
  filter (λ i, in_document ns i && is_img ns i) (seq 0 (length ns)).

(** The body of the loop of [replaceExternalImages]. *)
Definition replaceExternalImage (nativeText : string → string) (img : nat) : M unit :=
  el <- getNode img ;;
  match resolveFormats nativeText (srcOrData el) with
  | Some formats => replaceImageWithProgressive img formats
  | None => ret tt
  end.

(** [replaceExternalImages()]. *)
Definition replaceExternalImages (nativeText : string → string) : M unit :=
  imgs <- gets (λ s, query_img (nodes s)) ;;
  forEach (replaceExternalImage nativeText) imgs.

(** ** Dynamic content, refresh and statistics *)

(** [observeNewImage(img)]; [lazy] tells whether [observers.get('lazy')]
    is defined. *)
Definition observeNewImage (nativeText : string → string) (lazy : bool) (img : nat)
  : M unit :=
  if lazy then
    el <- getNode img ;;
    if bool_decide (is_Some (truthy (dataset el !! "observed"))) then ret tt
    else
      updNode img (set_dataset <["observed" := "true"]>) ;;
      observe img ;;
      replaceExternalImages nativeText
  else ret tt.

(** [node.querySelectorAll('img')]: the images below [node]. *)
Definition descendant_imgs (ns : list element) (node : nat) : list nat :=
  filter (λ i, is_img ns i &&
               bool_decide (node ∈ tail (inclusiveAncestors (length ns) ns i)))
         (seq 0 (length ns)).

(** The callback of the mutation observer on the added element nodes of
    its records. *)
Definition mutationCallback (nativeText : string → string) (lazy : bool)
    (addedNodes : list nat) : M unit :=
  forEach (λ node,
    images <- gets (λ s, if is_img (nodes s) node then [node]
                         else descendant_imgs (nodes s) node) ;;
    forEach (observeNewImage nativeText lazy) images) addedNodes.

(** The state-clearing part and the scan of [refreshImages()]. *)
Definition refreshImages_core (nativeText : string → string) : M unit :=
  modify (with_loadingImages (λ _, ∅)) ;;
  modify (with_failedImages (λ _, ∅)) ;;
  modify (with_retryAttempts (λ _, ∅)) ;;
  replaceExternalImages nativeText.

(** [getLoadingStats()].  [loadingQueue] is created empty and never
    written. *)
Record stats := Stats { loading : nat; loaded : nat; failed : nat; queued : nat }.
Definition getLoadingStats (s : loader) : stats :=
  Stats (size (loadingImages s)) (size (loadedImages s)) (size (failedImages s)) 0.

(** The loader together with what the page holds besides its fields:
    whether the lazy observer exists, and how many capturing [error]
    listeners [setupErrorHandling] has installed on the document. *)
Record session := Session {
  core : loader;
  lazyObserver : bool;
  errorListeners : nat
}.

(** [new ImageLoader()]: the fields, then [init()].  [supportsIO] is
    ['IntersectionObserver' in window].  The result is the session and
    whether the constructor threw. *)
Definition construct (nativeText : string → string) (supportsIO : bool)
    (ns : list element) : session * bool :=
  match (if supportsIO then setupLazyLoading else ret tt) (new_loader ns) with
  | Throw s => (Session s false 0, true)
  | Ret _ s =>
      let o := replaceExternalImages nativeText s in
      (Session (final o) supportsIO (if throws o then 0 else 1), throws o)
  end.

(** [refreshImages()] on a session. *)
Definition refreshImages (nativeText : string → string) (σ : session) : session * bool :=
  let o := refreshImages_core nativeText (core σ) in
  (Session (final o) (lazyObserver σ)
           (if throws o then errorListeners σ else S (errorListeners σ)), throws o).

(** An [error] event on [target] reaches the document: every installed
    listener runs. *)
Definition dispatchError (target : nat) (σ : session) : session * bool :=
  let r := run (replicate (errorListeners σ) (ImgError target)) (core σ) in
  (Session r.1 (lazyObserver σ) (errorListeners σ), r.2).

(** ** Further relations used in the statements *)

(** Every element that sits in an image container still sits in it. *)
Definition contained_kept : relation loader :=
  λ s s', ∀ img c, contained (nodes s) img c → contained (nodes s') img c.

(** The data attributes after the writes of [replaceImageWithProgressive]. *)
Definition stored_formats (formats : formats_arg) (d : gmap string string)
  : gmap string string :=
  match formats with
  | FormatTriple w j f =>
      if bool_decide (w = "") then <["fallback" := "[object Object]"]> d
      else <["fallback" := f]> (<["jpg" := j]> (<["webp" := w]> d))
  | FormatLegacy path => <["fallback" := path]> d
  end.

(** What the document scan and [observeNewImage] read of an element is
    as before. *)
Definition same_source (i : nat) (el el' : element) : Prop :=
  tagName el' = tagName el ∧ src el' = src el ∧
  dataset el' !! "src" = dataset el !! "src" ∧
  dataset el' !! "observed" = dataset el !! "observed".

(** The element [i] is an image whose source the image map resolves. *)
Definition mapped (nativeText : string → string) (ns : list element) (i : nat) : bool :=
  match ns !! i with
  | Some el => bool_decide (is_Some (resolveFormats nativeText (srcOrData el)))
  | None => false
  end.

(** What a scan of the document leaves alone: the failure records, the
    timers, the loaded set and the registrations are untouched, no element
    leaves the loading set, no pending probe is dropped or moved, no
    element loses its parent, and every source is as before. *)
Definition scan_kept : relation loader :=
  λ s s',
    failedImages s' = failedImages s ∧ retryAttempts s' = retryAttempts s ∧
    timers s' = timers s ∧ loadedImages s' = loadedImages s ∧
    observed s' = observed s ∧
    loadingImages s ⊆ loadingImages s' ∧
    probes s `prefix_of` probes s' ∧
    attached_kept s s' ∧
    nodes_rel same_source s s'.

(** The place of an element in the tree, its classes and its sources are
    as before. *)
Definition tree_same (i : nat) (el el' : element) : Prop :=
  tagName el' = tagName el ∧ parentElement el' = parentElement el ∧
  classList el' = classList el ∧ complete el' = complete el ∧
  src el' = src el ∧ dataset el' !! "src" = dataset el !! "src".

(** What a call that only registers elements leaves alone: the loading
    state, the tree and the sources; registrations are only added. *)
Definition setup_kept : relation loader :=
  λ s s',
    loadingImages s' = loadingImages s ∧ loadedImages s' = loadedImages s ∧
    failedImages s' = failedImages s ∧ retryAttempts s' = retryAttempts s ∧
    probes s' = probes s ∧ timers s' = timers s ∧ log s' = log s ∧
    observed s ⊆ observed s' ∧
    length (nodes s') = length (nodes s) ∧
    nodes_rel tree_same s s'.

(** Every new registration is of an element in [A]. *)
Definition registered_from (A : nat → Prop) : relation loader :=
  λ s s', ∀ i, i ∈ observed s' → i ∈ observed s ∨ A i.

(** The element [i] is one that the card loop of [setupLazyLoading]
    skips: it is complete, or already flagged as observed. *)
Definition skipped (ns : list element) (i : nat) : Prop :=
  ∃ el, ns !! i = Some el ∧
    (complete el = true ∨ is_Some (truthy (dataset el !! "observed"))).

(** A skipped element stays skipped and does not get registered. *)
Definition skipped_kept (i : nat) : relation loader :=
  λ s s', skipped (nodes s) i →
    skipped (nodes s') i ∧ (i ∈ observed s' → i ∈ observed s).

(** No key leaves [failedImages]. *)
Definition failed_kept : relation loader :=
  λ s s', failedImages s ⊆ failedImages s'.

(** Every source with a retry counter is recorded as failed. *)
Definition retry_keys_failed (s : loader) : Prop :=
  ∀ key, is_Some (retryAttempts s !! key) → key ∈ failedImages s.

(** The tag and the data attributes of an element are as before. *)
Definition attrs_same (i : nat) (el el' : element) : Prop :=
  tagName el' = tagName el ∧ dataset el' = dataset el.

Definition keeps_retry_keys_failed : relation loader :=
  λ s s', retry_keys_failed s → retry_keys_failed s'.

(** The formats are those of a collection cover. *)
Definition is_collection_cover (formats : formats_arg) : bool :=
  match formats with
  | FormatTriple w _ _ => String.prefix "assets/images/collections/" w
  | FormatLegacy _ => false
  end.

(** ** The page around the loader *)

(** What can happen to a page that has constructed its loader: the
    events of [step], a notification of the mutation observer that
    [setupPerformanceMonitoring] installs on [document.body], and a call
    of [refreshImages()]. *)
Inductive page_event :=
| LoaderEvent (e : event)
| Mutation (addedNodes : list nat)     (* the added element nodes of the records *)
| Refresh.

(** One event on a session.  An [error] event runs every installed
    listener; the mutation callback finds the lazy observer, or not, in
    [observers]. *)
Definition page_step (nativeText : string → string) (e : page_event) (σ : session)
  : session * bool :=
  match e with
  | LoaderEvent (ImgError target) => dispatchError target σ
  | LoaderEvent e' =>
      let o := step e' (core σ) in
      (Session (final o) (lazyObserver σ) (errorListeners σ), throws o)
  | Mutation addedNodes =>
      let o := mutationCallback nativeText (lazyObserver σ) addedNodes (core σ) in
      (Session (final o) (lazyObserver σ) (errorListeners σ), throws o)
  | Refresh => refreshImages nativeText σ
  end.

(** A run of the page; the result is the final session and whether any
    callback threw. *)
Fixpoint page_run (nativeText : string → string) (es : list page_event) (σ : session)
  : session * bool :=
  match es with
  | [] => (σ, false)
  | e :: es' =>
      let r := page_step nativeText e σ in
      let r' := page_run nativeText es' r.1 in
      (r'.1, r.2 || r'.2)
  end.

Definition page_exec (nativeText : string → string) (es : list page_event) (σ : session)
  : session :=
  (page_run nativeText es σ).1.

(** The browser's side of the observer contract along a run of the page. *)
Fixpoint page_valid_run (nativeText : string → string) (es : list page_event)
    (σ : session) : Prop :=
  match es with
  | [] => True
  | e :: es' =>
      match e with
      | LoaderEvent (Intersect entries) => valid_batch (core σ) entries
      | _ => True
      end ∧ page_valid_run nativeText es' (page_step nativeText e σ).1
  end.

(** The element is reported as intersecting somewhere in the run. *)
Definition page_reported (img : nat) (es : list page_event) : Prop :=
  ∃ entries, LoaderEvent (Intersect entries) ∈ es ∧ (img, true) ∈ entries.

(** The element carries a truthy [data-observed]. *)
Definition flagged (ns : list element) (i : nat) : bool :=
  match ns !! i with
  | Some el => bool_decide (is_Some (truthy (dataset el !! "observed")))
  | None => false
  end.

(** Triggers so far, plus the one still possible while registered, plus
    the one a registration by [observeNewImage] can still add while the
    element is not flagged. *)
Definition trigger_budget (img : nat) (s : loader) : nat :=
  trigger_potential img s + (if flagged (nodes s) img then 0 else 1).

(** A [data-observed] flag, once set, stays. *)
Definition flag_kept (i : nat) (el el' : element) : Prop :=
  is_Some (truthy (dataset el !! "observed")) →
  is_Some (truthy (dataset el' !! "observed")).

(** The trigger counts are as before. *)
Definition triggers_kept : relation loader :=
  λ s s', ∀ img, triggers img (log s') = triggers img (log s).

(** The budget of [img] has not grown. *)
Definition budget_kept (img : nat) : relation loader :=
  λ s s', (trigger_budget img s' ≤ trigger_budget img s)%nat.

(** An image marked for lazy loading by [data-src] alone, outside any
    card: [html > body > img[data-src]]. *)
Definition lazy_url := "https://cdn.example/photo.jpg".
Definition doc_lazy : list element :=
  [ Element "HTML" [] None "" "" false ∅;
    Element "BODY" [] (Some 0) "" "" false ∅;
    Element "IMG" [] (Some 1) "" "" false {["src" := lazy_url]} ].

(** * Properties *)

(** ** Reasoning about monadic code *)

Lemma bind_modify {B} f (k : unit → M B) s : bind (modify f) k s = k tt (f s).
Proof. reflexivity. Qed.

Section Respects.
Context (R : relation loader) `{!PreOrder R}.

Lemma respects_ret {A} (a : A) : respects R (ret a).
Proof. intros s. simpl. reflexivity. Qed.

Lemma respects_throw {A} : respects R (@throw A).
Proof. intros s. simpl. reflexivity. Qed.

Lemma respects_gets {A} (f : loader → A) : respects R (gets f).
Proof. intros s. simpl. reflexivity. Qed.

Lemma respects_getNode i : respects R (getNode i).
Proof. intros s. unfold getNode. destruct (nodes s !! i); simpl; reflexivity. Qed.

Lemma respects_modify f : (∀ s, R s (f s)) → respects R (modify f).
Proof. intros H s. apply H. Qed.

(** Sequencing, with a fact [P] about the value handed over. *)
Lemma respects_bind_post {A B} (P : A → Prop) (m : M A) (k : A → M B) :
  (∀ s a s', m s = Ret a s' → P a) →
  respects R m → (∀ a, P a → respects R (k a)) → respects R (bind m k).
Proof.
  intros HP Hm Hk s. unfold bind.
  specialize (Hm s). destruct (m s) as [a s'|s'] eqn:E; simpl in *; [|done].
  etransitivity; [exact Hm|]. apply Hk. eapply HP, E.
Qed.

Lemma respects_bind {A B} (m : M A) (k : A → M B) :
  respects R m → (∀ a, respects R (k a)) → respects R (bind m k).
Proof. intros Hm Hk. apply (respects_bind_post (λ _, True)); auto. Qed.

Lemma respects_forEach {A} (f : A → M unit) l :
  (∀ x, respects R (f x)) → respects R (forEach f l).
Proof.
  intros Hf. induction l as [|x l IH]; simpl.
  - apply respects_ret.
  - apply respects_bind; auto.
Qed.

End Respects.

(** Decomposition of a [respects] goal along the structure of the code;
    what is left are the primitive updates. *)
Ltac respects_with known :=
  repeat first
    [ known
    | apply respects_ret; solve [typeclasses eauto]
    | apply respects_throw; solve [typeclasses eauto]
    | apply respects_gets; solve [typeclasses eauto]
    | apply respects_getNode; solve [typeclasses eauto]
    | apply respects_bind; [typeclasses eauto | | intros ?]
    | apply respects_forEach; [typeclasses eauto | intros ?]
    | match goal with
      | |- respects _ (if bool_decide ?P then _ else _) =>
          destruct (bool_decide_reflect P)
      | |- respects _ (if ?b then _ else _) => destruct b eqn:?
      | |- respects _ (match ?x with _ => _ end) => destruct x eqn:?
      end ].
Ltac respects_struct := respects_with fail.

(** ** The retry counter is bounded *)

Global Instance keeps_retry_bounded_preorder : PreOrder keeps_retry_bounded.
Proof. split; unfold keeps_retry_bounded; [intros s|intros a b c]; auto. Qed.

Lemma retryCount_insert s key n key' :
  retryCount (with_retryAttempts <[key := n]> s) key' =
  if decide (key = key') then n else retryCount s key'.
Proof.
  unfold retryCount; simpl. rewrite lookup_insert. by case_decide.
Qed.

Lemma handleImageError_retry_bounded img : respects keeps_retry_bounded (handleImageError img).
Proof.
  unfold handleImageError, ensureImageContainer, updNode, emit, setTimeout.
  respects_struct; try (apply respects_modify; intros ? Hs; exact Hs).
  apply respects_modify. intros s Hs key'. rewrite retryCount_insert.
  case_decide; [unfold maxRetries in *; lia | apply Hs].
Qed.

(** Unfolds the methods down to the primitive reads and updates, keeping
    [handleImageError] folded. *)
Ltac unfold_methods :=
  unfold timer_callback, probe_onload, probe_onerror, onDocumentError,
    intersectionCallback, onIntersection, loadImage, replaceImageWithProgressive,
    loadImageWithFallback, loadImageProgressive, tryLoadFormats, markImageLoaded,
    startProbe, ensureImageContainer, updNode, emit, setTimeout.

Lemma step_retry_bounded e : respects keeps_retry_bounded (step e).
Proof.
  destruct e; simpl; unfold_methods;
    respects_with ltac:(first
      [ apply handleImageError_retry_bounded
      | apply respects_modify; intros ? Hs; exact Hs ]).
Qed.

Lemma exec_cons e es s : exec (e :: es) s = exec es (final (step e s)).
Proof. reflexivity. Qed.

Lemma exec_app es1 es2 s : exec (es1 ++ es2) s = exec es2 (exec es1 s).
Proof.
  revert s. induction es1 as [|e es1 IH]; intros s; [reflexivity|].
  simpl app. rewrite !exec_cons. apply IH.
Qed.

Lemma exec_singleton e s : exec [e] s = final (step e s).
Proof. reflexivity. Qed.

Lemma exec_retry_bounded es s : retry_bounded s → retry_bounded (exec es s).
Proof.
  revert s. induction es as [|e es IH]; intros s Hs; [exact Hs|].
  rewrite exec_cons. apply IH. by apply step_retry_bounded.
Qed.

Lemma new_loader_retry_bounded ns : retry_bounded (new_loader ns).
Proof. intros key. unfold retryCount. simpl. rewrite lookup_empty. simpl. lia. Qed.

(** C9. Over any document, after any sequence of load requests, probe
    outcomes, timer firings, error events and observer notifications, the
    retry counter of every original source reference is at most 3: both
    the value the loader reads ([get(key) || 0]) and the value stored in
    [retryAttempts], when there is one. *)
Theorem C9_retry_counter_at_most_three (ns : list element) (es : list event) (key : string) :
  (retryCount (exec es (new_loader ns)) key ≤ 3)%nat ∧
  match retryAttempts (exec es (new_loader ns)) !! key with
  | Some n => (n ≤ 3)%nat
  | None => True
  end.
Proof.
  pose proof (exec_retry_bounded es _ (new_loader_retry_bounded ns) key) as H.
  unfold retryCount, maxRetries in *.
  destruct (retryAttempts (exec es (new_loader ns)) !! key); simpl in *; auto.
Qed.

(** ** A load request on an element that is already loading *)

Lemma loadImageProgressive_busy (s : loader) (img : nat) :
  img ∈ loadingImages s → loadImageProgressive img s = Ret tt s.
Proof.
  intros Hin. unfold loadImageProgressive, bind, gets.
  by rewrite bool_decide_eq_true_2.
Qed.

(** C10. For an element in [loadingImages], [loadImageProgressive] returns
    at once with the state unchanged: no probe, no write to the element,
    no change to any collection.  A backoff timer for such an element that
    fires does nothing but leave the timer queue. *)
Theorem C10_load_while_loading_is_noop (s : loader) (img : nat) :
  img ∈ loadingImages s →
  loadImageProgressive img s = Ret tt s ∧
  ∀ i delay, timers s !! i = Some (TimerRetry img delay) →
    step (TimerFire i) s = Ret tt (with_timers (delete i) s) ∧
    let s' := with_timers (delete i) s in
    nodes s' = nodes s ∧ loadingImages s' = loadingImages s ∧
    loadedImages s' = loadedImages s ∧ failedImages s' = failedImages s ∧
    retryAttempts s' = retryAttempts s ∧ probes s' = probes s ∧ log s' = log s.
Proof.
  intros Hin. split; [by apply loadImageProgressive_busy|].
  intros i delay Ht. split; [|done].
  unfold step, bind, gets. rewrite Ht. simpl.
  by apply loadImageProgressive_busy.
Qed.

(** The gallery slot after one failed pass: its backoff timer is pending
    and the element is still in [loadingImages]. *)
Lemma C10_witness :
  let s := exec [LoadImage 3; ProbeError 0; ProbeError 0; ProbeError 0; ProbeError 0]
                (new_loader doc_gallery) in
  loadImageProgressive 3 s = Ret tt s ∧
  ∀ i delay, timers s !! i = Some (TimerRetry 3 delay) →
    step (TimerFire i) s = Ret tt (with_timers (delete i) s) ∧
    let s' := with_timers (delete i) s in
    nodes s' = nodes s ∧ loadingImages s' = loadingImages s ∧
    loadedImages s' = loadedImages s ∧ failedImages s' = failedImages s ∧
    retryAttempts s' = retryAttempts s ∧ probes s' = probes s ∧ log s' = log s.
Proof.
  apply (C10_load_while_loading_is_noop
           (exec [LoadImage 3; ProbeError 0; ProbeError 0; ProbeError 0; ProbeError 0]
                 (new_loader doc_gallery)) 3).
  vm_compute. reflexivity.
Defined.

(** ** A slot whose candidates all fail *)

Lemma fail_everything_quiescent fuel s :
  probes s = [] → timers s = [] → fail_everything fuel s = s.
Proof. intros Hp Ht. destruct fuel; simpl; [done|]. by rewrite Hp, Ht. Qed.

Lemma fail_everything_probe fuel s p ps :
  probes s = p :: ps →
  fail_everything (S fuel) s = fail_everything fuel (final (step (ProbeError 0) s)).
Proof. intros Hp. simpl. by rewrite Hp. Qed.

Lemma fail_everything_timer fuel s t ts :
  probes s = [] → timers s = t :: ts →
  fail_everything (S fuel) s = fail_everything fuel (final (step (TimerFire 0) s)).
Proof. intros Hp Ht. simpl. by rewrite Hp, Ht. Qed.

(** C1, on the gallery slot when nothing ever decodes.  The first pass
    probes the four candidates in order and schedules one retry after
    1000 ms.  When that timer fires the element is still in
    [loadingImages], so no candidate is probed again: the run comes to rest
    with the counter at 1, a single retry scheduled, the element still
    marked as loading and never given the error class or a placeholder. *)
Theorem C1_single_inert_retry (k : nat) :
  let s := fail_everything (6 + k) (final (step (LoadImage 3) (new_loader doc_gallery))) in
  log s = [Fetch "art.webp"; Fetch "art.jpg"; Fetch "art.svg"; Fetch legacy_url;
           Schedule 3 1000] ∧
  probes s = [] ∧ timers s = [] ∧
  retryAttempts s = {[legacy_url := 1]} ∧
  3 ∈ loadingImages s ∧
  is_error_terminal s 3 = false ∧
  src <$> nodes s !! 3 = Some legacy_url.
Proof.
  cbv zeta. change (6 + k) with (S (S (S (S (S (S k)))))).
  do 4 (erewrite fail_everything_probe by (vm_compute; reflexivity)).
  erewrite fail_everything_timer by (vm_compute; reflexivity).
  rewrite fail_everything_quiescent by (vm_compute; reflexivity).
  repeat split; vm_compute; reflexivity.
Qed.

(** C3, on a slot with a single candidate that fails.  No callback throws,
    but the slot is left in neither terminal state: after the one inert
    retry nothing is pending, the element is not in [loadedImages] and
    does not carry the error class. *)
Theorem C3_exhausted_slot_is_left_loading (k : nat) :
  let s := fail_everything (3 + k) (final (step (LoadImage 2) (new_loader doc_single))) in
  (run [LoadImage 2; ProbeError 0; TimerFire 0] (new_loader doc_single)).2 = false ∧
  exec [LoadImage 2; ProbeError 0; TimerFire 0] (new_loader doc_single) = s ∧
  probes s = [] ∧ timers s = [] ∧
  2 ∈ loadingImages s ∧
  is_loaded s 2 = false ∧ is_error_terminal s 2 = false.
Proof.
  cbv zeta. change (3 + k) with (S (S (S k))).
  erewrite fail_everything_probe by (vm_compute; reflexivity).
  erewrite fail_everything_timer by (vm_compute; reflexivity).
  rewrite fail_everything_quiescent by (vm_compute; reflexivity).
  repeat split; vm_compute; reflexivity.
Qed.

(** ** Symbolic execution of the methods *)

Lemma getNode_Some s i el : nodes s !! i = Some el → getNode i s = Ret el s.
Proof. intros H. unfold getNode. by rewrite H. Qed.

Lemma with_nodes_id s : with_nodes (λ _, nodes s) s = s.
Proof. by destruct s. Qed.

(** On a contained element [ensureImageContainer] returns the container
    and changes nothing. *)
Lemma ensure_contained s img c :
  contained (nodes s) img c → ensureImageContainer img s = Ret c s.
Proof.
  intros (el & cel & Hel & Hp & Hcel & Hcls).
  unfold ensureImageContainer, bind.
  rewrite (getNode_Some _ _ _ Hel), Hp, (getNode_Some _ _ _ Hcel), Hcls.
  reflexivity.
Qed.

(** On an attached element [ensureImageContainer] returns; afterwards the
    element is contained, only the node arena has changed, every old node
    is still there, and only the element's parent pointer differs. *)
Lemma ensure_attached s img :
  attached (nodes s) img →
  ∃ c ns', ensureImageContainer img s = Ret c (with_nodes (λ _, ns') s) ∧
    contained ns' img c ∧
    (∀ el, nodes s !! img = Some el → ns' !! img = Some (set_parentElement (Some c) el)) ∧
    (∀ i, i ≠ img → i < length (nodes s) → ns' !! i = nodes s !! i) ∧
    (∀ el, nodes s !! img = Some el →
           parentElement el = Some c ∨ c = length (nodes s)).
Proof.
  intros (el & p & pel & Hel & Hp & Hpel).
  unfold ensureImageContainer, bind.
  rewrite (getNode_Some _ _ _ Hel), Hp, (getNode_Some _ _ _ Hpel).
  destruct (class_contains "image-container" (classList pel)) eqn:Hcls.
  - exists p, (nodes s). rewrite with_nodes_id. split; [done|].
    split; [exists el, pel; repeat split; assumption|].
    split; [|split; [done|]].
    + intros el' Hel'. rewrite Hel in Hel'. injection Hel' as <-.
      rewrite Hel. f_equal. destruct el; simpl in *. by subst.
    + intros el' Hel'. left. congruence.
  - pose proof (lookup_lt_Some _ _ _ Hel) as Hlt.
    exists (length (nodes s)),
      (alter (set_parentElement (Some (length (nodes s)))) img
             (nodes s ++ [new_container p])).
    split; [by destruct s|]. split; [|split; [|split]].
    + exists (set_parentElement (Some (length (nodes s))) el), (new_container p).
      rewrite list_lookup_alter_eq, lookup_app_l, Hel by done.
      rewrite list_lookup_alter_ne by lia.
      rewrite lookup_app_r, Nat.sub_diag by done. done.
    + intros el' Hel'. rewrite list_lookup_alter_eq, lookup_app_l, Hel' by done. done.
    + intros i Hi Hlen. rewrite list_lookup_alter_ne, lookup_app_l by done. done.
    + intros; by right.
Qed.

(** [ensureImageContainer] is idempotent. *)
Lemma ensure_twice s img c s1 :
  ensureImageContainer img s = Ret c s1 → ensureImageContainer img s1 = Ret c s1.
Proof.
  intros H. apply ensure_contained. revert H.
  unfold ensureImageContainer, bind, getNode.
  destruct (nodes s !! img) as [el|] eqn:Hel; [|done].
  destruct (parentElement el) as [p|] eqn:Hp; [|done].
  destruct (nodes s !! p) as [pel|] eqn:Hpel; [|done].
  destruct (class_contains "image-container" (classList pel)) eqn:Hcls.
  - intros [= <- <-]. exists el, pel; repeat split; assumption.
  - intros [= <- <-]. simpl.
    pose proof (lookup_lt_Some _ _ _ Hel) as Hlt.
    exists (set_parentElement (Some (length (nodes s))) el), (new_container p).
    rewrite list_lookup_alter_eq, lookup_app_l, Hel by done.
    rewrite list_lookup_alter_ne by lia.
    rewrite lookup_app_r, Nat.sub_diag by done. done.
Qed.

(** *** Class lists *)

Lemma class_add_In c l : c ∈ class_add c l.
Proof.
  unfold class_add, class_contains. case_bool_decide; [done|].
  apply elem_of_app. right. by apply list_elem_of_singleton.
Qed.

Lemma class_add_keeps c d l : d ∈ l → d ∈ class_add c l.
Proof.
  intros H. unfold class_add. destruct (class_contains c l); [done|].
  apply elem_of_app. by left.
Qed.

Lemma class_remove_keeps c d l : d ≠ c → d ∈ l → d ∈ class_remove c l.
Proof. intros Hne H. unfold class_remove. by apply list_elem_of_filter. Qed.

(** *** Nodes under in-place updates *)

Lemma alter_lookup_pres (P : element → Prop) f i (ns : list element) j :
  (∀ e, P e → P (f e)) →
  (∃ e, ns !! j = Some e ∧ P e) → ∃ e, alter f i ns !! j = Some e ∧ P e.
Proof.
  intros Hf (e & He & HP).
  destruct (decide (i = j)) as [->|];
    [rewrite list_lookup_alter_eq | rewrite list_lookup_alter_ne by done];
    rewrite He; simpl; eauto.
Qed.

Lemma alter_lookup_est (P Q : element → Prop) f (ns : list element) j :
  (∀ e, P e → Q (f e)) →
  (∃ e, ns !! j = Some e ∧ P e) → ∃ e, alter f j ns !! j = Some e ∧ Q e.
Proof.
  intros Hf (e & He & HP). rewrite list_lookup_alter_eq, He. simpl. eauto.
Qed.

(** The ancestor chain and the classes seen by [closest] do not depend on
    attributes other than [parentElement] and [classList]. *)
Lemma inclusiveAncestors_alter f i ns fuel j :
  (∀ e, parentElement (f e) = parentElement e) →
  inclusiveAncestors fuel (alter f i ns) j = inclusiveAncestors fuel ns j.
Proof.
  intros Hf. revert j. induction fuel as [|fuel IH]; intros j; [done|].
  simpl.
  destruct (decide (i = j)) as [->|];
    [rewrite list_lookup_alter_eq | rewrite list_lookup_alter_ne by done];
    destruct (ns !! j) as [e|]; simpl; try done;
    rewrite ?Hf; destruct (parentElement e); by rewrite ?IH.
Qed.

Lemma has_class_alter f i ns c a :
  (∀ e, classList (f e) = classList e) →
  has_class (alter f i ns) c a = has_class ns c a.
Proof.
  intros Hf. unfold has_class.
  destruct (decide (i = a)) as [->|];
    [rewrite list_lookup_alter_eq | rewrite list_lookup_alter_ne by done];
    destruct (ns !! a); simpl; by rewrite ?Hf.
Qed.

Lemma find_ext_eq {A} (f g : A → bool) l :
  (∀ x, f x = g x) → List.find f l = List.find g l.
Proof. intros H. induction l as [|x l IH]; simpl; [done|]. by rewrite H, IH. Qed.

Lemma closest_alter f i ns j c :
  (∀ e, parentElement (f e) = parentElement e) →
  (∀ e, classList (f e) = classList e) →
  closest (alter f i ns) j c = closest ns j c.
Proof.
  intros Hp Hc. unfold closest.
  rewrite length_alter, inclusiveAncestors_alter by done.
  apply find_ext_eq. intros a. by apply has_class_alter.
Qed.

Lemma getContextualPlaceholder_alter f i ns j :
  (∀ e, parentElement (f e) = parentElement e) →
  (∀ e, classList (f e) = classList e) →
  getContextualPlaceholder (alter f i ns) j = getContextualPlaceholder ns j.
Proof.
  intros Hp Hc. unfold getContextualPlaceholder. by rewrite !closest_alter.
Qed.

Lemma closest_in_context ns img c :
  in_context ns img c = bool_decide (is_Some (closest ns img c)).
Proof.
  unfold in_context, closest.
  induction (inclusiveAncestors (length ns) ns img) as [|a l IH]; simpl; [done|].
  destruct (has_class ns c a); simpl; done.
Qed.

(** *** The error handler *)

Lemma handleImageError_ensure s img c s1 :
  ensureImageContainer img s = Ret c s1 → handleImageError img s = handleImageError img s1.
Proof.
  intros H. unfold handleImageError, bind. by rewrite H, (ensure_twice _ _ _ _ H).
Qed.

(** The branch taken when the retry budget is left: the counter is
    incremented and a retry is scheduled; the element stays in
    [loadingImages] and no node is touched. *)
Lemma handleImageError_retry s img c el :
  contained (nodes s) img c → nodes s !! img = Some el →
  retryCount s (originalSrc el) < maxRetries →
  handleImageError img s =
    Ret tt (with_log (λ l, l ++ [Schedule img (2 ^ retryCount s (originalSrc el) * 1000)])
           (with_timers (λ l, l ++ [TimerRetry img (2 ^ retryCount s (originalSrc el) * 1000)])
           (with_retryAttempts <[originalSrc el := retryCount s (originalSrc el) + 1]>
           (with_failedImages (λ f, {[originalSrc el]} ∪ f) s)))).
Proof.
  intros Hc Hel Hlt. unfold handleImageError, bind.
  rewrite (ensure_contained _ _ _ Hc), (getNode_Some _ _ _ Hel). simpl.
  change (retryCount (with_failedImages _ s) (originalSrc el))
    with (retryCount s (originalSrc el)).
  by rewrite bool_decide_eq_true_2.
Qed.

(** The branch taken when the budget is spent. *)
Lemma handleImageError_terminal s img c el :
  contained (nodes s) img c → nodes s !! img = Some el →
  ¬ (retryCount s (originalSrc el) < maxRetries) →
  ∃ s', handleImageError img s = Ret tt s' ∧
    (∃ el', nodes s' !! img = Some el' ∧
       src el' = getContextualPlaceholder (nodes s') img ∧
       alt el' = "Image temporarily unavailable" ∧
       "error" ∈ classList el' ∧ parentElement el' = Some c) ∧
    (∃ cel, nodes s' !! c = Some cel ∧ "error" ∈ classList cel) ∧
    (img ∉ loadingImages s') ∧
    retryAttempts s' = retryAttempts s ∧ timers s' = timers s ∧ probes s' = probes s.
Proof.
  intros Hc Hel Hge. unfold handleImageError, bind.
  rewrite (ensure_contained _ _ _ Hc), (getNode_Some _ _ _ Hel). simpl.
  change (retryCount (with_failedImages _ s) (originalSrc el))
    with (retryCount s (originalSrc el)).
  rewrite bool_decide_eq_false_2 by done. simpl.
  eexists. split; [reflexivity|]. simpl.
  destruct Hc as (el0 & cel & Hel0 & Hp & Hcel & _).
  assert (el0 = el) as -> by congruence.
  set (ns4 := alter (set_classList (class_add "error")) c _).
  split; [|split; [|split; [|done]]].
  - rewrite !getContextualPlaceholder_alter by done.
    apply (alter_lookup_est
             (λ e, src e = getContextualPlaceholder ns4 img ∧ "error" ∈ classList e ∧
                   parentElement e = Some c)); [by intros e (?&?&?)|].
    apply (alter_lookup_est (λ e, "error" ∈ classList e ∧ parentElement e = Some c));
      [by intros e (?&?)|].
    subst ns4.
    apply alter_lookup_pres; [intros e [? ?]; split; [by apply class_add_keeps|done]|].
    apply alter_lookup_pres;
      [intros e [? ?]; split; [by repeat apply class_remove_keeps|done]|].
    apply (alter_lookup_est (λ e, parentElement e = Some c));
      [intros e ?; split; [apply class_add_In|done]|].
    apply (alter_lookup_est (λ e, parentElement e = Some c)); [done|].
    eauto.
  - apply alter_lookup_pres; [done|]. apply alter_lookup_pres; [done|].
    subst ns4.
    apply (alter_lookup_est (λ _, True)); [intros; apply class_add_In|].
    apply (alter_lookup_pres (λ _, True)); [done|].
    apply (alter_lookup_pres (λ _, True)); [done|].
    apply (alter_lookup_pres (λ _, True)); [done|]. eauto.
  - apply not_elem_of_difference. right. by apply elem_of_singleton.
Qed.

(** ** Placeholder selection *)

(** C7, as stated, fails on nested contexts.  In [doc_nested] the image's
    innermost recognized container is the artwork card, so the
    specification's selection is the artwork placeholder; the code returns
    the collection placeholder, because it looks for a collection card at
    any depth first. *)
Lemma C7_counterexample_innermost :
  closest doc_nested 4 "artwork-card" = Some 3 ∧
  closest doc_nested 4 "collection-card" = Some 2 ∧
  innermost_placeholder doc_nested 4 = placeholder_artwork ∧
  getContextualPlaceholder doc_nested 4 = placeholder_collection ∧
  ¬ (∀ ns img, getContextualPlaceholder ns img = innermost_placeholder ns img) ∧
  ¬ (∀ ns img, in_context ns img "artwork-card" = true →
               getContextualPlaceholder ns img = placeholder_artwork).
Proof.
  repeat split; try (vm_compute; reflexivity).
  - intros H. specialize (H doc_nested 4). vm_compute in H. discriminate H.
  - intros H. specialize (H doc_nested 4 eq_refl). vm_compute in H. discriminate H.
Qed.

(** C7, amended.  The placeholder is a function of the classes found on
    the chain from the element upwards, by fixed priority: collection card
    at any depth, else artwork card at any depth, else about region, else
    generic.  When the retry budget of an attached element is spent, the
    error handler returns normally, assigns that placeholder, sets the
    alternative text, and puts the error class on the element and on its
    container. *)
Theorem C7_placeholder_by_fixed_priority :
  (∀ ns img,
     getContextualPlaceholder ns img =
       if in_context ns img "collection-card" then placeholder_collection
       else if in_context ns img "artwork-card" then placeholder_artwork
       else if in_context ns img "about" then placeholder_avatar
       else placeholder_generic) ∧
  (∀ s img el,
     nodes s !! img = Some el → attached (nodes s) img →
     ¬ (retryCount s (originalSrc el) < maxRetries) →
     ∃ s' el' c cel,
       handleImageError img s = Ret tt s' ∧
       nodes s' !! img = Some el' ∧
       src el' = getContextualPlaceholder (nodes s') img ∧
       alt el' = "Image temporarily unavailable" ∧
       "error" ∈ classList el' ∧
       parentElement el' = Some c ∧
       nodes s' !! c = Some cel ∧ "error" ∈ classList cel).
Proof.
  split.
  - intros ns img. unfold getContextualPlaceholder. rewrite !closest_in_context.
    destruct (closest ns img "collection-card"),
             (closest ns img "artwork-card"), (closest ns img "about"); reflexivity.
  - intros s img el Hel Hatt Hge.
    destruct (ensure_attached s img Hatt) as (c & ns' & Hens & Hc & Himg & _).
    rewrite (handleImageError_ensure _ _ _ _ Hens).
    destruct (handleImageError_terminal (with_nodes (λ _, ns') s) img c
                (set_parentElement (Some c) el) Hc (Himg _ Hel) Hge)
      as (s' & Hs' & (el' & ? & ? & ? & ? & ?) & (cel & ? & ?) & _).
    by exists s', el', c, cel.
Qed.

(** The nested image gets the collection placeholder, and the gallery
    slot with a spent budget is put in the error state. *)
Lemma C7_witness :
  getContextualPlaceholder doc_nested 4 = placeholder_collection ∧
  ∃ s' el' c cel,
    handleImageError 3 spent_gallery = Ret tt s' ∧
    nodes s' !! 3 = Some el' ∧
    src el' = getContextualPlaceholder (nodes s') 3 ∧
    alt el' = "Image temporarily unavailable" ∧
    "error" ∈ classList el' ∧
    parentElement el' = Some c ∧
    nodes s' !! c = Some cel ∧ "error" ∈ classList cel.
Proof.
  split.
  - rewrite (proj1 C7_placeholder_by_fixed_priority doc_nested 4). reflexivity.
  - eapply (proj2 C7_placeholder_by_fixed_priority spent_gallery 3).
    + vm_compute. reflexivity.
    + do 3 eexists. repeat split; vm_compute; reflexivity.
    + vm_compute. lia.
Defined.

(** ** One pass over the candidate list *)

Lemma run_cons_ret e es s s' : step e s = Ret tt s' → run (e :: es) s = run es s'.
Proof. intros H. simpl. rewrite H. simpl. by destruct (run es s'). Qed.

Lemma run_app es1 es2 s :
  run (es1 ++ es2) s =
    ((run es2 (run es1 s).1).1, (run es1 s).2 || (run es2 (run es1 s).1).2).
Proof.
  revert s. induction es1 as [|e es1 IH]; intros s; simpl.
  - by destruct (run es2 s).
  - rewrite IH. simpl. by rewrite orb_assoc.
Qed.

Lemma loadImageProgressive_start s img el u0 :
  nodes s !! img = Some el → attached (nodes s) img → img ∉ loadingImages s →
  candidates el !! 0 = Some u0 →
  ∃ c ns',
    loadImageProgressive img s =
      Ret tt (pass_state (with_nodes (λ _, ns') (with_loadingImages (λ l, {[img]} ∪ l) s))
                         img c (candidates el) 0 u0) ∧
    contained ns' img c ∧ ns' !! img = Some (set_parentElement (Some c) el).
Proof.
  intros Hel Hatt Hfree H0.
  destruct (ensure_attached (with_loadingImages (λ l, {[img]} ∪ l) s) img Hatt)
    as (c & ns' & Hens & Hc & Himg & _).
  exists c, ns'. split; [|split; [done|by apply Himg]].
  unfold loadImageProgressive, bind, gets.
  rewrite bool_decide_eq_false_2 by done. simpl.
  rewrite Hens. erewrite getNode_Some by (apply Himg, Hel).
  unfold tryLoadFormats. change (candidates (set_parentElement _ el)) with (candidates el).
  rewrite H0. unfold pass_state.
  destruct (candidates el) as [|u F]; [done|]. by injection H0 as ->.
Qed.

Lemma pass_error b img c F j u u' :
  F !! S j = Some u' →
  step (ProbeError (length (probes b))) (pass_state b img c F j u) =
    Ret tt (pass_state b img c F (S j) u').
Proof.
  intros Hnext. unfold step, bind, gets. simpl.
  rewrite list_lookup_middle by done. simpl.
  unfold tryLoadFormats. rewrite Nat.add_1_r, Hnext.
  unfold startProbe, emit, bind, modify, pass_state, with_log, with_probes. simpl.
  rewrite (delete_middle (probes b) []), app_nil_r.
  rewrite (take_S_r F (S j) u') by done.
  by rewrite fmap_app, app_assoc.
Qed.

Lemma pass_errors b img c F k u0 u :
  F !! 0 = Some u0 → F !! k = Some u →
  exec (replicate k (ProbeError (length (probes b)))) (pass_state b img c F 0 u0) =
    pass_state b img c F k u ∧
  (run (replicate k (ProbeError (length (probes b)))) (pass_state b img c F 0 u0)).2 = false.
Proof.
  intros H0. revert u. induction k as [|k IH]; intros u Hk.
  - assert (u = u0) as -> by congruence. done.
  - destruct (lookup_lt_is_Some_2 F k) as [uk Huk];
      [apply lookup_lt_Some in Hk; lia|].
    destruct (IH uk Huk) as [IH1 IH2].
    rewrite replicate_S_end. unfold exec in *.
    rewrite run_app, IH1, IH2.
    rewrite (run_cons_ret _ _ _ _ (pass_error b img c F k uk u Hk)). done.
Qed.

Lemma pass_load b img c F j u :
  is_Some (nodes b !! img) →
  ∃ s', step (ProbeLoad (length (probes b))) (pass_state b img c F j u) = Ret tt s' ∧
    log s' = log b ++ (Fetch <$> take (S j) F) ++ [SetSrc img u] ∧
    probes s' = probes b ∧
    src <$> nodes s' !! img = Some u ∧
    img ∈ loadedImages s' ∧ (img ∉ loadingImages s') ∧
    (∃ el', nodes s' !! img = Some el' ∧ "loaded" ∈ classList el') ∧
    retryAttempts s' = retryAttempts b.
Proof.
  intros [e He]. unfold step, bind, gets. simpl.
  rewrite list_lookup_middle by done. simpl.
  eexists. split; [reflexivity|]. simpl.
  rewrite (delete_middle (probes b) []), app_nil_r, <- app_assoc.
  repeat split; try done.
  - cut (∃ e', alter (set_classList (class_add "loaded")) c
                 (alter (set_classList (λ l, class_remove "image-loading"
                                               (class_remove "loading" l))) c
                 (alter (set_classList (class_add "loaded")) img
                 (alter (set_classList (class_remove "loading")) img
                 (alter (set_src u) img (nodes b))))) !! img = Some e' ∧ src e' = u).
    { intros (e' & -> & <-). done. }
    do 4 (apply alter_lookup_pres; [done|]).
    apply (alter_lookup_est (λ _, True)); [done|]. eauto.
  - apply elem_of_union. left. by apply elem_of_singleton.
  - apply not_elem_of_difference. right. by apply elem_of_singleton.
  - do 2 (apply alter_lookup_pres;
            [intros; by repeat first [apply class_add_keeps | apply class_remove_keeps]|]).
    apply (alter_lookup_est (λ _, True)); [intros; apply class_add_In|].
    do 2 (apply (alter_lookup_pres (λ _, True)); [done|]). eauto.
Qed.

(** C2. Take any state, and any attached element that is not already
    loading, whose candidate list has a [k]-th entry [u].  When the
    environment lets the first [k] probes of the pass fail and the next one
    decode, no callback throws; the candidates requested are exactly
    [candidates[0..k]], in list order, each on a detached probe; [u] is
    then written to the live element, which enters [loadedImages] and
    leaves [loadingImages]; and no probe of this pass is left pending, so
    nothing after [u] is tried.  The list is [webp, jpg, fallback,
    data-src, src] with the unset entries dropped, whatever its length. *)
Theorem C2_first_decodable_candidate_wins
    (s : loader) (img : nat) (el : element) (k : nat) (u : string) :
  nodes s !! img = Some el → attached (nodes s) img → img ∉ loadingImages s →
  candidates el !! k = Some u →
  let n := length (probes s) in
  let r := run (LoadImage img :: replicate k (ProbeError n) ++ [ProbeLoad n]) s in
  r.2 = false ∧
  log r.1 = log s ++ (Fetch <$> take (S k) (candidates el)) ++ [SetSrc img u] ∧
  probes r.1 = probes s ∧
  src <$> nodes r.1 !! img = Some u ∧
  img ∈ loadedImages r.1 ∧ (img ∉ loadingImages r.1) ∧
  candidates el =
    omap truthy [dataset el !! "webp"; dataset el !! "jpg"; dataset el !! "fallback";
                 dataset el !! "src"; Some (src el)].
Proof.
  intros Hel Hatt Hfree Hk n r.
  destruct (lookup_lt_is_Some_2 (candidates el) 0) as [u0 H0];
    [apply lookup_lt_Some in Hk; lia|].
  destruct (loadImageProgressive_start s img el u0 Hel Hatt Hfree H0)
    as (c & ns' & Hstart & Hc & Himg).
  set (b := with_nodes (λ _, ns') (with_loadingImages (λ l, {[img]} ∪ l) s)) in *.
  destruct (pass_errors b img c (candidates el) k u0 u H0 Hk) as [Hex Hno].
  destruct (pass_load b img c (candidates el) k u) as (s' & Hload & Hlog & Hp & Hsrc & Hin & Hout & _);
    [unfold b; simpl; rewrite Himg; eauto|].
  assert (Hr : r = (s', false)).
  { subst r n. rewrite (run_cons_ret (LoadImage img) _ s _ Hstart).
    change (length (probes s)) with (length (probes b)).
    rewrite run_app. unfold exec in Hex. rewrite Hex, Hno.
    by rewrite (run_cons_ret _ _ _ _ Hload). }
  rewrite Hr. simpl. repeat split; done.
Qed.

(** The gallery slot when the two raster formats are missing and the
    vector fallback decodes. *)
Lemma C2_witness :
  let r := run [LoadImage 3; ProbeError 0; ProbeError 0; ProbeLoad 0]
               (new_loader doc_gallery) in
  r.2 = false ∧
  log r.1 = [Fetch "art.webp"; Fetch "art.jpg"; Fetch "art.svg"; SetSrc 3 "art.svg"] ∧
  probes r.1 = [] ∧
  src <$> nodes r.1 !! 3 = Some "art.svg" ∧
  3 ∈ loadedImages r.1 ∧ (3 ∉ loadingImages r.1).
Proof.
  destruct (C2_first_decodable_candidate_wins (new_loader doc_gallery) 3
              (img 2 legacy_url [("webp", "art.webp"); ("jpg", "art.jpg");
                                 ("fallback", "art.svg")]) 2 "art.svg")
    as (H1 & H2 & H3 & H4 & H5 & H6 & _).
  - reflexivity.
  - do 3 eexists. repeat split; reflexivity.
  - vm_compute. intros H. discriminate H.
  - vm_compute. reflexivity.
  - repeat split; assumption.
Defined.

(** ** What a step may do to the nodes *)

Section NodesRel.
Context (Q : nat → element → element → Prop).
Context (Q_refl : ∀ i e, Q i e e).
Context (Q_trans : ∀ i e1 e2 e3, Q i e1 e2 → Q i e2 e3 → Q i e1 e3).

Global Instance nodes_rel_preorder_gen : PreOrder (nodes_rel Q) | 100.
Proof using Q_refl Q_trans.
  split.
  - intros s i el H. eauto.
  - intros a b c Hab Hbc i el H.
    destruct (Hab i el H) as (el' & H' & HQ).
    destruct (Hbc i el' H') as (el'' & H'' & HQ'). eauto.
Qed.

Lemma nodes_rel_same s s' : nodes s' = nodes s → nodes_rel Q s s'.
Proof using Q_refl. intros Heq i el H. rewrite Heq. eauto. Qed.

Lemma nodes_rel_alter g j s :
  (∀ e, Q j e (g e)) → nodes_rel Q s (with_nodes (alter g j) s).
Proof using Q_refl.
  intros Hg i el H. simpl.
  destruct (decide (j = i)) as [->|];
    [rewrite list_lookup_alter_eq | rewrite list_lookup_alter_ne by done];
    rewrite H; simpl; eauto.
Qed.

Lemma nodes_rel_app l s : nodes_rel Q s (with_nodes (λ ns, ns ++ l) s).
Proof using Q_refl.
  intros i el H. simpl. rewrite lookup_app_l by (by eapply lookup_lt_Some). eauto.
Qed.

End NodesRel.

Global Instance marks_kept_preorder : PreOrder (nodes_rel marks_kept).
Proof.
  apply nodes_rel_preorder_gen.
  - by intros i e.
  - intros i e1 e2 e3 [? ?] [? ?]. split; auto.
Qed.

Global Instance loaded_kept_preorder : PreOrder loaded_kept.
Proof.
  split; unfold loaded_kept.
  - intros s. reflexivity.
  - intros a b c Hab Hbc. by etransitivity.
Qed.

Global Instance src_written_preorder commit : PreOrder (nodes_rel (src_written commit)).
Proof.
  apply nodes_rel_preorder_gen.
  - intros i e. by left.
  - intros i e1 e2 e3 H12 H23. unfold src_written in *.
    destruct H23 as [H23|[H23|H23]]; [|by right; left|by right; right].
    rewrite H23. exact H12.
Qed.

(** The primitive updates of a method, for a relation on nodes. *)
Ltac nodes_leaf refl solveQ :=
  apply respects_modify; intros ?; first
    [ apply nodes_rel_alter; [refl | intros ?; solveQ]
    | apply nodes_rel_app; refl
    | apply nodes_rel_same; [refl | reflexivity] ].

Lemma marks_kept_refl i e : marks_kept i e e.
Proof. by split. Qed.

Ltac marks_solve :=
  split; simpl; intros;
    repeat first [apply class_add_keeps | apply class_remove_keeps; [done|]]; done.

Lemma step_marks_kept e : respects (nodes_rel marks_kept) (step e).
Proof.
  destruct e; simpl; unfold_methods; unfold handleImageError;
    unfold ensureImageContainer, updNode, emit, setTimeout;
    respects_with ltac:(nodes_leaf ltac:(apply marks_kept_refl) marks_solve).
Qed.

Lemma step_loaded_kept e : respects loaded_kept (step e).
Proof.
  destruct e; simpl; unfold_methods; unfold handleImageError;
    unfold ensureImageContainer, updNode, emit, setTimeout;
    respects_with ltac:(apply respects_modify; intros ?; unfold loaded_kept; simpl;
                        first [reflexivity | apply union_subseteq_r]).
Qed.

(** ** Success, and what follows it *)

Lemma probe_load_commits s i img c F j u :
  probes s !! i = Some (ProbeFormats img c F j u) → is_Some (nodes s !! img) →
  ∃ s', step (ProbeLoad i) s = Ret tt s' ∧
    log s' = log s ++ [SetSrc img u] ∧
    src <$> nodes s' !! img = Some u ∧
    img ∈ loadedImages s' ∧ (img ∉ loadingImages s') ∧
    probes s' = delete i (probes s).
Proof.
  intros Hp [e He]. unfold step, bind, gets. rewrite Hp. simpl.
  eexists. split; [reflexivity|]. simpl. repeat split; try done.
  - cut (∃ e', alter (set_classList (class_add "loaded")) c
                 (alter (set_classList (λ l, class_remove "image-loading"
                                               (class_remove "loading" l))) c
                 (alter (set_classList (class_add "loaded")) img
                 (alter (set_classList (class_remove "loading")) img
                 (alter (set_src u) img (nodes s))))) !! img = Some e' ∧ src e' = u).
    { intros (e' & -> & <-). done. }
    do 4 (apply alter_lookup_pres; [done|]).
    apply (alter_lookup_est (λ _, True)); [done|]. eauto.
  - apply elem_of_union. left. by apply elem_of_singleton.
  - apply not_elem_of_difference. right. by apply elem_of_singleton.
Qed.

(** C4, as stated, fails: a load request on a slot that has loaded is not
    a no-op.  On the loaded gallery slot it puts the element back into
    [loadingImages] and starts a probe, and when the environment then lets
    the preferred format fail and the compatible one decode, a second
    source is written to the live element.  Nor is the error state final:
    a load request on the failed slot can decode, leaving the element both
    marked as loaded and carrying the error class. *)
Lemma C4_counterexample_reload :
  is_loaded loaded_gallery 3 = true ∧
  step (LoadImage 3) loaded_gallery ≠ Ret tt loaded_gallery ∧
  3 ∈ loadingImages (exec [LoadImage 3] loaded_gallery) ∧
  log (exec [LoadImage 3; ProbeError 0; ProbeLoad 0] loaded_gallery) =
    [Fetch "art.webp"; SetSrc 3 "art.webp";
     Fetch "art.webp"; Fetch "art.jpg"; SetSrc 3 "art.jpg"] ∧
  is_error_terminal failed_gallery 3 = true ∧
  (let s := exec [LoadImage 3; ProbeLoad 0] failed_gallery in
   is_loaded s 3 = true ∧ is_error_terminal s 3 = true ∧
   src <$> nodes s !! 3 = Some "art.webp").
Proof.
  repeat split; try (vm_compute; reflexivity).
  intros H. apply (f_equal (λ o, length (log (final o)))) in H.
  vm_compute in H. discriminate H.
Qed.

(** C4, amended.  A probe of the format cascade that decodes writes its
    own candidate to the live element, once, and moves the element from
    [loadingImages] to [loadedImages].  No step removes an element from
    [loadedImages], nor the [loaded] or [error] class from a node.  A load
    request is a no-op while the element is in [loadingImages]; on an
    attached element that is not, loaded or not, it starts a new pass. *)
Theorem C4_commit_once_marks_kept :
  (∀ s i img c F j u,
     probes s !! i = Some (ProbeFormats img c F j u) → is_Some (nodes s !! img) →
     ∃ s', step (ProbeLoad i) s = Ret tt s' ∧
       log s' = log s ++ [SetSrc img u] ∧
       src <$> nodes s' !! img = Some u ∧
       img ∈ loadedImages s' ∧ (img ∉ loadingImages s') ∧
       probes s' = delete i (probes s)) ∧
  (∀ e s img, img ∈ loadedImages s → img ∈ loadedImages (final (step e s))) ∧
  (∀ e s i el, nodes s !! i = Some el →
     ∃ el', nodes (final (step e s)) !! i = Some el' ∧
       ("loaded" ∈ classList el → "loaded" ∈ classList el') ∧
       ("error" ∈ classList el → "error" ∈ classList el')) ∧
  (∀ s img, img ∈ loadingImages s → step (LoadImage img) s = Ret tt s) ∧
  (∀ s img el u0,
     nodes s !! img = Some el → attached (nodes s) img → img ∉ loadingImages s →
     candidates el !! 0 = Some u0 →
     ∃ s', step (LoadImage img) s = Ret tt s' ∧
       img ∈ loadingImages s' ∧ log s' = log s ++ [Fetch u0] ∧
       length (probes s') = S (length (probes s))).
Proof.
  split; [exact probe_load_commits|]. split; [|split; [|split]].
  - intros e s i Hin. by apply (step_loaded_kept e s).
  - intros e s i el Hel. apply (step_marks_kept e s i el Hel).
  - intros s i Hin. by apply loadImageProgressive_busy.
  - intros s i el u0 Hel Hatt Hfree H0.
    destruct (loadImageProgressive_start s i el u0 Hel Hatt Hfree H0)
      as (c & ns' & Hstart & _).
    eexists. split; [exact Hstart|]. simpl. split; [|split].
    + apply elem_of_union. left. by apply elem_of_singleton.
    + destruct (candidates el); [done|]. by injection H0 as ->.
    + rewrite length_app. simpl. lia.
Qed.

(** The five parts on the gallery slot: while loading, once loaded, and
    once failed. *)
Lemma C4_witness :
  (∃ s', step (ProbeLoad 0) loading_gallery = Ret tt s' ∧
     log s' = log loading_gallery ++ [SetSrc 3 "art.webp"] ∧
     src <$> nodes s' !! 3 = Some "art.webp" ∧
     3 ∈ loadedImages s' ∧ (3 ∉ loadingImages s') ∧
     probes s' = delete 0 (probes loading_gallery)) ∧
  3 ∈ loadedImages (final (step (LoadImage 3) loaded_gallery)) ∧
  (∃ el', nodes (final (step (LoadImage 3) failed_gallery)) !! 3 = Some el' ∧
     "error" ∈ classList el') ∧
  step (LoadImage 3) loading_gallery = Ret tt loading_gallery ∧
  (∃ s', step (LoadImage 3) loaded_gallery = Ret tt s' ∧
     3 ∈ loadingImages s' ∧ log s' = log loaded_gallery ++ [Fetch "art.webp"] ∧
     length (probes s') = S (length (probes loaded_gallery))).
Proof.
  destruct C4_commit_once_marks_kept as (H1 & H2 & H3 & H4 & H5).
  split; [|split; [|split; [|split]]].
  - eapply (H1 loading_gallery 0 3); [vm_compute; reflexivity|].
    vm_compute. eauto.
  - apply (H2 (LoadImage 3) loaded_gallery 3). vm_compute. reflexivity.
  - destruct (H3 (LoadImage 3) failed_gallery 3
                (Element "IMG" ["error"] (Some 4) placeholder_artwork
                   "Image temporarily unavailable" false
                   (list_to_map [("webp", "art.webp"); ("jpg", "art.jpg");
                                 ("fallback", "art.svg")])))
      as (el' & Hel' & _ & Herr); [vm_compute; reflexivity|].
    exists el'. split; [exact Hel'|]. apply Herr. simpl.
    apply list_elem_of_singleton. reflexivity.
  - apply (H4 loading_gallery 3). vm_compute. reflexivity.
  - eapply (H5 loaded_gallery 3).
    + vm_compute. reflexivity.
    + do 3 eexists. repeat split; vm_compute; reflexivity.
    + vm_compute. intros H. discriminate H.
    + vm_compute. reflexivity.
Defined.

(** ** Writes to the live [src] *)

Lemma getContextualPlaceholder_is_placeholder ns img :
  is_placeholder (getContextualPlaceholder ns img) = true.
Proof.
  unfold getContextualPlaceholder.
  destruct (closest ns img "collection-card"), (closest ns img "artwork-card"),
           (closest ns img "about"); reflexivity.
Qed.

Lemma src_written_refl commit i e : src_written commit i e e.
Proof. by left. Qed.

Ltac src_solve :=
  first [ left; reflexivity
        | right; left; assumption
        | right; right; reflexivity ].

(** The read of the placeholder in [handleImageError], with the fact that
    what is read is a placeholder. *)
Ltac placeholder_read :=
  match goal with
  | |- respects ?R (bind (gets (λ s, getContextualPlaceholder (nodes s) _)) _) =>
      apply (respects_bind_post R (λ u, is_placeholder u = true));
        [ intros ? ? ? [= <- _]; apply getContextualPlaceholder_is_placeholder
        | apply respects_gets; typeclasses eauto
        | intros ? ? ]
  end.

Lemma handleImageError_src commit img :
  respects (nodes_rel (src_written commit)) (handleImageError img).
Proof.
  unfold handleImageError, ensureImageContainer, updNode, emit, setTimeout.
  respects_with ltac:(first
    [ placeholder_read | nodes_leaf ltac:(apply src_written_refl) src_solve ]).
Qed.

Lemma step_src_other e :
  (∀ j, e ≠ ProbeLoad j) → respects (nodes_rel (src_written None)) (step e).
Proof.
  intros Hne. destruct e; try (by destruct (Hne i));
    simpl; unfold_methods;
    respects_with ltac:(first
      [ apply handleImageError_src
      | nodes_leaf ltac:(apply src_written_refl) src_solve ]).
Qed.

Lemma probe_onload_src p :
  respects (nodes_rel (src_written (Some (probe_img p, probe_url p)))) (probe_onload p).
Proof.
  destruct p; simpl; unfold_methods;
    respects_with ltac:(nodes_leaf ltac:(apply src_written_refl) src_solve).
Qed.

(** C6. Across any single step of the loader, from any state, the [src]
    of every node is either unchanged, or one of the four placeholder
    URIs, or -- only when the step is the [onload] of a pending probe and
    the node is the element that probe stands in for -- the URL that this
    probe has just decoded.  Candidates are requested on probes only; a
    probe that fails, a retry, or a load request never writes to [src]. *)
Theorem C6_src_only_decoded_or_placeholder
    (e : event) (s : loader) (i : nat) (el : element) :
  nodes s !! i = Some el →
  ∃ el', nodes (final (step e s)) !! i = Some el' ∧
    (src el' = src el ∨
     is_placeholder (src el') = true ∨
     ∃ j p, e = ProbeLoad j ∧ probes s !! j = Some p ∧
            probe_img p = i ∧ probe_url p = src el').
Proof.
  intros Hel.
  assert (Hcases : (∃ j, e = ProbeLoad j) ∨ (∀ j, e ≠ ProbeLoad j))
    by (destruct e; eauto; right; intros; discriminate).
  destruct Hcases as [[j ->]|Hne].
  - unfold step, bind, gets.
    destruct (probes s !! j) as [p|] eqn:Hp; simpl; [|eauto].
    destruct (probe_onload_src p (with_probes (delete j) s) i el Hel)
      as (el' & Hel' & [H|[H|H]]); exists el'; (split; [exact Hel'|]); auto.
    right. right. exists j, p. by injection H as -> ->.
  - destruct (step_src_other e Hne s i el Hel)
      as (el' & Hel' & [H|[H|H]]); exists el'; (split; [exact Hel'|]); auto.
    discriminate H.
Qed.

Lemma C6_witness :
  ∃ el', nodes (final (step (ProbeLoad 0) loading_gallery)) !! 3 = Some el' ∧
    (src el' = legacy_url ∨
     is_placeholder (src el') = true ∨
     ∃ j p, ProbeLoad 0 = ProbeLoad j ∧ probes loading_gallery !! j = Some p ∧
            probe_img p = 3 ∧ probe_url p = src el').
Proof.
  apply (C6_src_only_decoded_or_placeholder (ProbeLoad 0) loading_gallery 3
           (Element "IMG" [] (Some 4) legacy_url "" false
              (list_to_map [("webp", "art.webp"); ("jpg", "art.jpg");
                            ("fallback", "art.svg")]))).
  vm_compute. reflexivity.
Defined.

(** ** Slots that share a source *)

Lemma handleImageError_frame s img c el :
  contained (nodes s) img c → nodes s !! img = Some el →
  ∃ s', handleImageError img s = Ret tt s' ∧
    (∀ key, key ≠ originalSrc el → retryCount s' key = retryCount s key) ∧
    (retryCount s (originalSrc el) < maxRetries →
     retryCount s' (originalSrc el) = retryCount s (originalSrc el) + 1) ∧
    (∀ j, j ≠ img → j ≠ c → nodes s' !! j = nodes s !! j) ∧
    (∀ j, j ≠ img → j ∈ loadingImages s' ↔ j ∈ loadingImages s) ∧
    loadedImages s' = loadedImages s ∧ probes s' = probes s.
Proof.
  intros Hc Hel.
  destruct (decide (retryCount s (originalSrc el) < maxRetries)) as [Hlt|Hge].
  - rewrite (handleImageError_retry s img c el Hc Hel Hlt).
    eexists. split; [reflexivity|]. repeat split; try done.
    + intros key Hkey. unfold retryCount. simpl. by rewrite lookup_insert_ne.
    + intros _. unfold retryCount. simpl. by rewrite lookup_insert_eq.
  - unfold handleImageError, bind.
    rewrite (ensure_contained _ _ _ Hc), (getNode_Some _ _ _ Hel). simpl.
    change (retryCount (with_failedImages _ s) (originalSrc el))
      with (retryCount s (originalSrc el)).
    rewrite bool_decide_eq_false_2 by done. simpl.
    eexists. split; [reflexivity|]. simpl. repeat split; try done.
    + intros j Hj Hjc. by rewrite !list_lookup_alter_ne.
    + rewrite elem_of_difference. tauto.
    + intros Hin. apply elem_of_difference. split; [done|].
      by rewrite elem_of_singleton.
Qed.

(** C5, as stated, fails for elements that share a source.  In [doc_pair]
    the two images sit in different cards and have the same source.
    Alone, the second image's first failed pass schedules a retry after
    1000 ms; after one failed pass of the first image the same pass
    schedules it after 2000 ms; and after three error events on the first
    image it schedules nothing and goes straight to the error state. *)
Lemma C5_counterexample_shared_counter :
  let alone := exec [LoadImage 5; ProbeError 0] (new_loader doc_pair) in
  let after_one := exec [LoadImage 4; ProbeError 0; LoadImage 5; ProbeError 0]
                        (new_loader doc_pair) in
  let after_three := exec [ImgError 4; ImgError 4; ImgError 4; LoadImage 5; ProbeError 0]
                          (new_loader doc_pair) in
  originalSrc (img 2 legacy_url []) = originalSrc (img 3 legacy_url []) ∧
  timers alone = [TimerRetry 5 1000] ∧
  filter (λ t, t ≠ TimerRetry 4 1000) (timers after_one) = [TimerRetry 5 2000] ∧
  is_error_terminal alone 5 = false ∧
  is_error_terminal after_three 5 = true ∧
  filter (λ e, e = Schedule 5 1000) (log after_three) = [].
Proof. repeat split; vm_compute; reflexivity. Qed.

(** C5, amended.  Retry accounting is per original source reference.
    Handling the failure of an attached element returns normally and
    leaves untouched the retry counter of every other reference, every
    node other than the element and its container, the membership of
    every other element in [loadingImages], the set [loadedImages] and the
    pending probes; the counter of the element's own reference, shared
    with every element of the same source, goes up by one while the budget
    lasts. *)
Theorem C5_retry_accounting_per_reference (s : loader) (img : nat) (el : element) :
  nodes s !! img = Some el → attached (nodes s) img →
  ∃ s', handleImageError img s = Ret tt s' ∧
    (∀ key, key ≠ originalSrc el → retryCount s' key = retryCount s key) ∧
    (retryCount s (originalSrc el) < maxRetries →
     retryCount s' (originalSrc el) = retryCount s (originalSrc el) + 1) ∧
    (∀ j e, j ≠ img → parentElement el ≠ Some j →
            nodes s !! j = Some e → nodes s' !! j = Some e) ∧
    (∀ j, j ≠ img → j ∈ loadingImages s' ↔ j ∈ loadingImages s) ∧
    loadedImages s' = loadedImages s ∧ probes s' = probes s.
Proof.
  intros Hel Hatt.
  destruct (ensure_attached s img Hatt) as (c & ns' & Hens & Hc & Himg & Hother & Horigin).
  rewrite (handleImageError_ensure _ _ _ _ Hens).
  destruct (handleImageError_frame (with_nodes (λ _, ns') s) img c
              (set_parentElement (Some c) el) Hc (Himg _ Hel))
    as (s' & Hs' & Hkeys & Hkey & Hnodes & Hloading & Hloaded & Hprobes).
  exists s'. split; [exact Hs'|]. repeat split; try done.
  - intros j e Hj Hpar He.
    pose proof (lookup_lt_Some _ _ _ He) as Hlt.
    rewrite Hnodes; [simpl; by rewrite Hother| done |].
    destruct (Horigin el Hel) as [Hp| ->]; [congruence|lia].
  - by apply Hloading.
  - by apply Hloading.
Qed.

(** The first image of [doc_pair] fails once in a fresh loader. *)
Lemma C5_witness :
  ∃ s', handleImageError 4 (new_loader doc_pair) = Ret tt s' ∧
    (∀ key, key ≠ legacy_url → retryCount s' key = 0) ∧
    retryCount s' legacy_url = 1 ∧
    nodes s' !! 5 = Some (img 3 legacy_url []) ∧
    loadedImages s' = ∅ ∧ probes s' = [].
Proof.
  destruct (C5_retry_accounting_per_reference (new_loader doc_pair) 4
              (img 2 legacy_url []))
    as (s' & Hs' & Hkeys & Hkey & Hnodes & _ & Hloaded & Hprobes).
  - reflexivity.
  - do 3 eexists. repeat split; reflexivity.
  - exists s'. split; [exact Hs'|]. split; [|split; [|split; [|split]]].
    + intros key Hne. rewrite (Hkeys key); [reflexivity|exact Hne].
    + apply Hkey. vm_compute. lia.
    + apply Hnodes; [lia | discriminate | reflexivity].
    + exact Hloaded.
    + exact Hprobes.
Defined.

(** ** The lazy visibility detector *)

Global Instance lazy_kept_preorder : PreOrder lazy_kept.
Proof.
  split; unfold lazy_kept.
  - by intros s.
  - intros a b c [H1 H2] [H3 H4]. split; [congruence|].
    intros i. by rewrite H4, H2.
Qed.

Lemma triggers_snoc img l e :
  triggers img (l ++ [e]) =
  triggers img l + (if bool_decide (e = LazyTrigger img) then 1 else 0).
Proof.
  unfold triggers. rewrite filter_app, length_app. f_equal.
  rewrite filter_cons, filter_nil. case_decide.
  - by rewrite bool_decide_eq_true_2.
  - by rewrite bool_decide_eq_false_2.
Qed.

(** An update that leaves the registrations alone and logs nothing, or
    logs something other than a trigger. *)
Ltac lazy_leaf :=
  apply respects_modify; intros ?; split; simpl; [reflexivity|]; intros ?;
    first [ reflexivity
          | rewrite triggers_snoc, bool_decide_eq_false_2 by discriminate; lia ].

Lemma handleImageError_lazy_kept img : respects lazy_kept (handleImageError img).
Proof.
  unfold handleImageError, ensureImageContainer, updNode, emit, setTimeout.
  respects_with lazy_leaf.
Qed.

Lemma loadImageProgressive_lazy_kept img : respects lazy_kept (loadImageProgressive img).
Proof.
  unfold_methods.
  respects_with ltac:(first [apply handleImageError_lazy_kept | lazy_leaf]).
Qed.

Lemma step_lazy_kept e :
  (∀ entries, e ≠ Intersect entries) → respects lazy_kept (step e).
Proof.
  intros Hne. destruct e; try (by destruct (Hne entries));
    simpl; unfold_methods;
    respects_with ltac:(first [apply handleImageError_lazy_kept | lazy_leaf]).
Qed.

Lemma ensure_ret s img c s1 :
  ensureImageContainer img s = Ret c s1 →
  contained (nodes s1) img c ∧ ∃ ns', s1 = with_nodes (λ _, ns') s.
Proof.
  intros H. split; [|revert H].
  - pose proof (ensure_twice _ _ _ _ H) as H2. revert H.
    unfold ensureImageContainer, bind, getNode.
    destruct (nodes s !! img) as [el|] eqn:Hel; [|done].
    destruct (parentElement el) as [p|] eqn:Hp; [|done].
    destruct (nodes s !! p) as [pel|] eqn:Hpel; [|done].
    destruct (class_contains "image-container" (classList pel)) eqn:Hcls.
    + intros [= <- <-]. exists el, pel; repeat split; assumption.
    + intros [= <- <-]. simpl.
      pose proof (lookup_lt_Some _ _ _ Hel) as Hlt.
      exists (set_parentElement (Some (length (nodes s))) el), (new_container p).
      rewrite list_lookup_alter_eq, lookup_app_l, Hel by done.
      rewrite list_lookup_alter_ne by lia.
      rewrite lookup_app_r, Nat.sub_diag by done. done.
  - unfold ensureImageContainer, bind, getNode.
    destruct (nodes s !! img) as [el|] eqn:Hel; [|done].
    destruct (parentElement el) as [p|] eqn:Hp; [|done].
    destruct (nodes s !! p) as [pel|] eqn:Hpel; [|done].
    destruct (class_contains "image-container" (classList pel)) eqn:Hcls.
    + intros [= <- <-]. exists (nodes s). by rewrite with_nodes_id.
    + intros [= <- <-]. eexists. by destruct s.
Qed.

Lemma ensure_throw s img s' : ensureImageContainer img s = Throw s' → s' = s.
Proof.
  unfold ensureImageContainer, bind, getNode, throw.
  destruct (nodes s !! img) as [el|]; [|by intros [= <-]].
  destruct (parentElement el) as [p|]; [|by intros [= <-]].
  destruct (nodes s !! p) as [pel|]; [|by intros [= <-]].
  by destruct (class_contains "image-container" (classList pel)).
Qed.

Lemma contained_class_add ns img c j x :
  contained ns img c → contained (alter (set_classList (class_add x)) j ns) img c.
Proof.
  intros (el & cel & Hel & Hp & Hcel & Hcls).
  destruct (alter_lookup_pres (λ e, parentElement e = Some c)
              (set_classList (class_add x)) j ns img) as (el' & Hel' & Hp');
    [done|eauto|].
  destruct (alter_lookup_pres
              (λ e, class_contains "image-container" (classList e) = true)
              (set_classList (class_add x)) j ns c) as (cel' & Hcel' & Hcls');
    [|eauto|].
  { intros e He. simpl. apply bool_decide_eq_true.
    apply class_add_keeps. by apply bool_decide_eq_true in He. }
  exists el', cel'. repeat split; assumption.
Qed.

(** A load request on a contained element returns. *)
Lemma loadImageProgressive_returns s img c :
  contained (nodes s) img c → ∃ s', loadImageProgressive img s = Ret tt s'.
Proof.
  intros Hc. unfold loadImageProgressive, bind, gets.
  destruct (bool_decide (img ∈ loadingImages s)); [eauto|]. simpl.
  rewrite (ensure_contained (with_loadingImages _ s) img c Hc).
  destruct Hc as (el & cel & Hel & Hrest).
  rewrite (getNode_Some (with_loadingImages _ s) img el Hel).
  unfold tryLoadFormats. destruct (candidates el !! 0); [eauto|].
  destruct (handleImageError_frame (with_loadingImages (λ l, {[img]} ∪ l) s) img c el)
    as (s' & Hs' & _); [by exists el, cel|done|eauto].
Qed.

(** What the callback does with an intersecting entry: it throws before
    any update when the target is detached, and otherwise logs one
    trigger for the target and deregisters it. *)
Lemma onIntersection_true s img :
  onIntersection (img, true) s = Throw s ∨
  ∃ s', onIntersection (img, true) s = Ret tt s' ∧
    observed s' = observed s ∖ {[img]} ∧
    ∀ j, triggers j (log s') =
         triggers j (log s) + (if bool_decide (j = img) then 1 else 0).
Proof.
  unfold onIntersection. simpl.
  destruct (ensureImageContainer img s) as [c s1|s1] eqn:Hens.
  - right. destruct (ensure_ret _ _ _ _ Hens) as [Hc [ns' ->]].
    unfold bind at 1. rewrite Hens.
    unfold updNode, emit. rewrite !bind_modify.
    set (s2 := with_log _ _).
    assert (Hc2 : contained (nodes s2) img c) by (by apply contained_class_add).
    destruct (loadImageProgressive_returns s2 img c Hc2) as (s3 & Hs3).
    pose proof (loadImageProgressive_lazy_kept img s2) as [Hobs Htrig].
    unfold bind. rewrite Hs3 in *. simpl in *.
    eexists. split; [reflexivity|]. simpl. split; [by rewrite Hobs|].
    intros j. rewrite Htrig, triggers_snoc. f_equal.
    destruct (decide (j = img)) as [->|Hne].
    + by rewrite !bool_decide_eq_true_2.
    + rewrite !bool_decide_eq_false_2; [done|done|congruence].
  - left. unfold bind at 1. by rewrite Hens, (ensure_throw _ _ _ Hens).
Qed.

Lemma potential_after_entry img t s s' :
  t ∈ observed s →
  observed s' = observed s ∖ {[t]} →
  (∀ j, triggers j (log s') =
        triggers j (log s) + (if bool_decide (j = t) then 1 else 0)) →
  trigger_potential img s' = trigger_potential img s.
Proof.
  intros Hin Hobs Htrig. unfold trigger_potential. rewrite Htrig, Hobs.
  destruct (decide (img = t)) as [->|Hne].
  - rewrite bool_decide_eq_true_2 by done.
    rewrite (bool_decide_eq_false_2 (t ∈ observed s ∖ {[t]})).
    + rewrite (bool_decide_eq_true_2 (t ∈ observed s)) by done. lia.
    + apply not_elem_of_difference. right. by apply elem_of_singleton.
  - rewrite (bool_decide_eq_false_2 (img = t)) by done.
    rewrite (bool_decide_ext (img ∈ observed s ∖ {[t]}) (img ∈ observed s)); [lia|].
    rewrite elem_of_difference, elem_of_singleton. tauto.
Qed.

(** A notification that respects the browser's contract does not raise
    the potential of any element. *)
Lemma batch_potential img entries s :
  valid_batch s entries →
  (trigger_potential img (final (intersectionCallback entries s))
   ≤ trigger_potential img s)%nat.
Proof.
  unfold intersectionCallback. revert s.
  induction entries as [|[t b] entries IH]; intros s [Hnd Hobs]; [done|].
  apply NoDup_cons in Hnd as [Hnotin Hnd]. simpl forEach.
  assert (Ht : t ∈ observed s) by (apply (Hobs (t, b)); by left).
  destruct b.
  - destruct (onIntersection_true s t) as [Hthrow|(s' & Hret & Hobs' & Htrig)];
      unfold bind.
    + by rewrite Hthrow.
    + rewrite Hret. rewrite <- (potential_after_entry img t s s' Ht Hobs' Htrig).
      apply IH. split; [done|]. intros e He. rewrite Hobs'.
      apply elem_of_difference. split; [apply Hobs; by right|].
      rewrite elem_of_singleton. intros Heq. apply Hnotin.
      rewrite <- Heq. apply list_elem_of_fmap. by exists e.
  - unfold bind. simpl. apply IH. split; [done|].
    intros e He. apply Hobs. by right.
Qed.

(** A notification in which the element is not reported as intersecting
    starts no load for it. *)
Lemma batch_unreported img entries s :
  (img, true) ∉ entries →
  triggers img (log (final (intersectionCallback entries s))) = triggers img (log s).
Proof.
  unfold intersectionCallback. revert s.
  induction entries as [|[t b] entries IH]; intros s Hnot; [done|].
  apply not_elem_of_cons in Hnot as [Hne Hnot]. simpl forEach.
  destruct b.
  - destruct (onIntersection_true s t) as [Hthrow|(s' & Hret & _ & Htrig)];
      unfold bind.
    + by rewrite Hthrow.
    + rewrite Hret, (IH s' Hnot), Htrig.
      rewrite bool_decide_eq_false_2; [lia|congruence].
  - unfold bind. simpl. by apply IH.
Qed.

Lemma run_potential img es s :
  valid_run es s → (trigger_potential img (exec es s) ≤ trigger_potential img s)%nat.
Proof.
  revert s. induction es as [|e es IH]; intros s Hv; [done|].
  destruct Hv as [Hb Hv]. rewrite exec_cons.
  etransitivity; [by apply IH|].
  assert (Hcases : (∃ entries, e = Intersect entries) ∨ (∀ entries, e ≠ Intersect entries))
    by (destruct e; eauto; left; eauto).
  destruct Hcases as [[entries ->]|Hne].
  - by apply batch_potential.
  - destruct (step_lazy_kept e Hne s) as [Hobs Htrig].
    unfold trigger_potential. by rewrite Hobs, Htrig.
Qed.

Lemma run_unreported img es s :
  ¬ reported img es → triggers img (log (exec es s)) = triggers img (log s).
Proof.
  revert s. induction es as [|e es IH]; intros s Hnot; [done|].
  rewrite exec_cons, IH.
  - assert (Hcases : (∃ entries, e = Intersect entries) ∨
                     (∀ entries, e ≠ Intersect entries))
      by (destruct e; eauto; left; eauto).
    destruct Hcases as [[entries ->]|Hne].
    + apply batch_unreported. intros Hin. apply Hnot.
      exists entries. split; [by left|done].
    + by destruct (step_lazy_kept e Hne s) as [_ Htrig].
  - intros (entries & Hin & Hrep). apply Hnot.
    exists entries. split; [by right|done].
Qed.

Lemma loadImageProgressive_start_contained s img c el u0 :
  contained (nodes s) img c → nodes s !! img = Some el → img ∉ loadingImages s →
  candidates el !! 0 = Some u0 →
  loadImageProgressive img s =
    Ret tt (pass_state (with_loadingImages (λ l, {[img]} ∪ l) s) img c (candidates el) 0 u0).
Proof.
  intros Hc Hel Hfree H0. unfold loadImageProgressive, bind, gets.
  rewrite bool_decide_eq_false_2 by done. simpl.
  rewrite (ensure_contained (with_loadingImages _ s) img c Hc).
  rewrite (getNode_Some (with_loadingImages _ s) img el Hel).
  unfold tryLoadFormats. rewrite H0. unfold pass_state.
  destruct (candidates el) as [|u F]; [done|]. by injection H0 as ->.
Qed.

(** The first notification for an attached element with something to
    load. *)
Lemma onIntersection_first s img el :
  nodes s !! img = Some el → attached (nodes s) img → candidates el ≠ [] →
  ∃ s' c cel,
    onIntersection (img, true) s = Ret tt s' ∧
    parentElement <$> nodes s' !! img = Some (Some c) ∧
    nodes s' !! c = Some cel ∧ "image-loading" ∈ classList cel ∧
    img ∈ loadingImages s' ∧ (img ∉ observed s') ∧
    triggers img (log s') = S (triggers img (log s)).
Proof.
  intros Hel Hatt Hcand.
  destruct (ensure_attached s img Hatt) as (c & ns' & Hens & Hc & Himg & _).
  unfold onIntersection. simpl. unfold bind at 1. rewrite Hens.
  unfold updNode, emit. rewrite !bind_modify.
  set (s2 := with_log _ _).
  assert (Hc2 : contained (nodes s2) img c) by (by apply contained_class_add).
  assert (Hcel : ∃ cel, nodes s2 !! c = Some cel ∧ "image-loading" ∈ classList cel).
  { destruct Hc as (? & cel & _ & _ & Hcel & _). simpl.
    apply (alter_lookup_est (λ _, True)); [intros; apply class_add_In|eauto]. }
  assert (Himg2 : ∃ el2, nodes s2 !! img = Some el2 ∧
                         candidates el2 = candidates el ∧ parentElement el2 = Some c).
  { simpl. apply (alter_lookup_pres
      (λ e, candidates e = candidates el ∧ parentElement e = Some c)); [done|].
    rewrite (Himg _ Hel). eauto. }
  destruct Hcel as (cel & Hcel & Hcls). destruct Himg2 as (el2 & Hel2 & Hcand2 & Hp2).
  assert (Hload : ∃ s3, loadImageProgressive img s2 = Ret tt s3 ∧
                        nodes s3 = nodes s2 ∧ img ∈ loadingImages s3).
  { destruct (decide (img ∈ loadingImages s2)) as [Hbusy|Hfree].
    - exists s2. by rewrite loadImageProgressive_busy.
    - destruct (candidates el2) as [|u0 F] eqn:HF; [congruence|].
      eexists. split.
      + apply (loadImageProgressive_start_contained s2 img c el2 u0 Hc2 Hel2 Hfree).
        by rewrite HF.
      + split; [done|]. simpl. apply elem_of_union. left. by apply elem_of_singleton. }
  destruct Hload as (s3 & Hs3 & Hnodes & Hin).
  pose proof (loadImageProgressive_lazy_kept img s2) as [Hobs Htrig].
  rewrite Hs3 in Hobs, Htrig. simpl in Hobs, Htrig.
  unfold bind. rewrite Hs3. simpl.
  exists (with_observed (λ o, o ∖ {[img]}) s3), c, cel. simpl.
  rewrite Hnodes, Hel2, Hcel, Htrig, triggers_snoc. simpl. rewrite Hp2.
  rewrite bool_decide_eq_true_2 by done.
  repeat split; try done; [|lia].
  apply not_elem_of_difference. right. by apply elem_of_singleton.
Qed.

Lemma setupLazyLoading_log s : log (final (setupLazyLoading s)) = log s.
Proof.
  assert (PreOrder (λ s s' : loader, log s' = log s))
    by (split; [by intros ?|intros a b c; congruence]).
  cut (respects (λ s s', log s' = log s) setupLazyLoading); [by intros H'|].
  unfold setupLazyLoading, observe, updNode.
  respects_with ltac:(apply respects_modify; intros ?; reflexivity).
Qed.

(** C8. The detector does not fire at most once per element.  On a page
    whose body holds an image marked for lazy loading by [data-src]
    alone, [setupLazyLoading] registers the image without flagging it as
    observed.  The first notification starts the load, wraps the image in
    a new container and deregisters it.  The wrap is a mutation of the
    body: the mutation callback finds the image unflagged, flags it and
    registers it again.  The next notification, delivered for a
    registered target as the observer contract has it, fires the
    detector a second time, and when the first load has completed in
    between, a second load of the same source is started.  No callback
    throws on the way. *)
Theorem C8_reregistered_element_fires_twice (nativeText : string → string) :
  let σ0 := (construct nativeText true doc_lazy).1 in
  let notify := LoaderEvent (Intersect [(2, true)]) in
  let σ1 := page_exec nativeText [notify] σ0 in
  let σ2 := page_exec nativeText [notify; Mutation [3; 2]] σ0 in
  let pending := [notify; Mutation [3; 2]; notify] in
  let decoded := [notify; Mutation [3; 2]; LoaderEvent (ProbeLoad 0); notify] in
  (2 ∈ observed (core σ0) ∧ flagged (nodes (core σ0)) 2 = false ∧
   length (nodes (core σ0)) = 3) ∧
  (log (core σ1) = [LazyTrigger 2; Fetch lazy_url] ∧
   (2 ∉ observed (core σ1)) ∧
   parentElement <$> nodes (core σ1) !! 2 = Some (Some 3)) ∧
  (2 ∈ observed (core σ2) ∧ flagged (nodes (core σ2)) 2 = true ∧
   log (core σ2) = log (core σ1)) ∧
  (page_valid_run nativeText pending σ0 ∧
   (page_run nativeText pending σ0).2 = false ∧
   log (core (page_exec nativeText pending σ0)) =
     [LazyTrigger 2; Fetch lazy_url; LazyTrigger 2] ∧
   triggers 2 (log (core (page_exec nativeText pending σ0))) = 2) ∧
  (page_valid_run nativeText decoded σ0 ∧
   (page_run nativeText decoded σ0).2 = false ∧
   log (core (page_exec nativeText decoded σ0)) =
     [LazyTrigger 2; Fetch lazy_url; SetSrc 2 lazy_url; LazyTrigger 2; Fetch lazy_url] ∧
   triggers 2 (log (core (page_exec nativeText decoded σ0))) = 2).
Proof.
  assert (Hbatch : ∀ s, 2 ∈ observed s → valid_batch s [(2, true)]).
  { intros s Hs. split; [apply NoDup_singleton|].
    intros e He. apply list_elem_of_singleton in He. by subst e. }
  cbv zeta. split; [|split; [|split; [|split]]].
  - split; [vm_compute; reflexivity|]. split; vm_compute; reflexivity.
  - split; [vm_compute; reflexivity|]. split; [|vm_compute; reflexivity].
    vm_compute. intros H. discriminate H.
  - split; [vm_compute; reflexivity|]. split; vm_compute; reflexivity.
  - split; [|split; [|split]]; try (vm_compute; reflexivity).
    cbn [page_valid_run]. split; [apply Hbatch; vm_compute; reflexivity|]. split; [done|].
    split; [apply Hbatch; vm_compute; reflexivity|done].
  - split; [|split; [|split]]; try (vm_compute; reflexivity).
    cbn [page_valid_run]. split; [apply Hbatch; vm_compute; reflexivity|]. split; [done|].
    split; [done|]. split; [apply Hbatch; vm_compute; reflexivity|done].
Qed.

(** ** An exhausted pass, in general *)

Lemma pass_exhausted b img c F j u el :
  F !! S j = None →
  contained (nodes b) img c → nodes b !! img = Some el →
  retryCount b (originalSrc el) < maxRetries →
  step (ProbeError (length (probes b))) (pass_state b img c F j u) =
    Ret tt
      (with_log (λ l, l ++ [Schedule img (2 ^ retryCount b (originalSrc el) * 1000)])
      (with_timers (λ l, l ++ [TimerRetry img (2 ^ retryCount b (originalSrc el) * 1000)])
      (with_retryAttempts <[originalSrc el := retryCount b (originalSrc el) + 1]>
      (with_failedImages (λ f, {[originalSrc el]} ∪ f)
      (with_log (λ l, l ++ (Fetch <$> take (S j) F)) b))))).
Proof.
  intros Hnone Hc Hel Hlt. unfold step, bind, gets. simpl.
  rewrite list_lookup_middle by done. simpl.
  unfold tryLoadFormats. rewrite Nat.add_1_r, Hnone.
  erewrite handleImageError_retry; [|exact Hc|exact Hel|exact Hlt].
  unfold pass_state, with_log, with_timers, with_retryAttempts, with_failedImages,
    with_probes, retryCount. simpl.
  by rewrite (delete_middle (probes b) []), app_nil_r.
Qed.

(** The inert retry, for every slot.  Take any state and any attached
    element that is not loading, has at least one candidate and has retry
    budget left.  When every probe of the pass fails and the
    retry timer then fires, every candidate has been requested once, one
    retry has been scheduled and counted, and nothing else has happened:
    no probe or timer is left from this slot, the element is still in
    [loadingImages], and it is no nearer to either terminal state. *)
Lemma exhausted_pass_leaves_slot_loading (s : loader) (img : nat) (el : element) :
  nodes s !! img = Some el → attached (nodes s) img → img ∉ loadingImages s →
  candidates el ≠ [] →
  retryCount s (originalSrc el) < maxRetries →
  let delay := 2 ^ retryCount s (originalSrc el) * 1000 in
  let r := exec (LoadImage img ::
                 replicate (length (candidates el)) (ProbeError (length (probes s))) ++
                 [TimerFire (length (timers s))]) s in
  log r = log s ++ (Fetch <$> candidates el) ++ [Schedule img delay] ∧
  probes r = probes s ∧ timers r = timers s ∧
  img ∈ loadingImages r ∧
  retryCount r (originalSrc el) = retryCount s (originalSrc el) + 1 ∧
  loadedImages r = loadedImages s ∧
  is_error_terminal r img = is_error_terminal s img.
Proof.
  intros Hel Hatt Hfree Hne Hlt delay r.
  destruct (candidates el) as [|u0 F'] eqn:HF; [done|]. clear Hne.
  destruct (loadImageProgressive_start s img el u0 Hel Hatt Hfree)
    as (c & ns' & Hstart & Hc & Himg); [by rewrite HF|].
  rewrite HF in Hstart.
  set (F := u0 :: F') in *.
  set (b := with_nodes (λ _, ns') (with_loadingImages (λ l, {[img]} ∪ l) s)) in *.
  destruct (lookup_lt_is_Some_2 F (length F')) as [ul Hul]; [simpl; lia|].
  destruct (pass_errors b img c F (length F') u0 ul eq_refl Hul) as [Hex _].
  assert (Htimer : ∀ x d,
            timers x = timers s ++ [TimerRetry img d] → img ∈ loadingImages x →
            step (TimerFire (length (timers s))) x =
              Ret tt (with_timers (delete (length (timers s))) x)).
  { intros x d Ht Hin. unfold step, bind, gets. rewrite Ht.
    rewrite list_lookup_middle by done. simpl.
    by apply loadImageProgressive_busy. }
  assert (Hr : r =
    with_timers (delete (length (timers s)))
      (with_log (λ l, l ++ [Schedule img delay])
      (with_timers (λ l, l ++ [TimerRetry img delay])
      (with_retryAttempts <[originalSrc el := retryCount s (originalSrc el) + 1]>
      (with_failedImages (λ f, {[originalSrc el]} ∪ f)
      (with_log (λ l, l ++ (Fetch <$> take (S (length F')) F)) b)))))).
  { subst r. rewrite exec_cons.
    change (step (LoadImage img) s) with (loadImageProgressive img s).
    rewrite Hstart. simpl final.
    change (length F) with (S (length F')). rewrite replicate_S_end, <- app_assoc.
    change (length (probes s)) with (length (probes b)).
    rewrite exec_app, Hex, exec_app, !exec_singleton.
    rewrite (pass_exhausted b img c F (length F') ul (set_parentElement (Some c) el)
               (lookup_ge_None_2 F (S (length F')) (le_n _)) Hc Himg Hlt).
    rewrite (Htimer _ delay); [reflexivity|reflexivity|]. simpl.
    apply elem_of_union. left. by apply elem_of_singleton. }
  rewrite Hr. simpl.
  rewrite (delete_middle (timers s) []), app_nil_r, <- app_assoc.
  rewrite firstn_all. repeat split.
  - apply elem_of_union. left. by apply elem_of_singleton.
  - unfold retryCount. simpl. by rewrite lookup_insert_eq.
  - unfold is_error_terminal, has_class. simpl. by rewrite Himg, Hel.
Qed.

(** ** No exception on attached slots *)

Global Instance attached_kept_preorder : PreOrder attached_kept.
Proof. split; unfold attached_kept; [intros s|intros a b c]; auto. Qed.

Lemma attached_alter f i ns j :
  (∀ e, parentElement (f e) = parentElement e) →
  attached ns j → attached (alter f i ns) j.
Proof.
  intros Hf (el & p & pel & Hel & Hp & Hpel).
  destruct (alter_lookup_pres (λ e, parentElement e = Some p) f i ns j)
    as (el' & Hel' & Hp'); [intros e; by rewrite Hf|eauto|].
  destruct (alter_lookup_pres (λ _, True) f i ns p) as (pel' & Hpel' & _);
    [done|eauto|].
  by exists el', p, pel'.
Qed.

Lemma ensure_attached_kept img : respects attached_kept (ensureImageContainer img).
Proof.
  intros s. destruct (ensureImageContainer img s) as [c s1|s1] eqn:Hens; simpl.
  - revert Hens. unfold ensureImageContainer, bind, getNode.
    destruct (nodes s !! img) as [el|] eqn:Hel; [|done].
    destruct (parentElement el) as [p|] eqn:Hp; [|done].
    destruct (nodes s !! p) as [pel|] eqn:Hpel; [|done].
    destruct (class_contains "image-container" (classList pel)).
    + by intros [= <- <-] i Hi.
    + intros [= <- <-] i (el0 & p0 & pel0 & Hel0 & Hp0 & Hpel0). simpl.
      pose proof (lookup_lt_Some _ _ _ Hel) as Hlt.
      pose proof (lookup_lt_Some _ _ _ Hel0) as Hlt0.
      pose proof (lookup_lt_Some _ _ _ Hpel0) as Hltp.
      destruct (decide (i = img)) as [->|Hne].
      * exists (set_parentElement (Some (length (nodes s))) el), (length (nodes s)),
          (new_container p).
        rewrite list_lookup_alter_eq, lookup_app_l, Hel by done.
        rewrite list_lookup_alter_ne by lia.
        rewrite lookup_app_r, Nat.sub_diag by done. done.
      * destruct (alter_lookup_pres (λ _, True)
                    (set_parentElement (Some (length (nodes s)))) img
                    (nodes s ++ [new_container p]) p0) as (pel' & Hpel' & _);
          [done|rewrite lookup_app_l by done; eauto|].
        exists el0, p0, pel'.
        rewrite list_lookup_alter_ne, lookup_app_l by done. done.
  - by rewrite (ensure_throw _ _ _ Hens).
Qed.

Ltac unfold_methods_above_ensure :=
  unfold timer_callback, probe_onload, probe_onerror, onDocumentError,
    intersectionCallback, onIntersection, loadImage, replaceImageWithProgressive,
    loadImageWithFallback, loadImageProgressive, tryLoadFormats, handleImageError,
    markImageLoaded, startProbe, updNode, emit, setTimeout.

Ltac attached_leaf :=
  first
    [ apply ensure_attached_kept
    | apply respects_modify; intros ? ? H;
        first [ exact H | apply attached_alter; [done|exact H] ] ].

Lemma step_attached_kept e : respects attached_kept (step e).
Proof.
  destruct e; simpl; unfold_methods_above_ensure; respects_with attached_leaf.
Qed.

Global Instance pending_from_preorder A : PreOrder (pending_from A).
Proof.
  split.
  - intros s. split; intros; by left.
  - intros a b c [H1 H2] [H3 H4]. split.
    + intros p Hp. destruct (H3 p Hp) as [Hb|?]; [by apply H1|by right].
    + intros i d Hi. destruct (H4 i d Hi) as [Hb|?]; [by apply H2|by right].
Qed.

Lemma respects_forEach_in R `{!PreOrder R} {A} (f : A → M unit) l :
  (∀ x, x ∈ l → respects R (f x)) → respects R (forEach f l).
Proof.
  induction l as [|x l IH]; intros Hf; simpl.
  - by apply respects_ret.
  - apply respects_bind; [done|apply Hf; by left|].
    intros _. apply IH. intros y Hy. apply Hf. by right.
Qed.

(** A primitive update, for [pending_from A]: the new probe or timer
    stands for an element known to be in [A]. *)
Ltac pending_leaf :=
  let Hp := fresh "Hp" in
  apply respects_modify; intros ?; split; simpl;
    [intros ? Hp | intros ? ? Hp];
    first
      [ by left
      | apply list_elem_of_delete_inv in Hp; by left
      | apply elem_of_app in Hp; destruct Hp as [Hp|Hp]; [by left|];
        apply list_elem_of_singleton in Hp; simplify_eq; right; simpl; assumption ].

Lemma handleImageError_pending (A : nat → Prop) img :
  A img → respects (pending_from A) (handleImageError img).
Proof.
  intros HA. unfold handleImageError, ensureImageContainer, updNode, emit, setTimeout.
  respects_with pending_leaf.
Qed.

Lemma loadImageProgressive_pending (A : nat → Prop) img :
  A img → respects (pending_from A) (loadImageProgressive img).
Proof.
  intros HA. unfold_methods.
  respects_with ltac:(first [by apply handleImageError_pending | pending_leaf]).
Qed.

Lemma step_pending (A : nat → Prop) e s :
  (∀ j, j ∈ event_subjects e → A j) →
  (∀ p, p ∈ probes s → A (probe_img p)) →
  (∀ j d, TimerRetry j d ∈ timers s → A j) →
  pending_from A s (final (step e s)).
Proof.
  intros Hsub Hprobes Htimers. destruct e; simpl step.
  - apply loadImageProgressive_pending. apply Hsub. by left.
  - assert (HA : A img0) by (apply Hsub; by left).
    clear Hsub Hprobes Htimers. revert s. unfold_methods.
    respects_with ltac:(first [by apply handleImageError_pending | pending_leaf]).
  - assert (HA : A img0) by (apply Hsub; by left).
    clear Hsub Hprobes Htimers. revert s. unfold_methods.
    respects_with ltac:(first [by apply handleImageError_pending | pending_leaf]).
  - unfold bind, gets. destruct (probes s !! i) as [p|] eqn:Hp; [|reflexivity].
    assert (HA : A (probe_img p)) by (by eapply Hprobes, list_elem_of_lookup_2).
    clear Hsub Hprobes Htimers Hp.
    change (pending_from A s
              (final ((modify (with_probes (delete i)) ;; probe_onload p) s))).
    revert s. destruct p; simpl in HA; unfold_methods;
      respects_with ltac:(first [by apply handleImageError_pending | pending_leaf]).
  - unfold bind, gets. destruct (probes s !! i) as [p|] eqn:Hp; [|reflexivity].
    assert (HA : A (probe_img p)) by (by eapply Hprobes, list_elem_of_lookup_2).
    clear Hsub Hprobes Htimers Hp.
    change (pending_from A s
              (final ((modify (with_probes (delete i)) ;; probe_onerror p) s))).
    revert s. destruct p; simpl in HA; unfold_methods;
      respects_with ltac:(first [by apply handleImageError_pending | pending_leaf]).
  - unfold bind, gets. destruct (timers s !! i) as [t|] eqn:Ht; [|reflexivity].
    change (pending_from A s
              (final ((modify (with_timers (delete i)) ;; timer_callback t) s))).
    destruct t as [j d|j d].
    + assert (HA : A j) by (by eapply Htimers, list_elem_of_lookup_2).
      clear Hsub Hprobes Htimers Ht. revert s. unfold_methods.
      respects_with ltac:(first [by apply handleImageError_pending | pending_leaf]).
    + clear Hsub Hprobes Htimers Ht. revert s. unfold_methods.
      respects_with pending_leaf.
  - assert (HA : A target) by (apply Hsub; by left).
    clear Hsub Hprobes Htimers. revert s. unfold onDocumentError.
    respects_with ltac:(first [by apply handleImageError_pending | pending_leaf]).
  - assert (HA : ∀ x, x ∈ entries → A x.1).
    { intros x Hx. apply Hsub. simpl. apply list_elem_of_fmap. by exists x. }
    clear Hsub Hprobes Htimers. revert s.
    unfold intersectionCallback. apply respects_forEach_in; [typeclasses eauto|].
    intros x Hx. specialize (HA x Hx). unfold onIntersection.
    destruct x as [t b]; simpl in *.
    destruct b; simpl; [|apply respects_ret; typeclasses eauto].
    unfold ensureImageContainer, updNode, emit.
    respects_with ltac:(first [by apply loadImageProgressive_pending | pending_leaf]).
Qed.

Section Returns.
Context (img : nat).
Let P : loader → Prop := λ s, attached (nodes s) img.

Lemma returns_ret {A} (a : A) : returns P (ret a).
Proof. by intros s _. Qed.

Lemma returns_gets {A} (f : loader → A) : returns P (gets f).
Proof. by intros s _. Qed.

Lemma returns_modify f : returns P (modify f).
Proof. by intros s _. Qed.

Lemma returns_getNode : returns P (getNode img).
Proof.
  intros s (el & _ & _ & Hel & _). unfold getNode. by rewrite Hel.
Qed.

Lemma returns_ensure : returns P (ensureImageContainer img).
Proof.
  intros s Hs. destruct (ensure_attached s img Hs) as (c & ns' & -> & _). done.
Qed.

Lemma returns_bind {A B} (m : M A) (k : A → M B) :
  returns P m → respects attached_kept m → (∀ a, returns P (k a)) →
  returns P (bind m k).
Proof.
  intros Hm Hkept Hk s Hs. unfold bind.
  specialize (Hm s Hs). specialize (Hkept s img Hs).
  destruct (m s) as [a s'|s']; [|done]. by apply Hk.
Qed.

End Returns.

(** Decomposition of a [returns] goal; the side conditions that
    attachedness is kept are discharged along the way. *)
Ltac returns_with known :=
  repeat first
    [ known
    | apply returns_ret
    | apply returns_gets
    | apply returns_modify
    | apply returns_getNode
    | apply returns_ensure
    | apply returns_bind;
        [ | unfold_methods_above_ensure; respects_with attached_leaf | intros ? ]
    | match goal with
      | |- returns _ (if bool_decide ?Q then _ else _) =>
          destruct (bool_decide_reflect Q)
      | |- returns _ (if ?b then _ else _) => destruct b eqn:?
      | |- returns _ (match ?x with _ => _ end) => destruct x eqn:?
      end ].

Lemma handleImageError_returns img :
  returns (λ s, attached (nodes s) img) (handleImageError img).
Proof. unfold handleImageError, updNode, emit, setTimeout. returns_with fail. Qed.

Lemma loadImageProgressive_returns_attached img :
  returns (λ s, attached (nodes s) img) (loadImageProgressive img).
Proof.
  unfold loadImageProgressive, tryLoadFormats, startProbe, emit.
  returns_with ltac:(apply handleImageError_returns).
Qed.

Lemma intersectionCallback_returns entries s :
  (∀ i, i ∈ entries.*1 → attached (nodes s) i) →
  throws (intersectionCallback entries s) = false.
Proof.
  unfold intersectionCallback. revert s.
  induction entries as [|[t b] entries IH]; intros s Hatt; [done|].
  simpl forEach. unfold bind.
  assert (Hhead : throws (onIntersection (t, b) s) = false).
  { destruct b; [|done].
    assert (Ht : attached (nodes s) t) by (apply Hatt; by left).
    clear Hatt IH. revert s Ht. unfold onIntersection. simpl. unfold updNode, emit.
    change (returns (λ s, attached (nodes s) t)
              (container <- ensureImageContainer t ;;
               modify (with_nodes
                         (alter (set_classList (class_add "image-loading")) container)) ;;
               modify (with_log (λ l, l ++ [LazyTrigger t])) ;;
               loadImageProgressive t ;;
               modify (with_observed (λ o, o ∖ {[t]})))).
    returns_with ltac:(apply loadImageProgressive_returns_attached). }
  pose proof (step_attached_kept (Intersect [(t, b)]) s) as Hkept.
  simpl in Hkept. unfold intersectionCallback in Hkept. simpl forEach in Hkept.
  unfold bind in Hkept.
  destruct (onIntersection (t, b) s) as [[] s'|s']; [|done].
  apply IH. intros i Hi. apply Hkept, Hatt. by right.
Qed.

(** A step does not throw when the elements it is about are attached. *)
Lemma step_returns e s :
  slots_attached s →
  (∀ i, i ∈ event_subjects e → attached (nodes s) i) →
  throws (step e s) = false.
Proof.
  intros [Hprobes Htimers] Hsub. destruct e; simpl step.
  - apply loadImageProgressive_returns_attached. apply Hsub. by left.
  - assert (Ha : attached (nodes s) img0) by (apply Hsub; by left).
    clear Hprobes Htimers Hsub. revert s Ha.
    change (returns (λ s, attached (nodes s) img0)
              (replaceImageWithProgressive img0 formats)).
    unfold replaceImageWithProgressive, updNode.
    returns_with ltac:(apply loadImageProgressive_returns_attached).
  - assert (Ha : attached (nodes s) img0) by (apply Hsub; by left).
    clear Hprobes Htimers Hsub. revert s Ha.
    change (returns (λ s, attached (nodes s) img0)
              (loadImageWithFallback img0 primarySrc fallbackSrc)).
    unfold loadImageWithFallback, startProbe, updNode, emit. returns_with fail.
  - unfold bind, gets. destruct (probes s !! i) as [p|] eqn:Hp; [|done].
    assert (Ha : attached (nodes s) (probe_img p))
      by (by eapply Hprobes, list_elem_of_lookup_2).
    change (throws ((modify (with_probes (delete i)) ;; probe_onload p) s) = false).
    clear Hprobes Htimers Hsub Hp. revert s Ha.
    change (returns (λ s, attached (nodes s) (probe_img p))
              (modify (with_probes (delete i)) ;; probe_onload p)).
    destruct p; simpl probe_img;
      unfold probe_onload, markImageLoaded, updNode, emit, setTimeout;
      returns_with fail.
  - unfold bind, gets. destruct (probes s !! i) as [p|] eqn:Hp; [|done].
    assert (Ha : attached (nodes s) (probe_img p))
      by (by eapply Hprobes, list_elem_of_lookup_2).
    change (throws ((modify (with_probes (delete i)) ;; probe_onerror p) s) = false).
    clear Hprobes Htimers Hsub Hp. revert s Ha.
    change (returns (λ s, attached (nodes s) (probe_img p))
              (modify (with_probes (delete i)) ;; probe_onerror p)).
    destruct p; simpl probe_img;
      unfold probe_onerror, tryLoadFormats, startProbe, emit;
      returns_with ltac:(apply handleImageError_returns).
  - unfold bind, gets. destruct (timers s !! i) as [t|] eqn:Ht; [|done].
    destruct t as [j d|j d]; [|done].
    assert (Ha : attached (nodes s) j)
      by (by eapply Htimers, list_elem_of_lookup_2).
    change (throws ((modify (with_timers (delete i)) ;; loadImageProgressive j) s) = false).
    clear Hprobes Htimers Hsub Ht. revert s Ha.
    change (returns (λ s, attached (nodes s) j)
              (modify (with_timers (delete i)) ;; loadImageProgressive j)).
    returns_with ltac:(apply loadImageProgressive_returns_attached).
  - assert (Ha : attached (nodes s) target) by (apply Hsub; by left).
    clear Hprobes Htimers Hsub. revert s Ha.
    change (returns (λ s, attached (nodes s) target) (onDocumentError target)).
    unfold onDocumentError. returns_with ltac:(apply handleImageError_returns).
  - by apply intersectionCallback_returns.
Qed.

(** In a run in which every element named by an event is attached, and
    the elements with a pending probe or retry timer are attached at the
    start, no callback throws. *)
Lemma attached_slots_never_throw es s :
  slots_attached s →
  (∀ e i, e ∈ es → i ∈ event_subjects e → attached (nodes s) i) →
  (run es s).2 = false.
Proof.
  revert s. induction es as [|e es IH]; intros s Hslots Hsub; [done|].
  simpl. rewrite (step_returns e s Hslots); [|intros i Hi; apply (Hsub e i); [by left|done]].
  simpl. pose proof (step_attached_kept e s) as Hkept.
  apply IH.
  - destruct Hslots as [Hprobes Htimers].
    destruct (step_pending (λ j, attached (nodes s) j) e s) as [Hp Ht].
    + intros j Hj. apply (Hsub e j); [by left|done].
    + exact Hprobes.
    + exact Htimers.
    + split.
      * intros p Hin. apply Hkept. destruct (Hp p Hin); auto.
      * intros i d Hin. apply Hkept. destruct (Ht i d Hin); eauto.
  - intros e' i He' Hi. apply Hkept. apply (Hsub e' i); [by right|done].
Qed.

(** * Further properties of the loader *)

(** ** The image container *)

(** X1. [ensureImageContainer] throws exactly when the element has no
    parent element, and then changes nothing.  Otherwise it returns a
    container that holds the element directly; only the node arena may
    have changed, by at most one new node, which is a fresh
    [div.image-container.loading] put in the place of the element under
    its former parent; every other node is as before; and calling it again
    returns the same container and changes nothing. *)
Theorem X1_ensureImageContainer_wraps_once (s : loader) (img : nat) :
  match ensureImageContainer img s with
  | Throw s' => s' = s ∧ ¬ attached (nodes s) img
  | Ret c s1 =>
      attached (nodes s) img ∧
      contained (nodes s1) img c ∧
      ensureImageContainer img s1 = Ret c s1 ∧
      (∃ ns', s1 = with_nodes (λ _, ns') s) ∧
      (length (nodes s1) ≤ S (length (nodes s)))%nat ∧
      (∀ i, i ≠ img → (i < length (nodes s))%nat → nodes s1 !! i = nodes s !! i) ∧
      (∀ el p, nodes s !! img = Some el → parentElement el = Some p →
         (c = p ∧ nodes s1 = nodes s) ∨
         (c = length (nodes s) ∧ nodes s1 !! c = Some (new_container p) ∧
          length (nodes s1) = S (length (nodes s))))
  end.
Proof.
  destruct (ensureImageContainer img s) as [c s1|s'] eqn:Hens.
  - destruct (ensure_ret _ _ _ _ Hens) as [Hc Hns].
    split; [|split; [exact Hc|split; [by eapply ensure_twice|split; [exact Hns|]]]];
      revert Hens; unfold ensureImageContainer, bind, getNode;
      destruct (nodes s !! img) as [el|] eqn:Hel; try done;
      destruct (parentElement el) as [p|] eqn:Hp; try done;
      destruct (nodes s !! p) as [pel|] eqn:Hpel; try done;
      destruct (class_contains "image-container" (classList pel)) eqn:Hcls;
      intros [= <- <-]; simpl.
    + by exists el, p, pel.
    + by exists el, p, pel.
    + split; [lia|]. split; [done|]. intros el0 p0 [= <-] Hp0. left.
      split; congruence.
    + pose proof (lookup_lt_Some _ _ _ Hel) as Hlt.
      rewrite length_alter, length_app. simpl. split; [lia|]. split.
      * intros i Hi Hlen. by rewrite list_lookup_alter_ne, lookup_app_l.
      * intros el0 p0 [= <-] Hp0. right. split; [done|]. split; [|lia].
        rewrite list_lookup_alter_ne by lia.
        rewrite lookup_app_r, Nat.sub_diag by done. simpl. congruence.
  - split; [by eapply ensure_throw|]. intros Hatt.
    destruct (ensure_attached s img Hatt) as (c & ns' & Hret & _). congruence.
Qed.

Global Instance contained_kept_preorder : PreOrder contained_kept.
Proof. split; unfold contained_kept; [intros s|intros a b c]; auto. Qed.

Lemma contained_alter f i ns img c :
  (∀ e, parentElement (f e) = parentElement e) →
  (∀ e, class_contains "image-container" (classList e) = true →
        class_contains "image-container" (classList (f e)) = true) →
  contained ns img c → contained (alter f i ns) img c.
Proof.
  intros Hp Hcls (el & cel & Hel & Hpar & Hcel & Hc).
  destruct (alter_lookup_pres (λ e, parentElement e = Some c) f i ns img)
    as (el' & Hel' & Hp'); [intros e; by rewrite Hp|eauto|].
  destruct (alter_lookup_pres
              (λ e, class_contains "image-container" (classList e) = true) f i ns c)
    as (cel' & Hcel' & Hc'); [exact Hcls|eauto|].
  exists el', cel'. repeat split; assumption.
Qed.

Lemma ensure_contained_kept img : respects contained_kept (ensureImageContainer img).
Proof.
  intros s. destruct (ensureImageContainer img s) as [c s1|s1] eqn:Hens; simpl.
  - revert Hens. unfold ensureImageContainer, bind, getNode.
    destruct (nodes s !! img) as [el|] eqn:Hel; [|done].
    destruct (parentElement el) as [p|] eqn:Hp; [|done].
    destruct (nodes s !! p) as [pel|] eqn:Hpel; [|done].
    destruct (class_contains "image-container" (classList pel)) eqn:Hcls.
    + by intros [= <- <-] i c' Hi.
    + intros [= <- <-] i c' (el0 & cel0 & Hel0 & Hp0 & Hcel0 & Hc0). simpl.
      pose proof (lookup_lt_Some _ _ _ Hel0) as Hlt0.
      pose proof (lookup_lt_Some _ _ _ Hcel0) as Hltc.
      assert (i ≠ img) by (intros ->; congruence).
      destruct (alter_lookup_pres
                  (λ e, class_contains "image-container" (classList e) = true)
                  (set_parentElement (Some (length (nodes s)))) img
                  (nodes s ++ [new_container p]) c') as (cel' & Hcel' & Hc');
        [done|rewrite lookup_app_l by done; eauto|].
      exists el0, cel'.
      rewrite list_lookup_alter_ne, lookup_app_l by done. done.
  - by rewrite (ensure_throw _ _ _ Hens).
Qed.

Lemma class_contains_add c d l :
  class_contains c l = true → class_contains c (class_add d l) = true.
Proof.
  unfold class_contains. rewrite !bool_decide_eq_true. apply class_add_keeps.
Qed.

Lemma class_contains_remove c d l :
  c ≠ d → class_contains c l = true → class_contains c (class_remove d l) = true.
Proof.
  unfold class_contains. rewrite !bool_decide_eq_true. by apply class_remove_keeps.
Qed.

Ltac contained_leaf :=
  first
    [ apply ensure_contained_kept
    | apply respects_modify; intros ? ? ? H;
        first
          [ exact H
          | apply contained_alter; [done| |exact H]; intros ? ?; simpl;
              repeat first [ apply class_contains_add
                           | apply class_contains_remove; [done|] ]; done ] ].

Lemma step_contained_kept e : respects contained_kept (step e).
Proof.
  destruct e; simpl; unfold_methods_above_ensure; respects_with contained_leaf.
Qed.

(** X2. Once an element sits directly in an image container it stays in
    that container through every run of the loader: no step moves it,
    wraps it again, or takes the [image-container] class off its
    container. *)
Theorem X2_wrapper_is_kept (es : list event) (s : loader) (img c : nat) :
  contained (nodes s) img c → contained (nodes (exec es s)) img c.
Proof.
  revert s. induction es as [|e es IH]; intros s Hc; [exact Hc|].
  rewrite exec_cons. apply IH. by apply (step_contained_kept e s).
Qed.

(** The gallery image, once its first load request has wrapped it, is
    still in the same container after a failed pass, a retry timer, an
    error event and a second request. *)
Lemma X2_witness :
  contained
    (nodes (exec [ProbeError 0; ProbeError 0; ProbeError 0; ProbeError 0; TimerFire 0;
                  ImgError 3; Replace 3 (FormatLegacy "art.png")] loading_gallery)) 3 4.
Proof.
  apply X2_wrapper_is_kept.
  do 2 eexists. repeat split; vm_compute; reflexivity.
Defined.

(** ** The state after a successful load *)

Lemma class_remove_gone c l : c ∉ class_remove c l.
Proof. unfold class_remove. rewrite list_elem_of_filter. tauto. Qed.

Lemma class_remove_absent c d l : d ∉ l → d ∉ class_remove c l.
Proof. unfold class_remove. rewrite list_elem_of_filter. tauto. Qed.

Lemma class_add_absent c d l : d ≠ c → d ∉ l → d ∉ class_add c l.
Proof.
  intros Hne Hd. unfold class_add. destruct (class_contains c l); [done|].
  rewrite elem_of_app, list_elem_of_singleton. tauto.
Qed.

Lemma timer_fire_last x ts t :
  timers x = ts ++ [t] →
  step (TimerFire (length ts)) x =
    timer_callback t (with_timers (delete (length ts)) x).
Proof.
  intros Ht. unfold step, bind, gets. rewrite Ht.
  by rewrite list_lookup_middle.
Qed.

Lemma probe_fire_last x ps p :
  probes x = ps ++ [p] →
  step (ProbeLoad (length ps)) x = probe_onload p (with_probes (delete (length ps)) x) ∧
  step (ProbeError (length ps)) x = probe_onerror p (with_probes (delete (length ps)) x).
Proof.
  intros Hp. unfold step, bind, gets. rewrite Hp.
  by rewrite list_lookup_middle.
Qed.

(** X3. When a probe of the format cascade decodes, the live element gets
    the decoded URL, gains the [loaded] class and loses [loading]; its
    container gains [loaded] and loses both [loading] and
    [image-loading]; a 50 ms timer is queued, and when it fires the
    element also gains [fade-in]. *)
Theorem X3_success_clears_loading_state
    (s : loader) (i img c : nat) (F : list string) (j : nat) (u : string)
    (el cel : element) :
  probes s !! i = Some (ProbeFormats img c F j u) →
  nodes s !! img = Some el → nodes s !! c = Some cel → img ≠ c →
  ∃ s1 el' cel',
    step (ProbeLoad i) s = Ret tt s1 ∧
    nodes s1 !! img = Some el' ∧ nodes s1 !! c = Some cel' ∧
    src el' = u ∧
    "loaded" ∈ classList el' ∧ ("loading" ∉ classList el') ∧
    "loaded" ∈ classList cel' ∧ ("loading" ∉ classList cel') ∧
    ("image-loading" ∉ classList cel') ∧
    timers s1 = timers s ++ [TimerFadeIn img 50] ∧
    ∃ s2 el'',
      step (TimerFire (length (timers s))) s1 = Ret tt s2 ∧
      nodes s2 !! img = Some el'' ∧
      "fade-in" ∈ classList el'' ∧ "loaded" ∈ classList el'' ∧
      ("loading" ∉ classList el'') ∧ src el'' = u.
Proof.
  intros Hp Hel Hcel Hne. unfold step at 1, bind, gets. rewrite Hp. simpl.
  eexists _, _, _. split; [reflexivity|]. simpl.
  rewrite !(list_lookup_alter_ne _ _ c img) by done.
  rewrite !list_lookup_alter_eq.
  rewrite !(list_lookup_alter_ne _ _ img c) by done. rewrite Hel, Hcel. simpl.
  split; [reflexivity|]. split; [reflexivity|]. simpl.
  split; [done|]. split; [apply class_add_In|].
  split; [apply class_add_absent; [done|apply class_remove_gone]|].
  split; [apply class_add_In|].
  split; [apply class_add_absent; [done|apply class_remove_absent, class_remove_gone]|].
  split; [apply class_add_absent; [done|apply class_remove_gone]|].
  split; [done|].
  unfold bind at 1, gets at 1.
  cbn [timers with_loadedImages with_loadingImages with_timers with_nodes with_log
       with_probes].
  rewrite list_lookup_middle by done. simpl.
  eexists _, _. split; [reflexivity|]. simpl.
  rewrite list_lookup_alter_eq.
  rewrite !(list_lookup_alter_ne _ _ c img) by done.
  rewrite !list_lookup_alter_eq, Hel. simpl.
  split; [reflexivity|]. simpl.
  split; [apply class_add_In|].
  split; [apply class_add_keeps, class_add_In|].
  split; [|done].
  apply class_add_absent; [done|].
  apply class_add_absent; [done|apply class_remove_gone].
Qed.

(** The gallery slot with its first probe in flight, when the preferred
    format decodes. *)
Lemma X3_witness :
  ∃ s1 el' cel',
    step (ProbeLoad 0) loading_gallery = Ret tt s1 ∧
    nodes s1 !! 3 = Some el' ∧ nodes s1 !! 4 = Some cel' ∧
    src el' = "art.webp" ∧
    "loaded" ∈ classList el' ∧ ("loading" ∉ classList el') ∧
    "loaded" ∈ classList cel' ∧ ("loading" ∉ classList cel') ∧
    ("image-loading" ∉ classList cel') ∧
    timers s1 = timers loading_gallery ++ [TimerFadeIn 3 50] ∧
    ∃ s2 el'',
      step (TimerFire (length (timers loading_gallery))) s1 = Ret tt s2 ∧
      nodes s2 !! 3 = Some el'' ∧
      "fade-in" ∈ classList el'' ∧ "loaded" ∈ classList el'' ∧
      ("loading" ∉ classList el'') ∧ src el'' = "art.webp".
Proof.
  eapply (X3_success_clears_loading_state loading_gallery 0 3 4).
  - vm_compute. reflexivity.
  - vm_compute. reflexivity.
  - vm_compute. reflexivity.
  - lia.
Defined.

(** ** Replacing an image by its local formats *)

Lemma same_source_refl i e : same_source i e e.
Proof. by repeat split. Qed.

Global Instance same_source_preorder : PreOrder (nodes_rel same_source).
Proof.
  apply nodes_rel_preorder_gen.
  - apply same_source_refl.
  - intros i e1 e2 e3 (? & ? & ? & ?) (? & ? & ? & ?). repeat split; congruence.
Qed.

Global Instance scan_kept_preorder : PreOrder scan_kept.
Proof.
  split.
  - intros s. repeat split; try reflexivity.
  - intros a b c (F1 & R1 & T1 & L1 & O1 & G1 & P1 & A1 & N1)
                 (F2 & R2 & T2 & L2 & O2 & G2 & P2 & A2 & N2).
    repeat split; try congruence; by etransitivity.
Qed.

Lemma ensure_same_source img :
  respects (nodes_rel same_source) (ensureImageContainer img).
Proof.
  unfold ensureImageContainer, updNode.
  respects_with ltac:(nodes_leaf ltac:(apply same_source_refl) ltac:(by repeat split)).
Qed.

Lemma stored_formats_other formats d k :
  k ≠ "webp" → k ≠ "jpg" → k ≠ "fallback" → stored_formats formats d !! k = d !! k.
Proof.
  intros. destruct formats as [w j f|p]; simpl; [destruct (bool_decide (w = ""))|];
    by rewrite ?lookup_insert_ne.
Qed.

(** The candidate list is not empty when the element has a source. *)
Lemma candidates_sourced el u :
  truthy (srcOrData el) = Some u → ∃ u0, candidates el !! 0 = Some u0.
Proof.
  unfold srcOrData, candidates. intros Hu. simpl.
  destruct (truthy (dataset el !! "webp")); [by eexists|].
  destruct (truthy (dataset el !! "jpg")); [by eexists|].
  destruct (truthy (dataset el !! "fallback")); [by eexists|].
  destruct (bool_decide_reflect (src el = "")) as [Hs|Hs].
  - rewrite Hu. by eexists.
  - destruct (truthy (dataset el !! "src")); by eexists.
Qed.

Ltac class_in := solve [repeat first [apply class_add_In | apply class_add_keeps]].

(** [replaceImageWithProgressive] on an attached element, up to its call
    of [loadImageProgressive]: the element is wrapped, carries the formats
    and the [loading] class, and its container the two loading classes. *)
Lemma replaceImageWithProgressive_prepares s img el formats :
  nodes s !! img = Some el → attached (nodes s) img →
  ∃ c ns1 el1 cel1,
    replaceImageWithProgressive img formats s =
      loadImageProgressive img (with_nodes (λ _, ns1) s) ∧
    contained ns1 img c ∧
    ns1 !! img = Some el1 ∧ ns1 !! c = Some cel1 ∧
    tagName el1 = tagName el ∧ src el1 = src el ∧
    dataset el1 = stored_formats formats (dataset el) ∧
    "loading" ∈ classList el1 ∧
    "loading" ∈ classList cel1 ∧ "image-loading" ∈ classList cel1 ∧
    nodes_rel same_source s (with_nodes (λ _, ns1) s).
Proof.
  intros Hel Hatt.
  pose proof (ensure_same_source img s) as Hsrc.
  destruct (ensure_attached s img Hatt) as (c & ns' & Hens & Hcont & Himg & _ & _).
  specialize (Himg el Hel). rewrite Hens in Hsrc. simpl in Hsrc.
  destruct Hcont as (el0 & cel0 & Hel0 & Hp0 & Hcel0 & Hcls0).
  assert (Hel0' : el0 = set_parentElement (Some c) el) by congruence. subst el0.
  unfold replaceImageWithProgressive, bind. rewrite Hens.
  set (g := stored_formats formats).
  exists c,
    (alter (set_classList (class_add "loading")) img
       (alter (set_classList (λ l, class_add "image-loading" (class_add "loading" l))) c
          (alter (set_dataset g) img ns'))).
  assert (Hshape :
    ∃ el1 cel1,
      alter (set_classList (class_add "loading")) img
        (alter (set_classList (λ l, class_add "image-loading" (class_add "loading" l))) c
           (alter (set_dataset g) img ns')) !! img = Some el1 ∧
      alter (set_classList (class_add "loading")) img
        (alter (set_classList (λ l, class_add "image-loading" (class_add "loading" l))) c
           (alter (set_dataset g) img ns')) !! c = Some cel1 ∧
      tagName el1 = tagName el ∧ src el1 = src el ∧ dataset el1 = g (dataset el) ∧
      parentElement el1 = Some c ∧
      "loading" ∈ classList el1 ∧
      "loading" ∈ classList cel1 ∧ "image-loading" ∈ classList cel1 ∧
      class_contains "image-container" (classList cel1) = true).
  { destruct (decide (c = img)) as [->|Hne].
    - rewrite !list_lookup_alter_eq, Himg. simpl. do 2 eexists.
      split; [reflexivity|]. split; [reflexivity|]. simpl.
      rewrite Himg in Hcel0. injection Hcel0 as <-. simpl in Hcls0.
      repeat split; try done; try class_in.
      by do 3 apply class_contains_add.
    - rewrite list_lookup_alter_eq.
      rewrite (list_lookup_alter_ne _ _ c img) by done.
      rewrite list_lookup_alter_eq, Himg.
      rewrite (list_lookup_alter_ne _ _ img c) by done.
      rewrite list_lookup_alter_eq.
      rewrite (list_lookup_alter_ne _ _ img c) by done. rewrite Hcel0. simpl.
      do 2 eexists. split; [reflexivity|]. split; [reflexivity|]. simpl.
      repeat split; try done; try class_in.
      by do 2 apply class_contains_add. }
  destruct Hshape as (el1 & cel1 & H1 & H2 & Ht & Hs & Hd & Hp & Hl & Hcl & Hcil & Hcc).
  exists el1, cel1.
  split.
  { subst g. unfold stored_formats.
    destruct formats as [w j f|p]; [destruct (bool_decide (w = ""))|]; simpl;
      try reflexivity.
    f_equal. unfold with_nodes; simpl.
    rewrite !(list_alter_alter_eq _ _ _ img). reflexivity. }
  split; [by exists el1, cel1|].
  do 8 (split; [assumption|]).
  etransitivity; [exact Hsrc|].
  change (nodes_rel same_source (with_nodes (λ _, ns') s)
    (with_nodes (alter (set_classList (class_add "loading")) img)
       (with_nodes
          (alter (set_classList (λ l, class_add "image-loading" (class_add "loading" l))) c)
          (with_nodes (alter (set_dataset g) img) (with_nodes (λ _, ns') s))))).
  etransitivity; [|apply nodes_rel_alter; [apply same_source_refl|by repeat split]].
  etransitivity; [|apply nodes_rel_alter; [apply same_source_refl|by repeat split]].
  apply nodes_rel_alter; [apply same_source_refl|].
  intros e. repeat split; simpl; unfold g; by apply stored_formats_other.
Qed.

(** [loadImageProgressive] on a contained element with a candidate. *)
Lemma loadImageProgressive_contained s img c el u0 :
  contained (nodes s) img c → nodes s !! img = Some el →
  candidates el !! 0 = Some u0 →
  loadImageProgressive img s =
    Ret tt (if bool_decide (img ∈ loadingImages s) then s
            else pass_state (with_loadingImages (λ l, {[img]} ∪ l) s)
                            img c (candidates el) 0 u0).
Proof.
  intros Hc Hel Hu. destruct (bool_decide_reflect (img ∈ loadingImages s)) as [Hin|Hin].
  - by apply loadImageProgressive_busy.
  - by apply loadImageProgressive_start_contained.
Qed.

(** X4. [replaceImageWithProgressive] with a format triple, on an element
    that is not loading: the three formats are stored on the element, the
    candidate list now starts with them, the element's own sources coming
    last, and the first request goes to the WebP file.  The element and
    its container carry the loading classes and the element is recorded
    as loading. *)
Theorem X4_replace_requests_preferred_first
    (s : loader) (img : nat) (el : element) (w j f : string) :
  nodes s !! img = Some el → attached (nodes s) img →
  img ∉ loadingImages s → w ≠ "" →
  ∃ s' c el' cel',
    replaceImageWithProgressive img (FormatTriple w j f) s = Ret tt s' ∧
    nodes s' !! img = Some el' ∧ parentElement el' = Some c ∧
    nodes s' !! c = Some cel' ∧
    dataset el' = <["fallback" := f]> (<["jpg" := j]> (<["webp" := w]> (dataset el))) ∧
    candidates el' =
      w :: omap truthy [Some j; Some f; dataset el !! "src"; Some (src el)] ∧
    "loading" ∈ classList el' ∧
    "loading" ∈ classList cel' ∧ "image-loading" ∈ classList cel' ∧
    loadingImages s' = {[img]} ∪ loadingImages s ∧
    probes s' = probes s ++ [ProbeFormats img c (candidates el') 0 w] ∧
    log s' = log s ++ [Fetch w].
Proof.
  intros Hel Hatt Hin Hw.
  destruct (replaceImageWithProgressive_prepares s img el (FormatTriple w j f) Hel Hatt)
    as (c & ns1 & el1 & cel1 & Heq & Hcont & H1 & H2 & _ & Hsrc & Hd & Hl & Hcl & Hcil & _).
  simpl in Hd. rewrite bool_decide_eq_false_2 in Hd by done.
  assert (Hcand : candidates el1 =
            w :: omap truthy [Some j; Some f; dataset el !! "src"; Some (src el)]).
  { unfold candidates. rewrite Hd, Hsrc.
    rewrite lookup_insert_ne, lookup_insert_ne, lookup_insert_eq by done.
    rewrite lookup_insert_ne, lookup_insert_eq by done.
    rewrite lookup_insert_eq. rewrite !lookup_insert_ne by done.
    simpl. by rewrite bool_decide_eq_false_2 by done. }
  rewrite Heq.
  rewrite (loadImageProgressive_contained _ img c el1 w); try done;
    [|by rewrite Hcand].
  simpl loadingImages. rewrite bool_decide_eq_false_2 by done.
  destruct Hcont as (el0 & cel0 & Hel0 & Hp0 & _).
  eexists _, c, el1, cel1. split; [reflexivity|]. simpl.
  assert (el0 = el1) by congruence. subst el0.
  repeat split; try done.
  rewrite Hcand at 1. simpl. done.
Qed.

(** The gallery image, not yet loading, replaced by the first entry of
    the image map. *)
Lemma X4_witness :
  ∃ s' c el' cel',
    replaceImageWithProgressive 3 (FormatTriple "a.webp" "a.jpg" "a.svg")
      (new_loader doc_gallery) = Ret tt s' ∧
    nodes s' !! 3 = Some el' ∧ parentElement el' = Some c ∧
    nodes s' !! c = Some cel' ∧
    dataset el' =
      <["fallback" := "a.svg"]> (<["jpg" := "a.jpg"]> (<["webp" := "a.webp"]>
        (list_to_map [("webp", "art.webp"); ("jpg", "art.jpg"); ("fallback", "art.svg")]))) ∧
    candidates el' =
      "a.webp" :: omap truthy [Some "a.jpg"; Some "a.svg"; None; Some legacy_url] ∧
    "loading" ∈ classList el' ∧
    "loading" ∈ classList cel' ∧ "image-loading" ∈ classList cel' ∧
    loadingImages s' = {[3]} ∪ ∅ ∧
    probes s' = [] ++ [ProbeFormats 3 c (candidates el') 0 "a.webp"] ∧
    log s' = [] ++ [Fetch "a.webp"].
Proof.
  apply (X4_replace_requests_preferred_first (new_loader doc_gallery) 3
           (img 2 legacy_url [("webp", "art.webp"); ("jpg", "art.jpg");
                              ("fallback", "art.svg")])).
  - reflexivity.
  - do 3 eexists. repeat split; reflexivity.
  - vm_compute. intros H. discriminate H.
  - discriminate.
Defined.

(** X5. [replaceImageWithProgressive] on an element that is already
    loading stores the formats on the element and requests nothing: the
    pending probes, with the candidate lists they captured, the timers,
    the log and the loading set are as before. *)
Theorem X5_replace_while_loading_requests_nothing
    (s : loader) (img : nat) (el : element) (formats : formats_arg) :
  nodes s !! img = Some el → attached (nodes s) img → img ∈ loadingImages s →
  ∃ s' el',
    replaceImageWithProgressive img formats s = Ret tt s' ∧
    nodes s' !! img = Some el' ∧
    dataset el' = stored_formats formats (dataset el) ∧
    probes s' = probes s ∧ timers s' = timers s ∧ log s' = log s ∧
    loadingImages s' = loadingImages s ∧ loadedImages s' = loadedImages s.
Proof.
  intros Hel Hatt Hin.
  destruct (replaceImageWithProgressive_prepares s img el formats Hel Hatt)
    as (c & ns1 & el1 & cel1 & Heq & _ & H1 & _ & _ & _ & Hd & _).
  rewrite Heq, loadImageProgressive_busy by done.
  by eexists _, el1.
Qed.

(** The gallery image while its first probe is in flight. *)
Lemma X5_witness :
  ∃ s' el',
    replaceImageWithProgressive 3 (FormatLegacy "art.png") loading_gallery = Ret tt s' ∧
    nodes s' !! 3 = Some el' ∧
    dataset el' =
      stored_formats (FormatLegacy "art.png")
        (list_to_map [("webp", "art.webp"); ("jpg", "art.jpg"); ("fallback", "art.svg")]) ∧
    probes s' = probes loading_gallery ∧ timers s' = timers loading_gallery ∧
    log s' = log loading_gallery ∧
    loadingImages s' = loadingImages loading_gallery ∧
    loadedImages s' = loadedImages loading_gallery.
Proof.
  refine (X5_replace_while_loading_requests_nothing loading_gallery 3
            (Element "IMG" [] (Some 4) legacy_url "" false
               (list_to_map [("webp", "art.webp"); ("jpg", "art.jpg");
                             ("fallback", "art.svg")]))
            (FormatLegacy "art.png") _ _ _).
  - vm_compute. reflexivity.
  - do 3 eexists. repeat split; vm_compute; reflexivity.
  - vm_compute. reflexivity.
Defined.

(** ** The scan of the document *)

(** [replaceImageWithProgressive] on an attached element that has a
    source of its own returns, and the element is loading afterwards. *)
Lemma replaceImageWithProgressive_starts s img el formats u :
  nodes s !! img = Some el → attached (nodes s) img →
  truthy (srcOrData el) = Some u →
  ∃ s', replaceImageWithProgressive img formats s = Ret tt s' ∧
    scan_kept s s' ∧ loadingImages s' = {[img]} ∪ loadingImages s.
Proof.
  intros Hel Hatt Hu.
  pose proof (step_attached_kept (Replace img formats) s) as Hkept. simpl in Hkept.
  destruct (replaceImageWithProgressive_prepares s img el formats Hel Hatt)
    as (c & ns1 & el1 & cel1 & Heq & Hcont & H1 & _ & _ & Hsrc & Hd & _ & _ & _ & Hrel).
  destruct (candidates_sourced el1 u) as [u0 Hu0].
  { unfold srcOrData in *. by rewrite Hsrc, Hd, stored_formats_other. }
  rewrite Heq in Hkept |- *.
  rewrite (loadImageProgressive_contained _ img c el1 u0) in Hkept |- * by done.
  simpl loadingImages in *.
  destruct (bool_decide_reflect (img ∈ loadingImages s)) as [Hin|Hin];
    (eexists; split; [reflexivity|]); simpl in *.
  - split; [repeat split; done|].
    symmetry. apply subseteq_union_1_L. by apply singleton_subseteq_l.
  - split; [|done]. repeat split; try done; [apply union_subseteq_r|].
    by apply prefix_app_r.
Qed.

(** A source that the image map resolves is not empty. *)
Lemma resolveFormats_truthy nativeText k formats :
  resolveFormats nativeText k = Some formats → ∃ u, truthy k = Some u.
Proof.
  unfold resolveFormats, imageMap_partial.
  destruct (truthy k) as [u|] eqn:Hk; [by eexists|].
  destruct k as [k|]; simpl in *; [|done].
  destruct (bool_decide_reflect (k = "")) as [->|]; [|done].
  vm_compute. done.
Qed.

Lemma srcOrData_same i el el' : same_source i el el' → srcOrData el' = srcOrData el.
Proof. intros (_ & Hs & Hd & _). unfold srcOrData. by rewrite Hs, Hd. Qed.

Lemma mapped_same nativeText s s' i :
  nodes_rel same_source s s' → mapped nativeText (nodes s) i = true →
  mapped nativeText (nodes s') i = true.
Proof.
  intros Hrel. unfold mapped.
  destruct (nodes s !! i) as [el|] eqn:Hel; [|done].
  destruct (Hrel i el Hel) as (el' & -> & Hsame).
  by rewrite (srcOrData_same i el el').
Qed.

(** An image of the document has a parent element. *)
Lemma query_img_attached ns i : i ∈ query_img ns → attached ns i.
Proof.
  unfold query_img. rewrite list_elem_of_filter.
  intros [Hq _]. apply andb_prop_elim in Hq as [Hdoc Himg].
  unfold in_document, is_img in *.
  destruct (ns !! i) as [el|] eqn:Hel; [|done].
  destruct (length ns) as [|n]; [done|]. simpl in Hdoc. rewrite Hel in Hdoc.
  destruct (parentElement el) as [p|] eqn:Hp.
  - destruct (ns !! p) as [pel|] eqn:Hpel; [by exists el, p, pel|].
    assert (Hnil : inclusiveAncestors n ns p = []).
    { destruct n; simpl; [done|]. by rewrite Hpel. }
    rewrite Hnil in Hdoc. simpl in Hdoc. rewrite Hel in Hdoc.
    apply bool_decide_unpack in Hdoc. apply bool_decide_unpack in Himg. congruence.
  - simpl in Hdoc. rewrite Hel in Hdoc.
    apply bool_decide_unpack in Hdoc. apply bool_decide_unpack in Himg. congruence.
Qed.

(** The loop of the scan over a list of attached elements. *)
Lemma scan_loop nativeText l s :
  (∀ x, x ∈ l → attached (nodes s) x) →
  ∃ s', forEach (replaceExternalImage nativeText) l s = Ret tt s' ∧
    scan_kept s s' ∧
    (∀ x, x ∈ l → mapped nativeText (nodes s) x = true → x ∈ loadingImages s') ∧
    (∀ x, x ∈ loadingImages s' →
          x ∈ loadingImages s ∨ (x ∈ l ∧ mapped nativeText (nodes s) x = true)).
Proof.
  revert s. induction l as [|x l IH]; intros s Hatt.
  - exists s. split; [done|]. split; [reflexivity|]. split; [by intros ? ?%elem_of_nil|].
    intros; by left.
  - assert (Hx : attached (nodes s) x) by (apply Hatt; by left).
    destruct (Hx) as (el & p & pel & Hel & _).
    assert (Hhead : ∃ s1, replaceExternalImage nativeText x s = Ret tt s1 ∧
              scan_kept s s1 ∧
              (mapped nativeText (nodes s) x = true → x ∈ loadingImages s1) ∧
              (∀ y, y ∈ loadingImages s1 →
                    y ∈ loadingImages s ∨ (y = x ∧ mapped nativeText (nodes s) x = true))).
    { unfold replaceExternalImage, bind, mapped. rewrite (getNode_Some _ _ _ Hel), Hel.
      destruct (resolveFormats nativeText (srcOrData el)) as [formats|] eqn:Hres.
      - destruct (resolveFormats_truthy _ _ _ Hres) as [u Hu].
        destruct (replaceImageWithProgressive_starts s x el formats u Hel Hx Hu)
          as (s1 & -> & Hk & Hl).
        exists s1. split; [done|]. split; [done|]. rewrite Hl.
        split; [intros _; apply elem_of_union_l; by apply elem_of_singleton|].
        intros y [->%elem_of_singleton|Hy]%elem_of_union; [right|by left].
        split; [done|]. apply bool_decide_eq_true_2. by eexists.
      - exists s. split; [done|]. split; [reflexivity|].
        split; [intros H%bool_decide_eq_true_1; by destruct H|by left]. }
    destruct Hhead as (s1 & Hs1 & Hk1 & Hin1 & Hout1).
    destruct (IH s1) as (s' & Hs' & Hk' & Hin' & Hout').
    { intros y Hy. destruct Hk1 as (_ & _ & _ & _ & _ & _ & _ & Hak & _).
      apply Hak, Hatt. by right. }
    exists s'. simpl forEach. unfold bind. rewrite Hs1.
    split; [done|]. split; [by etransitivity|]. split.
    + intros y Hy Hm. apply elem_of_cons in Hy as [->|Hy].
      * destruct Hk' as (_ & _ & _ & _ & _ & Hsub & _). by apply Hsub, Hin1.
      * apply Hin'; [done|]. destruct Hk1 as (_ & _ & _ & _ & _ & _ & _ & _ & Hrel).
        by eapply mapped_same.
    + intros y Hy. destruct (Hout' y Hy) as [Hy1|[Hyl Hm]].
      * destruct (Hout1 y Hy1) as [?|[-> ?]]; [by left|right]. split; [by left|done].
      * right. split; [by right|].
        (* the source of [y] in [s1] is its source in [s] *)
        unfold mapped in *.
        destruct (nodes s !! y) as [ely|] eqn:Hely.
        -- destruct Hk1 as (_ & _ & _ & _ & _ & _ & _ & _ & Hrel).
           destruct (Hrel y ely Hely) as (ely' & Hely' & Hsame).
           rewrite Hely' in Hm. by rewrite <- (srcOrData_same y ely ely').
        -- destruct (Hatt y) as (? & ? & ? & ? & _); [by right|congruence].
Qed.

(** X6. [replaceExternalImages] returns normally on every document.
    Afterwards the loading set is the one before together with every
    image of the document whose source the image map resolves, also one
    that had been loaded already; the loaded set, the failure records,
    the timers and the registrations are untouched, and every probe that
    was pending is still pending at the same place. *)
Theorem X6_scan_starts_every_mapped_image (nativeText : string → string) (s : loader) :
  ∃ s', replaceExternalImages nativeText s = Ret tt s' ∧
    (∀ i, i ∈ loadingImages s' ↔
          i ∈ loadingImages s ∨
          (i ∈ query_img (nodes s) ∧ mapped nativeText (nodes s) i = true)) ∧
    loadedImages s' = loadedImages s ∧ failedImages s' = failedImages s ∧
    retryAttempts s' = retryAttempts s ∧ timers s' = timers s ∧
    observed s' = observed s ∧
    probes s `prefix_of` probes s'.
Proof.
  unfold replaceExternalImages, bind, gets.
  destruct (scan_loop nativeText (query_img (nodes s)) s)
    as (s' & Hs' & (F & R & T & L & O & G & P & _ & _) & Hin & Hout);
    [apply query_img_attached|].
  exists s'. split; [done|]. split; [|done].
  intros i. split; [apply Hout|].
  intros [Hi|[Hi Hm]]; [by apply G|by apply Hin].
Qed.

(** ** Refreshing *)

Lemma refreshImages_core_spec nativeText s :
  ∃ s', refreshImages_core nativeText s = Ret tt s' ∧
    failedImages s' = ∅ ∧ retryAttempts s' = ∅ ∧
    (∀ i, i ∈ loadingImages s' ↔
          i ∈ query_img (nodes s) ∧ mapped nativeText (nodes s) i = true) ∧
    loadedImages s' = loadedImages s ∧ timers s' = timers s ∧
    observed s' = observed s ∧
    probes s `prefix_of` probes s'.
Proof.
  unfold refreshImages_core, replaceExternalImages, bind, gets, modify.
  simpl nodes.
  destruct (scan_loop nativeText (query_img (nodes s))
              (with_retryAttempts (λ _, ∅)
                 (with_failedImages (λ _, ∅) (with_loadingImages (λ _, ∅) s))))
    as (s' & Hs' & (F & R & T & L & O & G & P & _ & _) & Hin & Hout);
    [apply query_img_attached|].
  exists s'. split; [exact Hs'|]. simpl in *.
  split; [done|]. split; [done|]. split; [|done].
  intros i. split.
  - intros Hi. destruct (Hout i Hi) as [Hi'|?]; [|done]. by apply elem_of_empty in Hi'.
  - intros [Hi Hm]. by apply Hin.
Qed.

(** X7. [refreshImages] returns normally and installs one more [error]
    listener.  It empties the failure records and the retry counters;
    the loading set becomes exactly the images of the document whose
    source the image map resolves; the loaded set is kept; and nothing
    that was pending is cancelled: the timers are as before and every
    pending probe is still pending at the same place. *)
Theorem X7_refresh_resets_but_cancels_nothing
    (nativeText : string → string) (σ : session) :
  (refreshImages nativeText σ).2 = false ∧
  let σ' := (refreshImages nativeText σ).1 in
  errorListeners σ' = S (errorListeners σ) ∧
  lazyObserver σ' = lazyObserver σ ∧
  failedImages (core σ') = ∅ ∧ retryAttempts (core σ') = ∅ ∧
  (∀ i, i ∈ loadingImages (core σ') ↔
        i ∈ query_img (nodes (core σ)) ∧ mapped nativeText (nodes (core σ)) i = true) ∧
  loadedImages (core σ') = loadedImages (core σ) ∧
  timers (core σ') = timers (core σ) ∧
  observed (core σ') = observed (core σ) ∧
  probes (core σ) `prefix_of` probes (core σ').
Proof.
  unfold refreshImages.
  destruct (refreshImages_core_spec nativeText (core σ)) as (s' & -> & H).
  simpl. split; [done|]. split; [done|]. split; [done|]. exact H.
Qed.

(** ** Registration with the lazy observer *)

Lemma tree_same_refl i e : tree_same i e e.
Proof. by repeat split. Qed.

Global Instance tree_same_preorder : PreOrder (nodes_rel tree_same).
Proof.
  apply nodes_rel_preorder_gen.
  - apply tree_same_refl.
  - intros i e1 e2 e3 (? & ? & ? & ? & ? & ?) (? & ? & ? & ? & ? & ?).
    repeat split; congruence.
Qed.

Global Instance setup_kept_preorder : PreOrder setup_kept.
Proof.
  split.
  - intros s. repeat split; reflexivity.
  - intros a b c (A1 & B1 & C1 & D1 & E1 & F1 & G1 & H1 & I1 & J1)
                 (A2 & B2 & C2 & D2 & E2 & F2 & G2 & H2 & I2 & J2).
    repeat split; try congruence; by etransitivity.
Qed.

Global Instance registered_from_preorder A : PreOrder (registered_from A).
Proof.
  split.
  - intros s i Hi. by left.
  - intros a b c H1 H2 i Hi. destruct (H2 i Hi) as [Hb|?]; [by apply H1|by right].
Qed.

Global Instance skipped_kept_preorder i : PreOrder (skipped_kept i).
Proof.
  split.
  - intros s Hs. by split.
  - intros a b c H1 H2 Ha. destruct (H1 Ha) as [Hb Hob].
    destruct (H2 Hb) as [Hc Hoc]. split; auto.
Qed.

(** The body of the card loop of [setupLazyLoading]. *)
Lemma card_body_setup_kept img :
  respects setup_kept
    (el <- getNode img ;;
     if negb (complete el) && negb (bool_decide (is_Some (truthy (dataset el !! "observed"))))
     then updNode img (set_dataset <["observed" := "true"]>) ;; observe img
     else ret tt).
Proof.
  unfold updNode, observe.
  respects_with ltac:(
    apply respects_modify; intros ?; unfold setup_kept; simpl;
    repeat split; try reflexivity;
    first [ apply union_subseteq_r
          | by rewrite length_alter
          | apply nodes_rel_alter; [apply tree_same_refl|];
            intros ?; repeat split; simpl; by rewrite lookup_insert_ne
          | apply nodes_rel_same; [apply tree_same_refl|reflexivity] ]).
Qed.

Lemma card_body_registered (A : nat → Prop) img :
  A img →
  respects (registered_from A)
    (el <- getNode img ;;
     if negb (complete el) && negb (bool_decide (is_Some (truthy (dataset el !! "observed"))))
     then updNode img (set_dataset <["observed" := "true"]>) ;; observe img
     else ret tt).
Proof.
  intros HA. unfold updNode, observe.
  respects_with ltac:(
    apply respects_modify; intros ? ?; simpl;
    first [ by left
          | intros [->%elem_of_singleton|?]%elem_of_union; [by right|by left] ]).
Qed.

Lemma card_body_skipped i img :
  respects (skipped_kept i)
    (el <- getNode img ;;
     if negb (complete el) && negb (bool_decide (is_Some (truthy (dataset el !! "observed"))))
     then updNode img (set_dataset <["observed" := "true"]>) ;; observe img
     else ret tt).
Proof.
  intros s. unfold bind, getNode.
  destruct (nodes s !! img) as [el|] eqn:Hel; [|by intros ?].
  destruct (negb (complete el) &&
            negb (bool_decide (is_Some (truthy (dataset el !! "observed"))))) eqn:Hc;
    [|by intros ?].
  simpl. intros (eli & Heli & Hskip).
  assert (Hne : img ≠ i).
  { intros ->. rewrite Hel in Heli. injection Heli as <-.
    apply andb_true_iff in Hc as [Hc1 Hc2].
    apply negb_true_iff in Hc1. apply negb_true_iff in Hc2.
    destruct Hskip as [Hk|Hk]; [congruence|].
    by rewrite bool_decide_eq_true_2 in Hc2. }
  unfold updNode, observe, bind, modify. simpl. split.
  - exists eli. by rewrite list_lookup_alter_ne.
  - intros [Hi%elem_of_singleton|Hi]%elem_of_union; [congruence|done].
Qed.

Lemma observe_all l s :
  ∃ s', forEach observe l s = Ret tt s' ∧ setup_kept s s' ∧ nodes s' = nodes s ∧
    ∀ i, i ∈ observed s' ↔ i ∈ l ∨ i ∈ observed s.
Proof.
  revert s. induction l as [|x l IH]; intros s.
  - exists s. split; [done|]. split; [reflexivity|]. split; [done|].
    intros i. rewrite elem_of_nil. tauto.
  - destruct (IH (with_observed (λ o, {[x]} ∪ o) s)) as (s' & Hs' & Hk & Hn & Hobs).
    exists s'. split; [exact Hs'|]. split; [|split; [exact Hn|]].
    + etransitivity; [|exact Hk]. repeat split; try reflexivity;
        first [ apply union_subseteq_r
              | by apply nodes_rel_same; [apply tree_same_refl|] ].
    + intros i. rewrite Hobs. simpl. rewrite elem_of_union, elem_of_singleton, elem_of_cons.
      tauto.
Qed.

Lemma card_loop_returns l s :
  (∀ x, x ∈ l → is_Some (nodes s !! x)) →
  ∃ s',
    forEach (λ img,
      el <- getNode img ;;
      if negb (complete el) && negb (bool_decide (is_Some (truthy (dataset el !! "observed"))))
      then updNode img (set_dataset <["observed" := "true"]>) ;; observe img
      else ret tt) l s = Ret tt s'.
Proof.
  revert s. induction l as [|x l IH]; intros s Hl; [by exists s|].
  pose proof (card_body_setup_kept x s) as Hk.
  simpl forEach. unfold bind at 1.
  destruct (Hl x) as [el Hel]; [by left|].
  unfold bind at 1 in Hk. unfold bind at 1.
  rewrite (getNode_Some _ _ _ Hel) in Hk |- *.
  destruct (negb (complete el) &&
            negb (bool_decide (is_Some (truthy (dataset el !! "observed"))))).
  - simpl in Hk |- *. apply IH. intros y Hy.
    destruct Hk as (_ & _ & _ & _ & _ & _ & _ & _ & _ & Hrel).
    destruct (Hl y) as [ely Hely]; [by right|].
    destruct (Hrel y ely Hely) as (ely' & Hely' & _). by eexists.
  - simpl. apply IH. intros y Hy. apply Hl. by right.
Qed.

Lemma query_cards_img ns i : i ∈ query_cards ns → i ∈ query_img ns.
Proof.
  unfold query_cards, query_img. rewrite !list_elem_of_filter.
  intros [H Hs]. split; [|done].
  apply andb_prop_elim in H as [H _]. done.
Qed.

Lemma query_lazy_img ns i : i ∈ query_lazy ns → i ∈ query_img ns.
Proof.
  unfold query_lazy, query_img. rewrite !list_elem_of_filter.
  intros [H Hs]. split; [|done].
  apply andb_prop_elim in H as [H _]. done.
Qed.

Lemma query_img_lookup ns i : i ∈ query_img ns → is_Some (ns !! i).
Proof.
  intros H. destruct (query_img_attached ns i H) as (el & _ & _ & Hel & _). by eexists.
Qed.

(** [setupLazyLoading] as a whole. *)
Lemma setupLazyLoading_spec s :
  ∃ s', setupLazyLoading s = Ret tt s' ∧ setup_kept s s' ∧
    (∀ i, i ∈ query_lazy (nodes s) → i ∈ observed s') ∧
    (∀ i, i ∈ observed s' →
          i ∈ observed s ∨ i ∈ query_lazy (nodes s) ∨ i ∈ query_cards (nodes s)) ∧
    (∀ i, skipped (nodes s) i → i ∉ query_lazy (nodes s) → i ∉ observed s →
          i ∉ observed s').
Proof.
  unfold setupLazyLoading, bind at 1, gets at 1. unfold bind at 1.
  destruct (observe_all (query_lazy (nodes s)) s) as (s1 & -> & Hk1 & Hn1 & Hobs1).
  unfold bind at 1, gets at 1. rewrite Hn1.
  set (body := λ img : nat,
      el <- getNode img ;;
      if negb (complete el) && negb (bool_decide (is_Some (truthy (dataset el !! "observed"))))
      then updNode img (set_dataset <["observed" := "true"]>) ;; observe img
      else ret tt).
  destruct (card_loop_returns (query_cards (nodes s)) s1) as [s' Hs'].
  { intros x Hx. rewrite Hn1. by apply query_img_lookup, query_cards_img. }
  fold body in Hs'. exists s'. split; [exact Hs'|].
  assert (Hk2 : setup_kept s1 s').
  { pose proof (respects_forEach setup_kept body (query_cards (nodes s))
                  card_body_setup_kept s1) as H. by rewrite Hs' in H. }
  assert (Hr2 : registered_from (λ i, i ∈ query_cards (nodes s)) s1 s').
  { pose proof (respects_forEach_in (registered_from (λ i, i ∈ query_cards (nodes s)))
                  body (query_cards (nodes s))) as H.
    specialize (H (λ x Hx, card_body_registered _ x Hx) s1). by rewrite Hs' in H. }
  split; [by etransitivity|]. split; [|split].
  - intros i Hi. destruct Hk2 as (_ & _ & _ & _ & _ & _ & _ & Hsub & _).
    apply Hsub, Hobs1. by left.
  - intros i Hi. destruct (Hr2 i Hi) as [Hi1|?]; [|by right; right].
    apply Hobs1 in Hi1 as [?|?]; [by right; left|by left].
  - intros i Hskip Hlazy Hobs Hi.
    pose proof (respects_forEach (skipped_kept i) body (query_cards (nodes s))
                  (card_body_skipped i) s1) as H.
    rewrite Hs' in H. unfold skipped_kept in H. simpl in H. rewrite Hn1 in H.
    destruct (H Hskip) as [_ Hback].
    apply Hback, Hobs1 in Hi as [?|?]; done.
Qed.

(** X8. [setupLazyLoading] returns normally and starts no load: the
    loading set, the probes, the timers and the log are as before.  It
    registers every image of the document that has a [data-src] attribute
    or the class [lazy-load]; whatever else it registers is an image of
    the document inside one of the three kinds of card; and an image that
    is complete, or already flagged as observed, and is not marked for
    lazy loading, is not registered. *)
Theorem X8_setupLazyLoading_only_registers (s : loader) :
  ∃ s', setupLazyLoading s = Ret tt s' ∧
    loadingImages s' = loadingImages s ∧ probes s' = probes s ∧
    timers s' = timers s ∧ log s' = log s ∧
    (∀ i, i ∈ query_lazy (nodes s) → i ∈ observed s') ∧
    (∀ i, i ∈ observed s' →
          i ∈ observed s ∨ i ∈ query_lazy (nodes s) ∨ i ∈ query_cards (nodes s)) ∧
    (∀ i, skipped (nodes s) i → i ∉ query_lazy (nodes s) → i ∉ observed s →
          i ∉ observed s').
Proof.
  destruct (setupLazyLoading_spec s)
    as (s' & Hs' & (A & _ & _ & _ & E & F & G & _) & H1 & H2 & H3).
  exists s'. repeat split; assumption.
Qed.

(** ** Construction *)

(** A call that only registers elements does not change which elements
    are images of the document, nor which of them are mapped. *)
Lemma setup_kept_lookup s s' i :
  setup_kept s s' →
  match nodes s !! i, nodes s' !! i with
  | Some e, Some e' => tree_same i e e'
  | None, None => True
  | _, _ => False
  end.
Proof.
  intros (_ & _ & _ & _ & _ & _ & _ & _ & Hlen & Hrel).
  destruct (nodes s !! i) as [e|] eqn:He.
  - destruct (Hrel i e He) as (e' & -> & Hsame). exact Hsame.
  - apply lookup_ge_None in He. rewrite <- Hlen in He.
    apply lookup_ge_None in He. by rewrite He.
Qed.

Lemma setup_kept_ancestors s s' fuel i :
  setup_kept s s' →
  inclusiveAncestors fuel (nodes s') i = inclusiveAncestors fuel (nodes s) i.
Proof.
  intros Hk. revert i. induction fuel as [|fuel IH]; intros i; [done|]. simpl.
  pose proof (setup_kept_lookup s s' i Hk) as Hi.
  destruct (nodes s !! i) as [e|], (nodes s' !! i) as [e'|]; try done.
  destruct Hi as (_ & -> & _). destruct (parentElement e); [|done]. by rewrite IH.
Qed.

Lemma setup_kept_is_img s s' i :
  setup_kept s s' → is_img (nodes s') i = is_img (nodes s) i.
Proof.
  intros Hk. unfold is_img. pose proof (setup_kept_lookup s s' i Hk) as Hi.
  destruct (nodes s !! i) as [e|], (nodes s' !! i) as [e'|]; try done.
  destruct Hi as (-> & _). done.
Qed.

Lemma setup_kept_in_document s s' i :
  setup_kept s s' → in_document (nodes s') i = in_document (nodes s) i.
Proof.
  intros Hk. unfold in_document.
  destruct Hk as (A & B & C & D & E & F & G & H & Hlen & Hrel).
  rewrite Hlen.
  rewrite (setup_kept_ancestors s s') by (repeat split; assumption).
  destruct (last (inclusiveAncestors (length (nodes s)) (nodes s) i)) as [r|]; [|done].
  pose proof (setup_kept_lookup s s' r) as Hr.
  destruct (nodes s !! r) as [e|], (nodes s' !! r) as [e'|];
    try (by destruct Hr; repeat split).
  destruct Hr as (-> & _); [by repeat split|done].
Qed.

Lemma setup_kept_query_img s s' :
  setup_kept s s' → query_img (nodes s') = query_img (nodes s).
Proof.
  intros Hk. unfold query_img.
  assert (Hlen : length (nodes s') = length (nodes s)) by apply Hk.
  rewrite Hlen. apply list_filter_iff. intros i.
  by rewrite (setup_kept_in_document s s'), (setup_kept_is_img s s').
Qed.

Lemma setup_kept_mapped nativeText s s' i :
  setup_kept s s' → mapped nativeText (nodes s') i = mapped nativeText (nodes s) i.
Proof.
  intros Hk. unfold mapped. pose proof (setup_kept_lookup s s' i Hk) as Hi.
  destruct (nodes s !! i) as [e|], (nodes s' !! i) as [e'|]; try done.
  destruct Hi as (_ & _ & _ & _ & Hs & Hd). unfold srcOrData. by rewrite Hs, Hd.
Qed.

(** X9. The constructor never throws, whatever the document, and leaves
    exactly one [error] listener installed.  Every image of the document
    whose source the image map resolves is loading when it returns,
    whether or not the image is also registered for lazy loading; nothing
    is loaded or failed yet and no timer is pending.  With an
    [IntersectionObserver] every image marked for lazy loading is
    registered; without one nothing is. *)
Theorem X9_constructor_loads_mapped_images_eagerly
    (nativeText : string → string) (supportsIO : bool) (ns : list element) :
  (construct nativeText supportsIO ns).2 = false ∧
  let σ := (construct nativeText supportsIO ns).1 in
  errorListeners σ = 1 ∧ lazyObserver σ = supportsIO ∧
  (∀ i, i ∈ loadingImages (core σ) ↔
        i ∈ query_img ns ∧ mapped nativeText ns i = true) ∧
  loadedImages (core σ) = ∅ ∧ failedImages (core σ) = ∅ ∧
  retryAttempts (core σ) = ∅ ∧ timers (core σ) = [] ∧
  (if supportsIO then ∀ i, i ∈ query_lazy ns → i ∈ observed (core σ)
   else observed (core σ) = ∅).
Proof.
  unfold construct.
  assert (Hsetup : ∃ s1,
    (if supportsIO then setupLazyLoading else ret tt) (new_loader ns) = Ret tt s1 ∧
    setup_kept (new_loader ns) s1 ∧
    (if supportsIO then ∀ i, i ∈ query_lazy ns → i ∈ observed s1
     else observed s1 = ∅)).
  { destruct supportsIO.
    - destruct (setupLazyLoading_spec (new_loader ns)) as (s1 & Hs1 & Hk & Hl & _).
      by exists s1.
    - exists (new_loader ns). split; [done|]. split; [reflexivity|done]. }
  destruct Hsetup as (s1 & -> & Hk & Hobs).
  destruct (scan_loop nativeText (query_img (nodes s1)) s1)
    as (s' & Hs' & (F & R & T & L & O & G & P & _ & _) & Hin & Hout);
    [apply query_img_attached|].
  unfold replaceExternalImages, bind, gets. rewrite Hs'. simpl.
  destruct Hk as (A1 & B1 & C1 & D1 & E1 & F1 & G1 & H1 & I1 & J1).
  assert (Hk : setup_kept (new_loader ns) s1) by (repeat split; assumption).
  split; [done|]. split; [done|]. split; [done|]. split; [|split; [|split; [|split; [|split]]]].
  - intros i.
    change (mapped nativeText ns i) with (mapped nativeText (nodes (new_loader ns)) i).
    change (query_img ns) with (query_img (nodes (new_loader ns))).
    rewrite <- (setup_kept_mapped nativeText _ s1 i Hk).
    rewrite <- (setup_kept_query_img _ s1 Hk). split.
    + intros Hi. destruct (Hout i Hi) as [Hi'|?]; [|done].
      rewrite A1 in Hi'. by apply elem_of_empty in Hi'.
    + intros [? ?]. by apply Hin.
  - by rewrite L, B1.
  - by rewrite F, C1.
  - by rewrite R, D1.
  - by rewrite T, F1.
  - rewrite O. exact Hobs.
Qed.

Lemma construct_returns nativeText supportsIO ns :
  (construct nativeText supportsIO ns).2 = false ∧
  errorListeners (construct nativeText supportsIO ns).1 = 1.
Proof.
  unfold construct. destruct supportsIO.
  - destruct (setupLazyLoading_spec (new_loader ns)) as (s1 & -> & _).
    destruct (scan_loop nativeText (query_img (nodes s1)) s1) as (s' & Hs' & _);
      [apply query_img_attached|].
    unfold replaceExternalImages, bind, gets. by rewrite Hs'.
  - unfold ret.
    destruct (scan_loop nativeText (query_img ns) (new_loader ns)) as (s' & Hs' & _);
      [apply query_img_attached|].
    unfold replaceExternalImages, bind, gets. simpl nodes. by rewrite Hs'.
Qed.

Lemma refreshImages_returns nativeText σ :
  (refreshImages nativeText σ).2 = false ∧
  errorListeners (refreshImages nativeText σ).1 = S (errorListeners σ) ∧
  retryAttempts (core (refreshImages nativeText σ).1) = ∅ ∧
  nodes_rel same_source (core σ) (core (refreshImages nativeText σ).1) ∧
  attached_kept (core σ) (core (refreshImages nativeText σ).1).
Proof.
  unfold refreshImages, refreshImages_core, replaceExternalImages, bind, gets, modify.
  simpl nodes.
  destruct (scan_loop nativeText (query_img (nodes (core σ)))
              (with_retryAttempts (λ _, ∅)
                 (with_failedImages (λ _, ∅) (with_loadingImages (λ _, ∅) (core σ)))))
    as (s' & -> & (F & R & T & L & O & G & P & Ha & Hn) & _);
    [apply query_img_attached|].
  simpl. repeat split; try done.
Qed.

Lemma listeners_count nativeText supportsIO ns n :
  errorListeners (Nat.iter n (λ σ, (refreshImages nativeText σ).1)
                    (construct nativeText supportsIO ns).1) = S n.
Proof.
  induction n as [|n IH].
  - apply construct_returns.
  - rewrite Nat.iter_succ.
    destruct (refreshImages_returns nativeText
                (Nat.iter n (λ σ, (refreshImages nativeText σ).1)
                   (construct nativeText supportsIO ns).1)) as (_ & -> & _).
    by rewrite IH.
Qed.

(** X10. Every call of [refreshImages] installs one more [error]
    listener on the document and none is ever removed: after the
    constructor and [n] refreshes, [n + 1] listeners run for each [error]
    event, and neither the constructor nor any refresh has thrown. *)
Theorem X10_error_listeners_accumulate
    (nativeText : string → string) (supportsIO : bool) (ns : list element) (n : nat) :
  let σ := Nat.iter n (λ σ, (refreshImages nativeText σ).1)
                    (construct nativeText supportsIO ns).1 in
  errorListeners σ = S n ∧
  (∀ target, dispatchError target σ =
     ((Session (exec (replicate (S n) (ImgError target)) (core σ))
               (lazyObserver σ) (S n)),
      (run (replicate (S n) (ImgError target)) (core σ)).2)) ∧
  (construct nativeText supportsIO ns).2 = false ∧
  (refreshImages nativeText σ).2 = false.
Proof.
  intros σ.
  assert (Hn : errorListeners σ = S n) by apply listeners_count.
  split; [exact Hn|]. split; [|split].
  - intros target. unfold dispatchError, exec. by rewrite Hn.
  - apply construct_returns.
  - apply refreshImages_returns.
Qed.

(** ** Error events and the retry budget *)

Lemma ImgError_step s t el :
  nodes s !! t = Some el → tagName el = "IMG" →
  step (ImgError t) s = handleImageError t s.
Proof.
  intros Hel Htag. simpl. unfold onDocumentError, bind.
  by rewrite (getNode_Some _ _ _ Hel), bool_decide_eq_true_2.
Qed.

Lemma run_cons e es s :
  run (e :: es) s =
    ((run es (final (step e s))).1, throws (step e s) || (run es (final (step e s))).2).
Proof. reflexivity. Qed.

(** [k] error events on a wrapped image whose budget allows [k] more
    retries: each schedules one retry, with the delay doubling. *)
Lemma error_events_retry k :
  ∀ s t c el n,
    contained (nodes s) t c → nodes s !! t = Some el → tagName el = "IMG" →
    retryCount s (originalSrc el) = n → (n + k ≤ maxRetries)%nat →
    ∃ s', run (replicate k (ImgError t)) s = (s', false) ∧
      nodes s' = nodes s ∧
      retryCount s' (originalSrc el) = (n + k)%nat ∧
      timers s' = timers s ++ ((λ i, TimerRetry t (2 ^ i * 1000)) <$> seq n k) ∧
      log s' = log s ++ ((λ i, Schedule t (2 ^ i * 1000)) <$> seq n k) ∧
      loadingImages s' = loadingImages s ∧ loadedImages s' = loadedImages s ∧
      probes s' = probes s.
Proof.
  induction k as [|k IH]; intros s t c el n Hc Hel Htag Hn Hle.
  - exists s. simpl. rewrite !app_nil_r, Nat.add_0_r. done.
  - assert (Hlt : retryCount s (originalSrc el) < maxRetries) by lia.
    pose proof (handleImageError_retry s t c el Hc Hel Hlt) as Hstep.
    rewrite <- (ImgError_step s t el Hel Htag) in Hstep. rewrite Hn in Hstep.
    match type of Hstep with _ = Ret tt ?x => set (s1 := x) in * end.
    destruct (IH s1 t c el (S n)) as (s' & Hrun & Hnodes & Hcount & Ht & Hl & HL & HD & HP);
      try done.
    + unfold s1, retryCount. simpl. rewrite lookup_insert_eq. simpl. lia.
    + lia.
    + exists s'. simpl replicate. rewrite (run_cons_ret _ _ _ _ Hstep), Hrun.
      split; [done|]. split; [by rewrite Hnodes|]. split; [rewrite Hcount; lia|].
      rewrite Ht, Hl, HL, HD, HP. simpl. rewrite <- !app_assoc. done.
Qed.

(** Four error events on an attached image with a fresh counter: three
    retries, then the error state. *)
Lemma error_events_exhaust s t el :
  nodes s !! t = Some el → tagName el = "IMG" → attached (nodes s) t →
  retryCount s (originalSrc el) = 0 →
  ∃ s4 el4,
    run (replicate 4 (ImgError t)) s = (s4, false) ∧
    timers s4 = timers s ++ [TimerRetry t 1000; TimerRetry t 2000; TimerRetry t 4000] ∧
    retryCount s4 (originalSrc el) = 3 ∧
    nodes s4 !! t = Some el4 ∧
    src el4 = getContextualPlaceholder (nodes s4) t ∧
    alt el4 = "Image temporarily unavailable" ∧
    "error" ∈ classList el4 ∧
    (t ∉ loadingImages s4) ∧ probes s4 = probes s.
Proof.
  intros Hel Htag Hatt Hzero.
  destruct (ensure_attached s t Hatt) as (c & ns' & Hens & Hcont & Himg & _ & _).
  specialize (Himg el Hel).
  set (s0 := with_nodes (λ _, ns') s) in *.
  assert (Hfirst : step (ImgError t) s = step (ImgError t) s0).
  { rewrite (ImgError_step s t el Hel Htag).
    rewrite (ImgError_step s0 t _ Himg Htag).
    by apply (handleImageError_ensure s t c s0). }
  assert (Hrun : ∀ k, run (replicate (S k) (ImgError t)) s =
                      run (replicate (S k) (ImgError t)) s0).
  { intros k. change (replicate (S k) (ImgError t))
      with (ImgError t :: replicate k (ImgError t)).
    by rewrite !run_cons, Hfirst. }
  destruct (error_events_retry 3 s0 t c (set_parentElement (Some c) el) 0)
    as (s3 & Hrun3 & Hnodes & Hcount & Ht & Hl & HL & HD & HP).
  { exact Hcont. }
  { exact Himg. }
  { exact Htag. }
  { exact Hzero. }
  { unfold maxRetries. lia. }
  destruct (handleImageError_terminal s3 t c (set_parentElement (Some c) el))
    as (s4 & Hs4 & (el4 & Hel4 & Hsrc & Halt & Herr & _) & _ & Hnl & Hra & Hti & Hpr).
  { by rewrite Hnodes. }
  { by rewrite Hnodes. }
  { change (originalSrc (set_parentElement (Some c) el)) with (originalSrc el) in *.
    rewrite Hcount. unfold maxRetries. lia. }
  exists s4, el4.
  rewrite (Hrun 3). change (replicate 4 (ImgError t))
    with (replicate 3 (ImgError t) ++ [ImgError t]).
  rewrite <- (ImgError_step s3 t (set_parentElement (Some c) el)) in Hs4;
    [|by rewrite Hnodes|done].
  rewrite run_app, Hrun3.
  change (run [ImgError t] (s3, false).1) with (run [ImgError t] s3).
  rewrite (run_cons_ret _ _ _ _ Hs4). simpl.
  split; [done|]. split; [by rewrite Hti, Ht|]. split.
  { unfold retryCount in *. by rewrite Hra. }
  split; [done|]. split; [done|]. split; [done|]. split; [done|].
  split; [done|]. by rewrite Hpr, HP.
Qed.

(** X11. Four [error] events in a row on an attached image whose source
    has no retry counter yet: the first three schedule retries after
    1000, 2000 and 4000 ms and leave the counter at three; the fourth
    puts the element in the error state, with the placeholder of its
    context as source and the fallback text as [alt], and takes it out of
    the loading set.  No callback throws and no probe is started. *)
Theorem X11_error_events_back_off_then_give_up
    (s : loader) (t : nat) (el : element) :
  nodes s !! t = Some el → tagName el = "IMG" → attached (nodes s) t →
  retryCount s (originalSrc el) = 0 →
  let r := run (replicate 4 (ImgError t)) s in
  r.2 = false ∧
  timers r.1 = timers s ++ [TimerRetry t 1000; TimerRetry t 2000; TimerRetry t 4000] ∧
  retryCount r.1 (originalSrc el) = 3 ∧
  (∃ el', nodes r.1 !! t = Some el' ∧
     src el' = getContextualPlaceholder (nodes r.1) t ∧
     alt el' = "Image temporarily unavailable" ∧ "error" ∈ classList el') ∧
  (t ∉ loadingImages r.1) ∧ probes r.1 = probes s.
Proof.
  intros Hel Htag Hatt Hzero.
  destruct (error_events_exhaust s t el Hel Htag Hatt Hzero)
    as (s4 & el4 & Hrun & Ht & Hc & Hel4 & Hsrc & Halt & Herr & Hnl & Hp).
  cbv zeta. rewrite Hrun. simpl.
  split; [done|]. split; [done|]. split; [done|]. split; [by exists el4|]. done.
Qed.

(** The gallery image, on a new loader. *)
Lemma X11_witness :
  let r := run (replicate 4 (ImgError 3)) (new_loader doc_gallery) in
  r.2 = false ∧
  timers r.1 = [] ++ [TimerRetry 3 1000; TimerRetry 3 2000; TimerRetry 3 4000] ∧
  retryCount r.1 legacy_url = 3 ∧
  (∃ el', nodes r.1 !! 3 = Some el' ∧
     src el' = getContextualPlaceholder (nodes r.1) 3 ∧
     alt el' = "Image temporarily unavailable" ∧ "error" ∈ classList el') ∧
  (3 ∉ loadingImages r.1) ∧ probes r.1 = [].
Proof.
  apply (X11_error_events_back_off_then_give_up (new_loader doc_gallery) 3
           (img 2 legacy_url [("webp", "art.webp"); ("jpg", "art.jpg");
                              ("fallback", "art.svg")])).
  - reflexivity.
  - reflexivity.
  - do 3 eexists. repeat split; reflexivity.
  - reflexivity.
Defined.

(** X12. Listeners multiply the accounting.  After the constructor and
    three calls of [refreshImages] four listeners are installed; a single
    [error] event on an attached image then runs the handler four times:
    it schedules the retries after 1000, 2000 and 4000 ms and puts the
    element in the error state, all at once. *)
Theorem X12_one_error_event_spends_the_budget_after_three_refreshes
    (nativeText : string → string) (supportsIO : bool) (ns : list element)
    (t : nat) (el : element) :
  let σ := Nat.iter 3 (λ σ, (refreshImages nativeText σ).1)
                    (construct nativeText supportsIO ns).1 in
  nodes (core σ) !! t = Some el → tagName el = "IMG" → attached (nodes (core σ)) t →
  let r := dispatchError t σ in
  r.2 = false ∧
  timers (core r.1) =
    timers (core σ) ++ [TimerRetry t 1000; TimerRetry t 2000; TimerRetry t 4000] ∧
  (∃ el', nodes (core r.1) !! t = Some el' ∧
     src el' = getContextualPlaceholder (nodes (core r.1)) t ∧
     alt el' = "Image temporarily unavailable" ∧ "error" ∈ classList el') ∧
  (t ∉ loadingImages (core r.1)).
Proof.
  intros σ.
  assert (Hn : errorListeners σ = 4)
    by exact (listeners_count nativeText supportsIO ns 3).
  assert (Hra : retryAttempts (core σ) = ∅).
  { subst σ. rewrite Nat.iter_succ.
    apply (refreshImages_returns nativeText
             (Nat.iter 2 (λ σ, (refreshImages nativeText σ).1)
                (construct nativeText supportsIO ns).1)). }
  clearbody σ. intros Hel Htag Hatt.
  assert (Hzero : retryCount (core σ) (originalSrc el) = 0).
  { unfold retryCount. by rewrite Hra, lookup_empty. }
  destruct (error_events_exhaust (core σ) t el Hel Htag Hatt Hzero)
    as (s4 & el4 & Hrun & Ht & Hc & Hel4 & Hsrc & Halt & Herr & Hnl & Hp).
  cbv zeta. unfold dispatchError. rewrite Hn, Hrun. simpl.
  split; [done|]. split; [done|]. split; [by exists el4|done].
Qed.

(** The gallery document: its image is not in the image map, so the
    scans leave it alone. *)
Lemma X12_witness :
  let σ := Nat.iter 3 (λ σ, (refreshImages (λ _, "") σ).1)
                    (construct (λ _, "") true doc_gallery).1 in
  let r := dispatchError 3 σ in
  r.2 = false ∧
  timers (core r.1) =
    timers (core σ) ++ [TimerRetry 3 1000; TimerRetry 3 2000; TimerRetry 3 4000] ∧
  (∃ el', nodes (core r.1) !! 3 = Some el' ∧
     src el' = getContextualPlaceholder (nodes (core r.1)) 3 ∧
     alt el' = "Image temporarily unavailable" ∧ "error" ∈ classList el') ∧
  (3 ∉ loadingImages (core r.1)).
Proof.
  pose proof (X12_one_error_event_spends_the_budget_after_three_refreshes
                (λ _, "") true doc_gallery 3
                (Element "IMG" [] (Some 2) legacy_url "" false
                   (<["observed" := "true"]>
                      (list_to_map [("webp", "art.webp"); ("jpg", "art.jpg");
                                    ("fallback", "art.svg")])))) as H.
  cbv zeta in H |- *. apply H.
  - vm_compute. reflexivity.
  - reflexivity.
  - exists (Element "IMG" [] (Some 2) legacy_url "" false
              (<["observed" := "true"]>
                 (list_to_map [("webp", "art.webp"); ("jpg", "art.jpg");
                               ("fallback", "art.svg")]))),
           2, (div ["artwork-card"] (Some 1)).
    split; [vm_compute; reflexivity|]. split; [reflexivity|].
    vm_compute. reflexivity.
Defined.

(** ** After the error state *)

Lemma attrs_same_refl i e : attrs_same i e e.
Proof. by split. Qed.

Global Instance attrs_same_preorder : PreOrder (nodes_rel attrs_same).
Proof.
  apply nodes_rel_preorder_gen.
  - apply attrs_same_refl.
  - intros i e1 e2 e3 [? ?] [? ?]. split; congruence.
Qed.

Lemma handleImageError_attrs img :
  respects (nodes_rel attrs_same) (handleImageError img).
Proof.
  unfold handleImageError, ensureImageContainer, updNode, emit, setTimeout.
  respects_with ltac:(nodes_leaf ltac:(apply attrs_same_refl) ltac:(by split)).
Qed.

(** An [error] event on a wrapped image that has a [data-src] whose
    budget is spent. *)
Lemma error_state_again s t c el k :
  contained (nodes s) t c → nodes s !! t = Some el → tagName el = "IMG" →
  truthy (dataset el !! "src") = Some k → ¬ (retryCount s k < maxRetries) →
  ∃ s' el',
    step (ImgError t) s = Ret tt s' ∧
    contained (nodes s') t c ∧ nodes s' !! t = Some el' ∧
    tagName el' = "IMG" ∧ dataset el' = dataset el ∧
    src el' = getContextualPlaceholder (nodes s') t ∧
    alt el' = "Image temporarily unavailable" ∧ "error" ∈ classList el' ∧
    (t ∉ loadingImages s') ∧
    retryAttempts s' = retryAttempts s ∧ timers s' = timers s ∧ probes s' = probes s.
Proof.
  intros Hc Hel Htag Hdata Hspent.
  assert (Hkey : originalSrc el = k).
  { unfold originalSrc, js_or. by rewrite Hdata. }
  pose proof (handleImageError_attrs t s) as Hattrs.
  pose proof (step_contained_kept (ImgError t) s t c Hc) as Hkept.
  rewrite (ImgError_step s t el Hel Htag) in Hkept |- *.
  destruct (handleImageError_terminal s t c el Hc Hel)
    as (s' & Hs' & (el' & Hel' & Hsrc & Halt & Herr & _) & _ & Hnl & Hra & Hti & Hpr);
    [by rewrite Hkey|].
  rewrite Hs' in Hattrs, Hkept |- *. simpl in Hattrs, Hkept.
  destruct (Hattrs t el Hel) as (el'' & Hel'' & Htag' & Hdata').
  assert (el'' = el') by congruence. subst el''.
  exists s', el'. repeat split; try done. congruence.
Qed.

Lemma error_state_absorbs n :
  ∀ s t c el k,
    contained (nodes s) t c → nodes s !! t = Some el → tagName el = "IMG" →
    truthy (dataset el !! "src") = Some k → ¬ (retryCount s k < maxRetries) →
    ∃ s' el',
      run (replicate (S n) (ImgError t)) s = (s', false) ∧
      nodes s' !! t = Some el' ∧ dataset el' = dataset el ∧
      src el' = getContextualPlaceholder (nodes s') t ∧
      alt el' = "Image temporarily unavailable" ∧ "error" ∈ classList el' ∧
      (t ∉ loadingImages s') ∧
      retryAttempts s' = retryAttempts s ∧ timers s' = timers s ∧ probes s' = probes s.
Proof.
  induction n as [|n IH]; intros s t c el k Hc Hel Htag Hdata Hspent;
    destruct (error_state_again s t c el k Hc Hel Htag Hdata Hspent)
      as (s1 & el1 & Hs1 & Hc1 & Hel1 & Htag1 & Hdata1 & Hsrc1 & Halt1 & Herr1 & Hnl1 &
          Hra1 & Hti1 & Hpr1).
  - exists s1, el1. change (replicate 1 (ImgError t)) with [ImgError t].
    rewrite (run_cons_ret _ _ _ _ Hs1). by repeat split.
  - destruct (IH s1 t c el1 k Hc1 Hel1 Htag1) as (s' & el' & Hrun & H);
      [by rewrite Hdata1|unfold retryCount in *; by rewrite Hra1|].
    exists s', el'.
    change (replicate (S (S n)) (ImgError t))
      with (ImgError t :: replicate (S n) (ImgError t)).
    rewrite (run_cons_ret _ _ _ _ Hs1), Hrun. split; [done|].
    destruct H as (H1 & H2 & H3 & H4 & H5 & H6 & H7 & H8 & H9).
    repeat split; try done; congruence.
Qed.

(** X13. For an image that has a [data-src], the error state absorbs
    [error] events.  Once the retry budget of its [data-src] is spent,
    any number of further [error] events on the element schedule nothing
    and change no counter and no probe; each applies the placeholder of
    the element's context, the fallback [alt] text and the [error] class,
    and leaves the element out of the loading set.  No callback throws. *)
Theorem X13_error_state_absorbs_error_events
    (s : loader) (t : nat) (el : element) (k : string) (n : nat) :
  nodes s !! t = Some el → tagName el = "IMG" → attached (nodes s) t →
  truthy (dataset el !! "src") = Some k → ¬ (retryCount s k < maxRetries) →
  let r := run (replicate (S n) (ImgError t)) s in
  r.2 = false ∧
  timers r.1 = timers s ∧ probes r.1 = probes s ∧ retryAttempts r.1 = retryAttempts s ∧
  (∃ el', nodes r.1 !! t = Some el' ∧
     src el' = getContextualPlaceholder (nodes r.1) t ∧
     alt el' = "Image temporarily unavailable" ∧ "error" ∈ classList el' ∧
     dataset el' = dataset el) ∧
  (t ∉ loadingImages r.1).
Proof.
  intros Hel Htag Hatt Hdata Hspent.
  destruct (ensure_attached s t Hatt) as (c & ns' & Hens & Hcont & Himg & _ & _).
  specialize (Himg el Hel).
  set (s0 := with_nodes (λ _, ns') s) in *.
  assert (Hfirst : step (ImgError t) s = step (ImgError t) s0).
  { rewrite (ImgError_step s t el Hel Htag).
    rewrite (ImgError_step s0 t _ Himg Htag).
    by apply (handleImageError_ensure s t c s0). }
  assert (Hrun : run (replicate (S n) (ImgError t)) s =
                 run (replicate (S n) (ImgError t)) s0).
  { change (replicate (S n) (ImgError t))
      with (ImgError t :: replicate n (ImgError t)).
    by rewrite !run_cons, Hfirst. }
  destruct (error_state_absorbs n s0 t c (set_parentElement (Some c) el) k)
    as (s' & el' & Hrun' & Hel' & Hd & Hsrc & Halt & Herr & Hnl & Hra & Hti & Hpr);
    try done.
  cbv zeta. rewrite Hrun, Hrun'. simpl.
  split; [done|]. split; [done|]. split; [done|]. split; [done|].
  split; [by exists el'|done].
Qed.

(** The image of [doc_lazy] after three [error] events have spent the
    budget of its [data-src]; two more events. *)
Lemma X13_witness :
  let s := exec (replicate 3 (ImgError 2)) (new_loader doc_lazy) in
  let r := run (replicate 2 (ImgError 2)) s in
  r.2 = false ∧
  timers r.1 = timers s ∧ probes r.1 = probes s ∧ retryAttempts r.1 = retryAttempts s ∧
  (∃ el', nodes r.1 !! 2 = Some el' ∧
     src el' = getContextualPlaceholder (nodes r.1) 2 ∧
     alt el' = "Image temporarily unavailable" ∧ "error" ∈ classList el' ∧
     dataset el' = {["src" := lazy_url]}) ∧
  (2 ∉ loadingImages r.1).
Proof.
  pose proof (X13_error_state_absorbs_error_events
                (exec (replicate 3 (ImgError 2)) (new_loader doc_lazy)) 2
                (Element "IMG" [] (Some 3) "" "" false {["src" := lazy_url]})
                lazy_url 1) as H.
  cbv zeta in H |- *. apply H.
  - vm_compute. reflexivity.
  - reflexivity.
  - exists (Element "IMG" [] (Some 3) "" "" false {["src" := lazy_url]}), 3,
      (new_container 1).
    split; [vm_compute; reflexivity|]. split; [reflexivity|]. vm_compute. reflexivity.
  - vm_compute. reflexivity.
  - vm_compute. lia.
Defined.

(** ** The failure records *)

Global Instance keeps_retry_keys_failed_preorder : PreOrder keeps_retry_keys_failed.
Proof. split; unfold keeps_retry_keys_failed; [intros s|intros a b c]; auto. Qed.

Global Instance failed_kept_preorder : PreOrder failed_kept.
Proof.
  split; unfold failed_kept.
  - intros s. reflexivity.
  - intros a b c Hab Hbc. by etransitivity.
Qed.

Lemma handleImageError_keys img :
  respects keeps_retry_keys_failed (handleImageError img).
Proof.
  intros s Hs. unfold handleImageError, bind.
  destruct (ensureImageContainer img s) as [c s1|s1] eqn:Hens;
    [|by rewrite (ensure_throw _ _ _ Hens)].
  destruct (ensure_ret _ _ _ _ Hens) as [_ [ns' ->]].
  unfold getNode. simpl nodes.
  destruct (ns' !! img) as [el|]; [|exact Hs]. simpl.
  destruct (bool_decide _); simpl; intros key Hk; simpl in *.
  - apply elem_of_union.
    destruct (decide (key = originalSrc el)) as [->|Hne];
      [left; by apply elem_of_singleton|right].
    rewrite lookup_insert_ne in Hk by done. by apply Hs.
  - apply elem_of_union. right. by apply Hs.
Qed.

Lemma step_retry_keys_failed e : respects keeps_retry_keys_failed (step e).
Proof.
  destruct e; simpl; unfold_methods;
    respects_with ltac:(first
      [ apply handleImageError_keys
      | apply respects_modify; intros ? Hs; exact Hs ]).
Qed.

Lemma step_failed_kept e : respects failed_kept (step e).
Proof.
  destruct e; simpl; unfold_methods; unfold handleImageError;
    unfold ensureImageContainer, updNode, emit, setTimeout;
    respects_with ltac:(apply respects_modify; intros ?; unfold failed_kept; simpl;
                        first [reflexivity | apply union_subseteq_r]).
Qed.

(** X14. In every state reached from a new loader, every source that has
    a retry counter is recorded in [failedImages]. *)
Theorem X14_retry_counters_belong_to_failed_sources
    (ns : list element) (es : list event) (key : string) (n : nat) :
  retryAttempts (exec es (new_loader ns)) !! key = Some n →
  key ∈ failedImages (exec es (new_loader ns)).
Proof.
  assert (H : ∀ es s, retry_keys_failed s → retry_keys_failed (exec es s)).
  { clear. intros es. induction es as [|e es IH]; intros s Hs; [exact Hs|].
    rewrite exec_cons. apply IH. by apply step_retry_keys_failed. }
  intros Hk. apply (H es (new_loader ns)); [|by eexists].
  intros k [x Hx]. simpl in Hx. by rewrite lookup_empty in Hx.
Qed.

Lemma X14_witness :
  legacy_url ∈ failedImages (exec [ImgError 3; ImgError 3; ImgError 3] (new_loader doc_gallery)).
Proof.
  apply (X14_retry_counters_belong_to_failed_sources doc_gallery
           [ImgError 3; ImgError 3; ImgError 3] legacy_url 3).
  vm_compute. reflexivity.
Defined.

(** ** Elements without a parent *)

(** X16. On an element that has no parent element, a replacement, a
    fallback load and an [error] event throw without changing anything.
    A load request throws too, but only after it has recorded the element
    as loading; the record stays, and the next load request for that
    element returns at once and does nothing. *)
Theorem X16_detached_load_request_sticks (s : loader) (t : nat) (el : element) :
  nodes s !! t = Some el → parentElement el = None → t ∉ loadingImages s →
  (∀ formats, step (Replace t formats) s = Throw s) ∧
  (∀ p f, step (LoadWithFallback t p f) s = Throw s) ∧
  (tagName el = "IMG" → step (ImgError t) s = Throw s) ∧
  step (Intersect [(t, true)]) s = Throw s ∧
  let s' := with_loadingImages (λ l, {[t]} ∪ l) s in
  step (LoadImage t) s = Throw s' ∧
  step (LoadImage t) s' = Ret tt s'.
Proof.
  intros Hel Hp Hin.
  assert (Hens : ∀ x, nodes x = nodes s → ensureImageContainer t x = Throw x).
  { intros x Hx. unfold ensureImageContainer, bind, getNode. by rewrite Hx, Hel, Hp. }
  split; [|split; [|split; [|split; [|split]]]].
  - intros formats. simpl. unfold replaceImageWithProgressive, bind. by rewrite Hens.
  - intros p f. simpl. unfold loadImageWithFallback, bind. by rewrite Hens.
  - intros Htag. rewrite (ImgError_step s t el Hel Htag).
    unfold handleImageError, bind. by rewrite Hens.
  - simpl. unfold intersectionCallback, forEach, onIntersection, bind. simpl.
    by rewrite Hens.
  - simpl. unfold loadImage, loadImageProgressive, bind, gets, modify.
    rewrite bool_decide_eq_false_2 by done. by rewrite Hens.
  - apply loadImageProgressive_busy. simpl.
    apply elem_of_union_l. by apply elem_of_singleton.
Qed.

(** An image that is not in any document. *)
Lemma X16_witness :
  let s := new_loader [Element "IMG" [] None "a.png" "" false ∅] in
  (∀ formats, step (Replace 0 formats) s = Throw s) ∧
  (∀ p f, step (LoadWithFallback 0 p f) s = Throw s) ∧
  ("IMG" = "IMG" → step (ImgError 0) s = Throw s) ∧
  step (Intersect [(0, true)]) s = Throw s ∧
  let s' := with_loadingImages (λ l, {[0]} ∪ l) s in
  step (LoadImage 0) s = Throw s' ∧
  step (LoadImage 0) s' = Ret tt s'.
Proof.
  apply (X16_detached_load_request_sticks
           (new_loader [Element "IMG" [] None "a.png" "" false ∅]) 0
           (Element "IMG" [] None "a.png" "" false ∅)).
  - reflexivity.
  - reflexivity.
  - vm_compute. intros H. discriminate H.
Defined.

(** ** No exception *)

(** X17. No callback throws in a run in which every element named by an
    event has a parent element, provided the elements that have a probe
    or a retry timer pending at the start have one too. *)
Theorem X17_runs_on_attached_elements_never_throw (es : list event) (s : loader) :
  slots_attached s →
  (∀ e i, e ∈ es → i ∈ event_subjects e → attached (nodes s) i) →
  (run es s).2 = false.
Proof. apply attached_slots_never_throw. Qed.

Lemma X17_witness :
  (run [Intersect [(3, true)]; ProbeError 0; ProbeError 0; ProbeError 0; ProbeError 0;
        TimerFire 0; ImgError 3; Replace 3 (FormatLegacy "art.png"); LoadImage 3]
       (new_loader doc_gallery)).2 = false.
Proof.
  apply X17_runs_on_attached_elements_never_throw.
  - split; simpl; [intros p H|intros i d H]; by apply elem_of_nil in H.
  - intros e i He Hi.
    assert (i = 3) as ->.
    { repeat (apply elem_of_cons in He as [->|He];
              [simpl in Hi;
               first [ by apply elem_of_nil in Hi
                     | by apply list_elem_of_singleton in Hi ]|]).
      by apply elem_of_nil in He. }
    do 3 eexists. repeat split; reflexivity.
Defined.

(** ** The two-source loader *)

(** The body shared by the [onload] callbacks of [loadImageWithFallback]:
    the source is committed and the element marked, and nothing else. *)
Lemma commit_plain s img c u :
  is_Some (nodes s !! img) →
  ∃ s', (updNode img (set_src u) ;; emit (SetSrc img u) ;; markImageLoaded img c) s
          = Ret tt s' ∧
    log s' = log s ++ [SetSrc img u] ∧ probes s' = probes s ∧
    loadingImages s' = loadingImages s ∧ loadedImages s' = loadedImages s ∧
    failedImages s' = failedImages s ∧ retryAttempts s' = retryAttempts s ∧
    timers s' = timers s ++ [TimerFadeIn img 50] ∧
    (∃ el', nodes s' !! img = Some el' ∧ src el' = u ∧ "loaded" ∈ classList el').
Proof.
  intros [e He]. unfold markImageLoaded, updNode, emit, setTimeout, bind, modify.
  eexists. split; [reflexivity|]. simpl. repeat split; try done.
  do 2 (apply alter_lookup_pres;
          [intros ? [? ?]; split;
             [done|by repeat first [apply class_add_keeps | apply class_remove_keeps]]|]).
  apply (alter_lookup_est (λ e, src e = u)); [intros; split; [done|apply class_add_In]|].
  apply (alter_lookup_pres (λ e, src e = u)); [done|].
  apply (alter_lookup_est (λ _, True)); [done|]. eauto.
Qed.

(** [loadImageWithFallback] on an attached element. *)
Lemma loadImageWithFallback_starts s img el p f :
  nodes s !! img = Some el → attached (nodes s) img →
  ∃ c ns1 el1,
    step (LoadWithFallback img p f) s =
      Ret tt (with_log (λ l, l ++ [Fetch p])
             (with_probes (λ l, l ++ [ProbePrimary img c p f])
             (with_nodes (λ _, ns1) s))) ∧
    contained ns1 img c ∧ ns1 !! img = Some el1 ∧
    src el1 = src el ∧ dataset el1 = dataset el.
Proof.
  intros Hel Hatt.
  destruct (ensure_attached s img Hatt) as (c & ns' & Hens & Hcont & Himg & _ & _).
  specialize (Himg el Hel).
  exists c, (alter (set_classList (class_add "loading")) c ns').
  destruct (alter_lookup_pres (λ e, src e = src el ∧ dataset e = dataset el)
              (set_classList (class_add "loading")) c ns' img) as (el1 & Hel1 & Hs & Hd);
    [done|eauto|].
  exists el1. split; [|split; [by apply contained_class_add|done]].
  simpl. unfold loadImageWithFallback, bind. by rewrite Hens.
Qed.

(** X18. [loadImageWithFallback] on an attached element.  When the
    primary source decodes it is committed to the element, which is
    marked loaded; when it fails and a fallback is given, the fallback is
    requested next and committed when it decodes.  Either way the loader's
    own records are untouched: the element enters neither the loading set
    nor the loaded set, and no callback throws. *)
Theorem X18_two_source_load_commits_without_records
    (s : loader) (img : nat) (el : element) (p : string) (f : option string) :
  nodes s !! img = Some el → attached (nodes s) img →
  let n := length (probes s) in
  (let r := run [LoadWithFallback img p f; ProbeLoad n] s in
   r.2 = false ∧
   log r.1 = log s ++ [Fetch p; SetSrc img p] ∧
   (∃ el', nodes r.1 !! img = Some el' ∧ src el' = p ∧ "loaded" ∈ classList el') ∧
   probes r.1 = probes s ∧
   loadingImages r.1 = loadingImages s ∧ loadedImages r.1 = loadedImages s) ∧
  (∀ f', truthy f = Some f' →
   let r := run [LoadWithFallback img p f; ProbeError n; ProbeLoad n] s in
   r.2 = false ∧
   log r.1 = log s ++ [Fetch p; Fetch f'; SetSrc img f'] ∧
   (∃ el', nodes r.1 !! img = Some el' ∧ src el' = f' ∧ "loaded" ∈ classList el') ∧
   probes r.1 = probes s ∧
   loadingImages r.1 = loadingImages s ∧ loadedImages r.1 = loadedImages s).
Proof.
  intros Hel Hatt n.
  destruct (loadImageWithFallback_starts s img el p f Hel Hatt)
    as (c & ns1 & el1 & Hstart & Hcont & Hel1 & _ & _).
  match type of Hstart with _ = Ret tt ?x => set (sA := x) in * end.
  assert (HpA : probes sA = probes s ++ [ProbePrimary img c p f]) by reflexivity.
  destruct (probe_fire_last sA (probes s) _ HpA) as [Hload Herror].
  fold n in Hload, Herror. split.
  - destruct (commit_plain (with_probes (delete n) sA) img c p)
      as (s' & Hs' & Hlog & Hp & HL & HD & _ & _ & _ & Hnode); [by eexists|].
    change (probe_onload (ProbePrimary img c p f) (with_probes (delete n) sA) = Ret tt s')
      in Hs'. rewrite <- Hload in Hs'.
    cbv zeta. rewrite (run_cons_ret _ _ _ _ Hstart), (run_cons_ret _ _ _ _ Hs').
    simpl fst. simpl snd. rewrite Hlog, Hp, HL, HD.
    split; [done|]. split; [simpl; by rewrite <- app_assoc|]. split; [exact Hnode|].
    split; [|done]. simpl. unfold n. by rewrite (delete_middle (probes s) []), app_nil_r.
  - intros f' Hf.
    set (sB := with_log (λ l, l ++ [Fetch f'])
                 (with_probes (λ l, l ++ [ProbeFallback img c f'])
                    (with_probes (delete n) sA))).
    assert (HsB : step (ProbeError n) sA = Ret tt sB).
    { rewrite Herror. simpl. by rewrite Hf. }
    assert (HpB : probes sB = probes s ++ [ProbeFallback img c f']).
    { simpl. unfold n. by rewrite (delete_middle (probes s) []), app_nil_r. }
    destruct (probe_fire_last sB (probes s) _ HpB) as [Hload2 _]. fold n in Hload2.
    destruct (commit_plain (with_probes (delete n) sB) img c f')
      as (s' & Hs' & Hlog & Hp & HL & HD & _ & _ & _ & Hnode); [by eexists|].
    change (probe_onload (ProbeFallback img c f') (with_probes (delete n) sB) = Ret tt s')
      in Hs'. rewrite <- Hload2 in Hs'.
    cbv zeta. rewrite (run_cons_ret _ _ _ _ Hstart), (run_cons_ret _ _ _ _ HsB),
      (run_cons_ret _ _ _ _ Hs').
    simpl fst. simpl snd. rewrite Hlog, Hp, HL, HD.
    split; [done|]. split; [simpl; by rewrite <- !app_assoc|]. split; [exact Hnode|].
    split; [|done]. subst sB sA. simpl.
    unfold n.
    by rewrite (delete_middle (probes s) []), app_nil_r,
      (delete_middle (probes s) []), app_nil_r.
Qed.

(** The gallery image, loaded from two explicit sources. *)
Lemma X18_witness :
  (let r := run [LoadWithFallback 3 "a.jpg" (Some "a.svg"); ProbeLoad 0]
                (new_loader doc_gallery) in
   r.2 = false ∧
   log r.1 = [] ++ [Fetch "a.jpg"; SetSrc 3 "a.jpg"] ∧
   (∃ el', nodes r.1 !! 3 = Some el' ∧ src el' = "a.jpg" ∧ "loaded" ∈ classList el') ∧
   probes r.1 = [] ∧
   loadingImages r.1 = ∅ ∧ loadedImages r.1 = ∅) ∧
  (∀ f', truthy (Some "a.svg") = Some f' →
   let r := run [LoadWithFallback 3 "a.jpg" (Some "a.svg"); ProbeError 0; ProbeLoad 0]
                (new_loader doc_gallery) in
   r.2 = false ∧
   log r.1 = [] ++ [Fetch "a.jpg"; Fetch f'; SetSrc 3 f'] ∧
   (∃ el', nodes r.1 !! 3 = Some el' ∧ src el' = f' ∧ "loaded" ∈ classList el') ∧
   probes r.1 = [] ∧
   loadingImages r.1 = ∅ ∧ loadedImages r.1 = ∅).
Proof.
  apply (X18_two_source_load_commits_without_records (new_loader doc_gallery) 3
           (img 2 legacy_url [("webp", "art.webp"); ("jpg", "art.jpg");
                              ("fallback", "art.svg")])).
  - reflexivity.
  - do 3 eexists. repeat split; reflexivity.
Defined.

(** X19. When both sources of [loadImageWithFallback] fail, or the
    primary one fails and no fallback is given, the element goes through
    the error handler like any other.  While the budget lasts a retry is
    scheduled, and since the two-source loader never recorded the element
    as loading, that retry does start a pass; but the pass is the format
    cascade over the element's own candidates, and the primary source is
    not requested again. *)
Theorem X19_two_source_retry_runs_the_cascade
    (s : loader) (img : nat) (el : element) (p : string) (f : option string)
    (u0 : string) :
  nodes s !! img = Some el → attached (nodes s) img →
  truthy f = None → img ∉ loadingImages s →
  retryCount s (originalSrc el) < maxRetries →
  candidates el !! 0 = Some u0 →
  let delay := 2 ^ retryCount s (originalSrc el) * 1000 in
  let r := run [LoadWithFallback img p f; ProbeError (length (probes s));
                TimerFire (length (timers s))] s in
  r.2 = false ∧
  log r.1 = log s ++ [Fetch p; Schedule img delay; Fetch u0] ∧
  (∃ c, probes r.1 = probes s ++ [ProbeFormats img c (candidates el) 0 u0]) ∧
  timers r.1 = timers s ∧
  img ∈ loadingImages r.1 ∧
  retryCount r.1 (originalSrc el) = retryCount s (originalSrc el) + 1.
Proof.
  intros Hel Hatt Hf Hin Hlt Hu0.
  destruct (loadImageWithFallback_starts s img el p f Hel Hatt)
    as (c & ns1 & el1 & Hstart & Hcont & Hel1 & Hsrc & Hdata).
  match type of Hstart with _ = Ret tt ?x => set (sA := x) in * end.
  assert (Hcand : candidates el1 = candidates el).
  { unfold candidates. by rewrite Hsrc, Hdata. }
  assert (Hkey : originalSrc el1 = originalSrc el).
  { unfold originalSrc. by rewrite Hsrc, Hdata. }
  assert (HpA : probes sA = probes s ++ [ProbePrimary img c p f]) by reflexivity.
  destruct (probe_fire_last sA (probes s) _ HpA) as [_ Herror].
  set (sA' := with_probes (delete (length (probes s))) sA) in *.
  assert (HsB : ∃ sB, step (ProbeError (length (probes s))) sA = Ret tt sB ∧
            sB = with_log (λ l, l ++ [Schedule img (2 ^ retryCount s (originalSrc el) * 1000)])
                 (with_timers
                    (λ l, l ++ [TimerRetry img (2 ^ retryCount s (originalSrc el) * 1000)])
                 (with_retryAttempts
                    <[originalSrc el := retryCount s (originalSrc el) + 1]>
                 (with_failedImages (λ F, {[originalSrc el]} ∪ F) sA')))).
  { eexists. split; [|reflexivity]. rewrite Herror. simpl. rewrite Hf.
    rewrite (handleImageError_retry sA' img c el1); [|exact Hcont|exact Hel1|].
    - by rewrite Hkey.
    - by rewrite Hkey. }
  destruct HsB as (sB & HsB & HsBeq).
  assert (HtB : timers sB =
                timers s ++ [TimerRetry img (2 ^ retryCount s (originalSrc el) * 1000)])
    by (by rewrite HsBeq).
  pose proof (timer_fire_last sB (timers s) _ HtB) as Hfire.
  unfold timer_callback in Hfire.
  rewrite (loadImageProgressive_start_contained _ img c el1 u0) in Hfire;
    [|by rewrite HsBeq|by rewrite HsBeq|by rewrite HsBeq|by rewrite Hcand].
  cbv zeta.
  rewrite (run_cons_ret _ _ _ _ Hstart), (run_cons_ret _ _ _ _ HsB),
    (run_cons_ret _ _ _ _ Hfire).
  simpl fst. simpl snd. rewrite Hcand, HsBeq. simpl.
  rewrite (delete_middle (probes s) []), (delete_middle (timers s) []), !app_nil_r.
  rewrite (take_S_r _ 0 u0 Hu0). simpl. rewrite <- !app_assoc. simpl.
  split; [done|]. split; [done|]. split; [by exists c|]. split; [done|].
  split; [apply elem_of_union_l; by apply elem_of_singleton|].
  unfold retryCount. simpl. by rewrite lookup_insert_eq.
Qed.

(** The bare image of [doc_single], whose only candidate is its own
    source. *)
Lemma X19_witness :
  let r := run [LoadWithFallback 2 "a.jpg" None; ProbeError 0; TimerFire 0]
               (new_loader doc_single) in
  r.2 = false ∧
  log r.1 = [] ++ [Fetch "a.jpg"; Schedule 2 (2 ^ 0 * 1000); Fetch "bad.png"] ∧
  (∃ c, probes r.1 = [] ++ [ProbeFormats 2 c ["bad.png"] 0 "bad.png"]) ∧
  timers r.1 = [] ∧
  2 ∈ loadingImages r.1 ∧
  retryCount r.1 "bad.png" = 0 + 1.
Proof.
  apply (X19_two_source_retry_runs_the_cascade (new_loader doc_single) 2
           (img 1 "bad.png" []) "a.jpg" None "bad.png").
  - reflexivity.
  - do 3 eexists. repeat split; reflexivity.
  - reflexivity.
  - vm_compute. intros H. discriminate H.
  - vm_compute. lia.
  - reflexivity.
Defined.

(** ** The image map *)

Lemma find_key_spec {B} (l : list (string * B)) k e :
  List.find (λ e, bool_decide (e.1 = k)) l = Some e → e.1 = k ∧ e ∈ l.
Proof.
  intros H. apply List.find_some in H as [Hin Hk].
  rewrite bool_decide_eq_true in Hk. split; [exact Hk|by apply list_elem_of_In].
Qed.

(** X20. Resolution of a source in the image map.  A source that is a
    key of the map gets the formats of that key, whatever other keys it
    contains: a URL that carries the query string of a collection cover
    gets the cover, not the gallery artwork of the same photograph.
    Conversely a collection cover is only ever chosen by an exact match:
    a URL with any other query string falls to the partial match, which
    the gallery entries, coming first, always win.  And nothing is
    resolved for an element without a source. *)
Theorem X20_image_map_resolution (nativeText : string → string) :
  (∀ k formats, (k, formats) ∈ imageMap →
     resolveFormats nativeText (Some k) = Some formats) ∧
  (∀ u formats, resolveFormats nativeText (Some u) = Some formats →
     is_collection_cover formats = true → (u, formats) ∈ imageMap) ∧
  (∀ k formats, resolveFormats nativeText k = Some formats → is_Some (truthy k)).
Proof.
  split; [|split].
  - intros k formats Hin. unfold imageMap in Hin.
    repeat (apply elem_of_cons in Hin as [[= -> ->]|Hin]; [vm_compute; reflexivity|]).
    by apply elem_of_nil in Hin.
  - intros u formats Hres Hcover. unfold resolveFormats, imageMap_get in Hres.
    destruct (List.find (λ e, bool_decide (e.1 = u)) imageMap) as [e|] eqn:Hfind.
    { apply find_key_spec in Hfind as [<- Hin]. injection Hres as <-. by destruct e. }
    destruct (bool_decide (u = "__proto__")); [by injection Hres as <-|].
    destruct (bool_decide (u ∈ objectPrototypeFunctions)); [by injection Hres as <-|].
    unfold imageMap_partial in Hres.
    destruct (truthy (Some u)) as [v|]; [|done].
    unfold imageMap in Hres. cbn [List.find fst snd] in Hres.
    repeat match type of Hres with
           | context [before_query ?k] =>
               let v := eval vm_compute in (before_query k) in
               change (before_query k) with v in Hres
           end.
    repeat match type of Hres with
           | context [if includes v ?k then _ else _] => destruct (includes v k)
           end;
      simpl in Hres; try discriminate Hres; injection Hres as <-;
      vm_compute in Hcover; discriminate Hcover.
  - intros k formats Hres.
    destruct (resolveFormats_truthy _ _ _ Hres) as [u ->]. by eexists.
Qed.

(** ** Images added later *)

(** X21. [observeNewImage] on an element that is not yet flagged as
    observed, with the lazy observer present: the element is flagged and
    registered, and the whole document is scanned again, so that every
    image of the document that the image map resolves is loading
    afterwards; a second call for the same element changes nothing.  On an
    element that is already flagged the call changes nothing, and without
    the lazy observer the mutation callback as a whole changes nothing:
    added images are then neither registered nor replaced. *)
Theorem X21_new_image_is_registered_once
    (nativeText : string → string) (s : loader) (i : nat) (el : element) :
  nodes s !! i = Some el →
  (is_Some (truthy (dataset el !! "observed")) →
   observeNewImage nativeText true i s = Ret tt s) ∧
  (truthy (dataset el !! "observed") = None →
   ∃ s', observeNewImage nativeText true i s = Ret tt s' ∧
     i ∈ observed s' ∧
     (∃ el', nodes s' !! i = Some el' ∧ dataset el' !! "observed" = Some "true") ∧
     (∀ j, j ∈ query_img (nodes s) → mapped nativeText (nodes s) j = true →
           j ∈ loadingImages s') ∧
     loadedImages s' = loadedImages s ∧
     observeNewImage nativeText true i s' = Ret tt s') ∧
  (∀ addedNodes, mutationCallback nativeText false addedNodes s = Ret tt s).
Proof.
  intros Hel. split; [|split].
  - intros Hflag. unfold observeNewImage, bind.
    by rewrite (getNode_Some _ _ _ Hel), bool_decide_eq_true_2.
  - intros Hflag. unfold observeNewImage at 1, bind at 1.
    rewrite (getNode_Some _ _ _ Hel), Hflag.
    rewrite bool_decide_eq_false_2 by (by intros [? ?]).
    unfold updNode, observe, bind at 1, modify at 1. unfold bind at 1, modify at 1.
    set (s1 := with_observed (λ o, {[i]} ∪ o)
                 (with_nodes (alter (set_dataset <["observed" := "true"]>) i) s)).
    assert (Hk1 : setup_kept s s1).
    { repeat split; try reflexivity.
      - apply union_subseteq_r.
      - simpl. by rewrite length_alter.
      - intros j e He. simpl.
        destruct (decide (i = j)) as [->|Hne].
        + rewrite list_lookup_alter_eq, He. simpl. eexists. split; [done|].
          repeat split; simpl. by rewrite lookup_insert_ne.
        + rewrite list_lookup_alter_ne, He by done. eexists. split; [done|].
          by repeat split. }
    destruct (scan_loop nativeText (query_img (nodes s1)) s1)
      as (s' & Hs' & (F & R & T & L & O & G & P & _ & Hrel) & Hin & _);
      [apply query_img_attached|].
    unfold replaceExternalImages, bind at 1, gets at 1. rewrite Hs'.
    exists s'. split; [done|].
    destruct (Hrel i (set_dataset <["observed" := "true"]> el))
      as (el' & Hel' & _ & _ & _ & Hobs).
    { simpl. by rewrite list_lookup_alter_eq, Hel. }
    simpl in Hobs. rewrite lookup_insert_eq in Hobs.
    split; [rewrite O; simpl; apply elem_of_union_l; by apply elem_of_singleton|].
    split; [by exists el'|]. split; [|split; [by rewrite L|]].
    + intros j Hj Hm. apply Hin.
      * by rewrite (setup_kept_query_img s s1 Hk1).
      * by rewrite (setup_kept_mapped nativeText s s1 j Hk1).
    + unfold observeNewImage, bind.
      rewrite (getNode_Some _ _ _ Hel'), Hobs. by rewrite bool_decide_eq_true_2.
  - intros addedNodes. unfold mutationCallback.
    induction addedNodes as [|node l IH]; [done|].
    simpl forEach. unfold bind at 1, bind at 1, gets at 1.
    assert (Hinner : ∀ images, forEach (observeNewImage nativeText false) images s = Ret tt s).
    { intros images. induction images as [|x images IHi]; [done|].
      simpl. unfold bind. simpl. exact IHi. }
    by rewrite Hinner.
Qed.

(** The gallery image on a new loader. *)
Lemma X21_witness :
  (is_Some (truthy (None : option string)) →
   observeNewImage (λ _, "") true 3 (new_loader doc_gallery) =
     Ret tt (new_loader doc_gallery)) ∧
  (truthy (None : option string) = None →
   ∃ s', observeNewImage (λ _, "") true 3 (new_loader doc_gallery) = Ret tt s' ∧
     3 ∈ observed s' ∧
     (∃ el', nodes s' !! 3 = Some el' ∧ dataset el' !! "observed" = Some "true") ∧
     (∀ j, j ∈ query_img doc_gallery → mapped (λ _, "") doc_gallery j = true →
           j ∈ loadingImages s') ∧
     loadedImages s' = ∅ ∧
     observeNewImage (λ _, "") true 3 s' = Ret tt s') ∧
  (∀ addedNodes,
     mutationCallback (λ _, "") false addedNodes (new_loader doc_gallery) =
       Ret tt (new_loader doc_gallery)).
Proof.
  exact (X21_new_image_is_registered_once (λ _, "") (new_loader doc_gallery) 3
           (img 2 legacy_url [("webp", "art.webp"); ("jpg", "art.jpg");
                              ("fallback", "art.svg")]) eq_refl).
Defined.

(** * The page around the loader *)

(** ** What the scan and the callbacks keep *)

Lemma flag_kept_refl i e : flag_kept i e e.
Proof. by intros ?. Qed.

Global Instance flag_kept_preorder : PreOrder (nodes_rel flag_kept).
Proof.
  apply nodes_rel_preorder_gen.
  - apply flag_kept_refl.
  - intros i e1 e2 e3 H12 H23 H. by apply H23, H12.
Qed.

Global Instance triggers_kept_preorder : PreOrder triggers_kept.
Proof.
  split; unfold triggers_kept.
  - by intros s.
  - intros a b c H1 H2 i. by rewrite H2, H1.
Qed.

Global Instance budget_kept_preorder img : PreOrder (budget_kept img).
Proof.
  split; unfold budget_kept.
  - by intros s.
  - intros a b c H1 H2. lia.
Qed.

Ltac flag_solve :=
  unfold flag_kept; simpl; rewrite ?lookup_insert_ne by done; done.

Lemma step_flag_kept e : respects (nodes_rel flag_kept) (step e).
Proof.
  destruct e; simpl; unfold_methods; unfold handleImageError;
    unfold ensureImageContainer, updNode, emit, setTimeout;
    respects_with ltac:(nodes_leaf ltac:(apply flag_kept_refl) flag_solve).
Qed.

Lemma replaceImage_flag_kept img formats :
  respects (nodes_rel flag_kept) (replaceImageWithProgressive img formats).
Proof. apply (step_flag_kept (Replace img formats)). Qed.

Lemma replaceImage_lazy_kept img formats :
  respects lazy_kept (replaceImageWithProgressive img formats).
Proof. by apply (step_lazy_kept (Replace img formats)). Qed.

Lemma replaceImage_loaded_kept img formats :
  respects loaded_kept (replaceImageWithProgressive img formats).
Proof. apply (step_loaded_kept (Replace img formats)). Qed.

Lemma replaceImage_failed_kept img formats :
  respects failed_kept (replaceImageWithProgressive img formats).
Proof. apply (step_failed_kept (Replace img formats)). Qed.

Lemma scan_flag_kept nativeText :
  respects (nodes_rel flag_kept) (replaceExternalImages nativeText).
Proof.
  unfold replaceExternalImages, replaceExternalImage.
  respects_with ltac:(apply replaceImage_flag_kept).
Qed.

Lemma scan_lazy_kept nativeText : respects lazy_kept (replaceExternalImages nativeText).
Proof.
  unfold replaceExternalImages, replaceExternalImage.
  respects_with ltac:(apply replaceImage_lazy_kept).
Qed.

Lemma scan_loaded_kept nativeText : respects loaded_kept (replaceExternalImages nativeText).
Proof.
  unfold replaceExternalImages, replaceExternalImage.
  respects_with ltac:(apply replaceImage_loaded_kept).
Qed.

Lemma scan_failed_kept nativeText : respects failed_kept (replaceExternalImages nativeText).
Proof.
  unfold replaceExternalImages, replaceExternalImage.
  respects_with ltac:(apply replaceImage_failed_kept).
Qed.

Lemma refresh_lazy_kept nativeText : respects lazy_kept (refreshImages_core nativeText).
Proof.
  unfold refreshImages_core.
  respects_with ltac:(first [apply scan_lazy_kept | lazy_leaf]).
Qed.

Lemma refresh_flag_kept nativeText :
  respects (nodes_rel flag_kept) (refreshImages_core nativeText).
Proof.
  unfold refreshImages_core.
  respects_with ltac:(first
    [ apply scan_flag_kept
    | nodes_leaf ltac:(apply flag_kept_refl) flag_solve ]).
Qed.

Lemma refresh_loaded_kept nativeText :
  respects loaded_kept (refreshImages_core nativeText).
Proof.
  unfold refreshImages_core.
  respects_with ltac:(first
    [ apply scan_loaded_kept
    | apply respects_modify; intros ?; unfold loaded_kept; simpl; reflexivity ]).
Qed.

Lemma mutation_flag_kept nativeText lazy addedNodes :
  respects (nodes_rel flag_kept) (mutationCallback nativeText lazy addedNodes).
Proof.
  unfold mutationCallback, observeNewImage, observe, updNode.
  respects_with ltac:(first
    [ apply scan_flag_kept
    | nodes_leaf ltac:(apply flag_kept_refl)
        ltac:(unfold flag_kept; simpl; intros _; by rewrite lookup_insert_eq)
    | nodes_leaf ltac:(apply flag_kept_refl) flag_solve ]).
Qed.

Lemma mutation_triggers_kept nativeText lazy addedNodes :
  respects triggers_kept (mutationCallback nativeText lazy addedNodes).
Proof.
  assert (Hscan : respects triggers_kept (replaceExternalImages nativeText)).
  { intros s. by destruct (scan_lazy_kept nativeText s). }
  unfold mutationCallback, observeNewImage, observe, updNode.
  respects_with ltac:(first
    [ apply Hscan
    | apply respects_modify; intros ? ?; reflexivity ]).
Qed.

Lemma mutation_loaded_kept nativeText lazy addedNodes :
  respects loaded_kept (mutationCallback nativeText lazy addedNodes).
Proof.
  unfold mutationCallback, observeNewImage, observe, updNode.
  respects_with ltac:(first
    [ apply scan_loaded_kept
    | apply respects_modify; intros ?; unfold loaded_kept; simpl; reflexivity ]).
Qed.

Lemma mutation_failed_kept nativeText lazy addedNodes :
  respects failed_kept (mutationCallback nativeText lazy addedNodes).
Proof.
  unfold mutationCallback, observeNewImage, observe, updNode.
  respects_with ltac:(first
    [ apply scan_failed_kept
    | apply respects_modify; intros ?; unfold failed_kept; simpl; reflexivity ]).
Qed.

(** ** The trigger budget *)

Lemma flagged_kept s s' img :
  nodes_rel flag_kept s s' →
  flagged (nodes s) img = true → flagged (nodes s') img = true.
Proof.
  intros Hrel. unfold flagged.
  destruct (nodes s !! img) as [el|] eqn:Hel; [|done].
  destruct (Hrel img el Hel) as (el' & -> & Hflag).
  rewrite !bool_decide_eq_true. exact Hflag.
Qed.

(** A call that leaves the registrations and the trigger counts alone and
    keeps the flags does not raise the budget. *)
Lemma quiet_budget img s s' :
  observed s' = observed s → triggers img (log s') = triggers img (log s) →
  nodes_rel flag_kept s s' → budget_kept img s s'.
Proof.
  intros Hobs Htrig Hrel. unfold budget_kept, trigger_budget, trigger_potential.
  rewrite Hobs, Htrig. pose proof (flagged_kept s s' img Hrel) as Hf.
  destruct (flagged (nodes s) img); [by rewrite Hf|].
  destruct (flagged (nodes s') img); lia.
Qed.

Lemma observeNewImage_budget nativeText lazy img j :
  respects (budget_kept img) (observeNewImage nativeText lazy j).
Proof.
  intros s. unfold observeNewImage. destruct lazy; [|reflexivity].
  unfold bind at 1, getNode.
  destruct (nodes s !! j) as [el|] eqn:Hel; [|reflexivity].
  destruct (bool_decide_reflect (is_Some (truthy (dataset el !! "observed"))))
    as [Hflag|Hflag]; [reflexivity|].
  unfold updNode, observe. rewrite !bind_modify.
  set (s1 := with_observed (λ o, {[j]} ∪ o)
               (with_nodes (alter (set_dataset <["observed" := "true"]>) j) s)).
  transitivity s1.
  - unfold budget_kept, trigger_budget, trigger_potential, flagged. simpl.
    destruct (decide (j = img)) as [->|Hne].
    + rewrite list_lookup_alter_eq, Hel. simpl. rewrite lookup_insert_eq. simpl.
      rewrite (bool_decide_eq_false_2 (is_Some (truthy (dataset el !! "observed"))))
        by done.
      destruct (bool_decide (img ∈ {[img]} ∪ observed s)),
               (bool_decide (img ∈ observed s)); lia.
    + rewrite list_lookup_alter_ne by done.
      rewrite (bool_decide_ext (img ∈ {[j]} ∪ observed s) (img ∈ observed s)); [lia|].
      rewrite elem_of_union, elem_of_singleton.
      split; [intros [?|?]; [congruence|done]|by right].
  - destruct (scan_lazy_kept nativeText s1) as [Hobs Htrig].
    apply quiet_budget; [exact Hobs|apply Htrig|apply scan_flag_kept].
Qed.

Lemma mutation_budget nativeText lazy addedNodes img :
  respects (budget_kept img) (mutationCallback nativeText lazy addedNodes).
Proof.
  unfold mutationCallback.
  respects_with ltac:(apply observeNewImage_budget).
Qed.

Lemma exec_flag_kept es s : nodes_rel flag_kept s (exec es s).
Proof.
  revert s. induction es as [|e es IH]; intros s; [reflexivity|].
  rewrite exec_cons. etransitivity; [apply (step_flag_kept e s)|apply IH].
Qed.

Lemma exec_errors_lazy_kept n t s : lazy_kept s (exec (replicate n (ImgError t)) s).
Proof.
  revert s. induction n as [|n IH]; intros s; [reflexivity|].
  simpl replicate. rewrite exec_cons.
  etransitivity; [by apply (step_lazy_kept (ImgError t))|apply IH].
Qed.

(** One event of the page, delivered as the observer contract has it,
    does not raise the budget of any element. *)
Lemma page_step_budget nativeText e σ img :
  match e with
  | LoaderEvent (Intersect entries) => valid_batch (core σ) entries
  | _ => True
  end →
  budget_kept img (core σ) (core (page_step nativeText e σ).1).
Proof.
  intros Hvalid. destruct e as [e|addedNodes|].
  - assert (Hflag : nodes_rel flag_kept (core σ) (core (page_step nativeText (LoaderEvent e) σ).1)).
    { destruct e; try apply (step_flag_kept _ (core σ)).
      unfold page_step, dispatchError. apply exec_flag_kept. }
    assert (Hcases : (∃ entries, e = Intersect entries) ∨
                     (∀ entries, e ≠ Intersect entries))
      by (destruct e; eauto; left; eauto).
    destruct Hcases as [[entries ->]|Hne].
    + pose proof (batch_potential img entries (core σ) Hvalid) as Hpot.
      pose proof (flagged_kept _ _ img Hflag) as Hf.
      unfold budget_kept, trigger_budget. simpl in *.
      destruct (flagged (nodes (core σ)) img); [rewrite Hf by done; lia|].
      destruct (flagged _ img); lia.
    + assert (Hlazy : lazy_kept (core σ) (core (page_step nativeText (LoaderEvent e) σ).1)).
      { destruct e; try (by apply (step_lazy_kept _ Hne (core σ))).
        unfold page_step, dispatchError. apply exec_errors_lazy_kept. }
      destruct Hlazy as [Hobs Htrig]. by apply quiet_budget.
  - apply (mutation_budget nativeText (lazyObserver σ) addedNodes img (core σ)).
  - unfold page_step, refreshImages. simpl.
    destruct (refresh_lazy_kept nativeText (core σ)) as [Hobs Htrig].
    apply quiet_budget; [exact Hobs|apply Htrig|apply refresh_flag_kept].
Qed.

Lemma page_exec_cons nativeText e es σ :
  page_exec nativeText (e :: es) σ = page_exec nativeText es (page_step nativeText e σ).1.
Proof. reflexivity. Qed.

Lemma page_run_budget nativeText es σ img :
  page_valid_run nativeText es σ →
  budget_kept img (core σ) (core (page_exec nativeText es σ)).
Proof.
  revert σ. induction es as [|e es IH]; intros σ Hv; [reflexivity|].
  destruct Hv as [Hb Hv]. rewrite page_exec_cons.
  etransitivity; [by apply page_step_budget|by apply IH].
Qed.

Lemma page_step_unreported nativeText e σ img :
  (∀ entries, e = LoaderEvent (Intersect entries) → (img, true) ∉ entries) →
  triggers img (log (core (page_step nativeText e σ).1)) = triggers img (log (core σ)).
Proof.
  intros Hnot. destruct e as [e|addedNodes|].
  - assert (Hcases : (∃ entries, e = Intersect entries) ∨
                     (∀ entries, e ≠ Intersect entries))
      by (destruct e; eauto; left; eauto).
    destruct Hcases as [[entries ->]|Hne].
    + apply batch_unreported. by apply Hnot.
    + destruct e; try (by apply (step_lazy_kept _ Hne (core σ))).
      unfold page_step, dispatchError. apply exec_errors_lazy_kept.
  - apply (mutation_triggers_kept nativeText (lazyObserver σ) addedNodes (core σ)).
  - apply (refresh_lazy_kept nativeText (core σ)).
Qed.

Lemma page_run_unreported nativeText es σ img :
  ¬ page_reported img es →
  triggers img (log (core (page_exec nativeText es σ))) = triggers img (log (core σ)).
Proof.
  revert σ. induction es as [|e es IH]; intros σ Hnot; [done|].
  rewrite page_exec_cons, IH.
  - apply page_step_unreported. intros entries -> Hin. apply Hnot.
    exists entries. split; [by left|done].
  - intros (entries & Hin & Hrep). apply Hnot.
    exists entries. split; [by right|done].
Qed.

(** The constructor starts no load through the detector. *)
Lemma construct_triggers nativeText supportsIO ns img :
  triggers img (log (core (construct nativeText supportsIO ns).1)) = 0.
Proof.
  unfold construct.
  assert (Hsetup : ∃ s1,
    (if supportsIO then setupLazyLoading else ret tt) (new_loader ns) = Ret tt s1 ∧
    log s1 = []).
  { destruct supportsIO.
    - destruct (setupLazyLoading_spec (new_loader ns))
        as (s1 & Hs1 & (_ & _ & _ & _ & _ & _ & Hlog & _) & _).
      by exists s1.
    - by exists (new_loader ns). }
  destruct Hsetup as (s1 & -> & Hlog).
  destruct (scan_lazy_kept nativeText s1) as [_ Htrig].
  simpl. rewrite Htrig, Hlog. reflexivity.
Qed.

(** X22. Over every run of the page (loader events, notifications of
    the mutation observer, calls of [refreshImages]) in which the
    browser keeps to the observer contract: the number of times the
    detector has fired for an element, plus one while the element is
    registered, plus one while it is not flagged [data-observed], never
    grows.  An element that no notification reports as intersecting is
    never fired for.  So after the constructor, on any document, the
    detector fires at most twice for any element, and at most once for
    one that the constructor left flagged or unregistered. *)
Theorem X22_detector_fires_at_most_twice (nativeText : string → string) :
  (∀ σ es img, page_valid_run nativeText es σ →
     (trigger_budget img (core (page_exec nativeText es σ))
      ≤ trigger_budget img (core σ))%nat) ∧
  (∀ σ es img, ¬ page_reported img es →
     triggers img (log (core (page_exec nativeText es σ))) = triggers img (log (core σ))) ∧
  (∀ supportsIO ns es img,
     page_valid_run nativeText es (construct nativeText supportsIO ns).1 →
     (triggers img
        (log (core (page_exec nativeText es (construct nativeText supportsIO ns).1)))
      ≤ 2)%nat ∧
     (flagged (nodes (core (construct nativeText supportsIO ns).1)) img = true ∨
      img ∉ observed (core (construct nativeText supportsIO ns).1) →
      (triggers img
         (log (core (page_exec nativeText es (construct nativeText supportsIO ns).1)))
       ≤ 1)%nat)).
Proof.
  split; [|split].
  - intros σ es img Hv. exact (page_run_budget nativeText es σ img Hv).
  - intros σ es img. apply page_run_unreported.
  - intros supportsIO ns es img Hv.
    pose proof (page_run_budget nativeText es _ img Hv) as Hb.
    pose proof (construct_triggers nativeText supportsIO ns img) as H0.
    set (σ0 := (construct nativeText supportsIO ns).1) in *. clearbody σ0.
    unfold budget_kept, trigger_budget, trigger_potential in Hb. rewrite H0 in Hb.
    split.
    + destruct (bool_decide (img ∈ observed (core σ0))),
               (flagged (nodes (core σ0)) img); lia.
    + intros [Hf|Hn].
      * rewrite Hf in Hb.
        destruct (bool_decide (img ∈ observed (core σ0))); lia.
      * rewrite (bool_decide_eq_false_2 _ Hn) in Hb.
        destruct (flagged (nodes (core σ0)) img); lia.
Qed.

(** X23. The notification for an attached element that is not loading
    and has a candidate: the callback returns normally, logs one trigger,
    requests the first candidate through a new probe of the format
    cascade, records the element as loading, deregisters it, and puts
    the [image-loading] class on its container.  No timer is touched. *)
Theorem X23_notification_starts_the_load
    (s : loader) (img : nat) (el : element) (u0 : string) :
  nodes s !! img = Some el → attached (nodes s) img →
  img ∉ loadingImages s → candidates el !! 0 = Some u0 →
  ∃ s' c cel,
    step (Intersect [(img, true)]) s = Ret tt s' ∧
    log s' = log s ++ [LazyTrigger img; Fetch u0] ∧
    probes s' = probes s ++ [ProbeFormats img c (candidates el) 0 u0] ∧
    loadingImages s' = {[img]} ∪ loadingImages s ∧
    observed s' = observed s ∖ {[img]} ∧
    parentElement <$> nodes s' !! img = Some (Some c) ∧
    nodes s' !! c = Some cel ∧ "image-loading" ∈ classList cel ∧
    timers s' = timers s.
Proof.
  intros Hel Hatt Hfree Hu0.
  destruct (ensure_attached s img Hatt) as (c & ns' & Hens & Hc & Himg & _).
  simpl step. unfold intersectionCallback. simpl forEach.
  unfold onIntersection. simpl. unfold bind at 1, bind at 1. rewrite Hens.
  unfold updNode, emit. rewrite !bind_modify.
  set (s2 := with_log _ _).
  assert (Hc2 : contained (nodes s2) img c) by (by apply contained_class_add).
  assert (Hcel : ∃ cel, nodes s2 !! c = Some cel ∧ "image-loading" ∈ classList cel).
  { destruct Hc as (? & cel & _ & _ & Hcel & _). simpl.
    apply (alter_lookup_est (λ _, True)); [intros; apply class_add_In|eauto]. }
  assert (Himg2 : ∃ el2, nodes s2 !! img = Some el2 ∧
                         candidates el2 = candidates el ∧ parentElement el2 = Some c).
  { simpl. apply (alter_lookup_pres
      (λ e, candidates e = candidates el ∧ parentElement e = Some c)); [done|].
    rewrite (Himg _ Hel). eauto. }
  destruct Hcel as (cel & Hcel & Hcls). destruct Himg2 as (el2 & Hel2 & Hcand2 & Hp2).
  unfold bind at 1.
  rewrite (loadImageProgressive_start_contained s2 img c el2 u0 Hc2 Hel2);
    [|done|by rewrite Hcand2].
  rewrite Hcand2. unfold bind, modify, ret.
  eexists _, c, cel. split; [reflexivity|]. simpl.
  rewrite (take_S_r _ 0 u0 Hu0). simpl. rewrite <- app_assoc. simpl.
  simpl in Hel2, Hcel. rewrite Hel2, Hcel. simpl. rewrite Hp2.
  repeat split; done.
Qed.

(** The image of [doc_lazy], registered by [setupLazyLoading]. *)
Lemma X23_witness :
  ∃ s' c cel,
    step (Intersect [(2, true)]) (final (setupLazyLoading (new_loader doc_lazy))) = Ret tt s' ∧
    log s' = [] ++ [LazyTrigger 2; Fetch lazy_url] ∧
    probes s' = [] ++ [ProbeFormats 2 c [lazy_url] 0 lazy_url] ∧
    loadingImages s' = {[2]} ∪ ∅ ∧
    observed s' = {[2]} ∖ {[2]} ∧
    parentElement <$> nodes s' !! 2 = Some (Some c) ∧
    nodes s' !! c = Some cel ∧ "image-loading" ∈ classList cel ∧
    timers s' = [].
Proof.
  pose proof (X23_notification_starts_the_load
                (final (setupLazyLoading (new_loader doc_lazy))) 2
                (Element "IMG" [] (Some 1) "" "" false {["src" := lazy_url]})
                lazy_url) as H.
  destruct H as (s' & c & cel & H1 & H2 & H3 & H4 & H5 & H6).
  - vm_compute. reflexivity.
  - do 3 eexists. repeat split; vm_compute; reflexivity.
  - vm_compute. intros H. discriminate H.
  - vm_compute. reflexivity.
  - exists s', c, cel. split; [exact H1|]. split; [exact H2|]. split; [exact H3|].
    split; [exact H4|]. split; [|exact H6].
    rewrite H5. vm_compute. reflexivity.
Defined.

(** ** The statistics over runs of the page *)

Lemma exec_loaded_kept es s : loaded_kept s (exec es s).
Proof.
  revert s. induction es as [|e es IH]; intros s; [reflexivity|].
  rewrite exec_cons. etransitivity; [apply (step_loaded_kept e s)|apply IH].
Qed.

Lemma exec_failed_kept es s : failed_kept s (exec es s).
Proof.
  revert s. induction es as [|e es IH]; intros s; [reflexivity|].
  rewrite exec_cons. etransitivity; [apply (step_failed_kept e s)|apply IH].
Qed.

Lemma page_step_loaded_kept nativeText e σ :
  loaded_kept (core σ) (core (page_step nativeText e σ).1).
Proof.
  destruct e as [e|addedNodes|].
  - destruct e; try apply (step_loaded_kept _ (core σ)).
    unfold page_step, dispatchError. apply exec_loaded_kept.
  - apply (mutation_loaded_kept nativeText (lazyObserver σ) addedNodes (core σ)).
  - apply (refresh_loaded_kept nativeText (core σ)).
Qed.

Lemma page_step_failed_kept nativeText e σ :
  e ≠ Refresh → failed_kept (core σ) (core (page_step nativeText e σ).1).
Proof.
  intros Hne. destruct e as [e|addedNodes|]; [| |done].
  - destruct e; try apply (step_failed_kept _ (core σ)).
    unfold page_step, dispatchError. apply exec_failed_kept.
  - apply (mutation_failed_kept nativeText (lazyObserver σ) addedNodes (core σ)).
Qed.

Lemma page_exec_app nativeText es1 es2 σ :
  page_exec nativeText (es1 ++ es2) σ =
    page_exec nativeText es2 (page_exec nativeText es1 σ).
Proof.
  revert σ. induction es1 as [|e es1 IH]; intros σ; [reflexivity|].
  simpl app. rewrite !page_exec_cons. apply IH.
Qed.

(** X15. Over every run of the page (loader events, notifications of
    the mutation observer, calls of [refreshImages]) no element leaves
    [loadedImages], so the [loaded] number of [getLoadingStats] never
    decreases.  Over a run without a call of [refreshImages] no source
    leaves [failedImages] either, also when it loads later, so [failed]
    does not decrease; a call of [refreshImages] puts [failed] back to
    zero and leaves [loaded] as it is. *)
Theorem X15_statistics_between_refreshes
    (nativeText : string → string) (es : list page_event) (σ : session) :
  (loadedImages (core σ) ⊆ loadedImages (core (page_exec nativeText es σ)) ∧
   (loaded (getLoadingStats (core σ))
    ≤ loaded (getLoadingStats (core (page_exec nativeText es σ))))%nat) ∧
  (Refresh ∉ es →
   failedImages (core σ) ⊆ failedImages (core (page_exec nativeText es σ)) ∧
   (failed (getLoadingStats (core σ))
    ≤ failed (getLoadingStats (core (page_exec nativeText es σ))))%nat) ∧
  (failed (getLoadingStats (core (page_exec nativeText (es ++ [Refresh]) σ))) = 0 ∧
   loaded (getLoadingStats (core (page_exec nativeText (es ++ [Refresh]) σ))) =
   loaded (getLoadingStats (core (page_exec nativeText es σ)))).
Proof.
  split; [|split].
  - assert (H : loadedImages (core σ) ⊆ loadedImages (core (page_exec nativeText es σ))).
    { revert σ. induction es as [|e es IH]; intros σ; [done|].
      rewrite page_exec_cons.
      etransitivity; [apply (page_step_loaded_kept nativeText e σ)|apply IH]. }
    split; [exact H|]. simpl. by apply subseteq_size.
  - intros Hno.
    assert (H : failedImages (core σ) ⊆ failedImages (core (page_exec nativeText es σ))).
    { revert σ Hno. induction es as [|e es IH]; intros σ Hno; [done|].
      apply not_elem_of_cons in Hno as [Hne Hno]. rewrite page_exec_cons.
      etransitivity; [apply (page_step_failed_kept nativeText e σ); congruence|by apply IH]. }
    split; [exact H|]. simpl. by apply subseteq_size.
  - rewrite page_exec_app.
    set (σ1 := page_exec nativeText es σ). clearbody σ1.
    change (page_exec nativeText [Refresh] σ1) with (refreshImages nativeText σ1).1.
    unfold refreshImages.
    destruct (refreshImages_core_spec nativeText (core σ1))
      as (s' & -> & Hf & _ & _ & Hl & _).
    simpl. rewrite Hf, Hl. split; [apply size_empty|done].
Qed.
